(** * godhcpd: DHCP wire codec, receiver loop and lease pool

    A shallow embedding of the Go sources of godhcpd (package internal:
    the option codec, the message codec, the receiver loop and the lease
    pool) together with the properties stated for them.

    Conventions of the embedding:
    - Go's fixed-width unsigned integers are [Z] with the wrap-around
      written out ([uint8], [uint16], [uint32]); a byte slice is [list Z].
    - A Go [string] is the list of its bytes.
    - [net.IP], [net.HardwareAddr] and [[]byte] are byte lists; the nil
      slice is the empty list.
    - A run-time panic (nil dereference, index out of range, explicit
      [panic]) is the [Panic] outcome of the [go] monad, a call that
      never returns the [Loops] outcome; a Go [error] value is
      [option string], [None] standing for [nil].
    - Go maps are [gmap]s; the order in which [range] visits a map is
      unspecified in Go and is a parameter wherever it can be observed. *)

From Stdlib Require Import ZArith Lia.
From stdpp Require Import base option list gmap strings.

Local Open Scope Z_scope.

(** ** Outcomes of Go code *)

(** A call returns a value, panics, or does not return at all: [Loops]
    stands for a loop that no iteration leaves. *)
Inductive go (A : Type) : Type :=
| Ret (a : A)
| Panic (why : string)
| Loops.
Arguments Ret {A} a.
Arguments Panic {A} why.
Arguments Loops {A}.

#[global] Instance go_ret : MRet go := fun A a => Ret a.
#[global] Instance go_bind : MBind go := fun A B k x =>
  match x with
  | Ret a => k a
  | Panic why => Panic why
  | Loops => Loops
  end.

(** A Go [error]: [None] is [nil]. *)
Abbreviation error := (option string) (only parsing).

(** ** Machine integers and big-endian byte order *)

Definition uint8 (z : Z) : Z := z `mod` 2 ^ 8.
Definition uint16 (z : Z) : Z := z `mod` 2 ^ 16.
Definition uint32 (z : Z) : Z := z `mod` 2 ^ 32.

Definition is_byte (b : Z) : Prop := 0 ≤ b < 256.
Definition is_uint16 (v : Z) : Prop := 0 ≤ v < 2 ^ 16.
Definition is_uint32 (v : Z) : Prop := 0 ≤ v < 2 ^ 32.

(** [binary.BigEndian.PutUint16] / [Uint16] and the 32-bit versions. *)
Definition put_uint16 (v : Z) : list Z :=
  [uint8 (v ≫ 8); uint8 v].

Definition put_uint32 (v : Z) : list Z :=
  [uint8 (v ≫ 24); uint8 (v ≫ 16); uint8 (v ≫ 8); uint8 v].

Definition get_uint16 (b : list Z) : Z :=
  Z.lor (nth 1 b 0) (nth 0 b 0 ≪ 8).

Definition get_uint32 (b : list Z) : Z :=
  Z.lor (Z.lor (Z.lor (nth 3 b 0) (nth 2 b 0 ≪ 8)) (nth 1 b 0 ≪ 16))
        (nth 0 b 0 ≪ 24).

(** Go's [copy(dst, src)]: the first [min (len dst) (len src)] elements of
    [dst] are overwritten. *)
Definition copy {A} (dst src : list A) : list A :=
  take (length dst) src ++ drop (length src) dst.

(** [make([]byte, n)] and zero-valued byte arrays. *)
Definition zeros (n : nat) : list Z := replicate n 0.

(** The bytes of a string literal. *)
Fixpoint bytes_of_string (s : string) : list Z :=
  match s with
  | EmptyString => []
  | String a r => Z.of_N (Ascii.N_of_ascii a) :: bytes_of_string r
  end.

(** ** time *)

(** [time.Duration]: a signed count of nanoseconds. *)
Abbreviation Duration := Z (only parsing).
Definition Second : Duration := 1000000000.

(** [time.Time]: nanoseconds elapsed since the zero instant, so that the
    zero value [time.Time{}] is [0]. *)
Abbreviation Time := Z (only parsing).
Definition zeroTime : Time := 0.
Definition Time_Before (t u : Time) : bool := bool_decide (t < u).
Definition Time_Add (t : Time) (d : Duration) : Time := t + d.

(** ** net.IP *)

Abbreviation IP := (list Z) (only parsing).

Definition v4InV6Prefix : list Z := [0; 0; 0; 0; 0; 0; 0; 0; 0; 0; 255; 255].

(** [net.IPv4(a, b, c, d)]: the 16-byte form. *)
Definition IPv4 (a b c d : Z) : IP := v4InV6Prefix ++ [a; b; c; d].

Definition IPv4zero : IP := IPv4 0 0 0 0.

Definition bytes_Equal (a b : list Z) : bool := bool_decide (a = b).

(** [ip.To4()]: [None] is the nil result. *)
Definition To4 (ip : IP) : option (list Z) :=
  if bool_decide (length ip = 4%nat) then Some ip
  else if bool_decide (length ip = 16%nat)
          && bytes_Equal (take 10 ip) (zeros 10)
          && bool_decide (nth 10 ip 0 = 255)
          && bool_decide (nth 11 ip 0 = 255)
       then Some (drop 12 ip)
       else None.

(** [ip.Equal(x)] *)
Definition IP_Equal (ip x : IP) : bool :=
  if bool_decide (length ip = length x) then bytes_Equal ip x
  else if bool_decide (length ip = 4%nat) && bool_decide (length x = 16%nat)
  then bytes_Equal (take 12 x) v4InV6Prefix && bytes_Equal ip (drop 12 x)
  else if bool_decide (length ip = 16%nat) && bool_decide (length x = 4%nat)
  then bytes_Equal (take 12 ip) v4InV6Prefix && bytes_Equal (drop 12 ip) x
  else false.

(** ** DHCP options *)

Abbreviation DHCPOptionCode := Z (only parsing).

Definition PadOptionCode : DHCPOptionCode := 0.
Definition SubnetMaskOptionCode : DHCPOptionCode := 1.
Definition TimeOffsetOptionCode : DHCPOptionCode := 2.
Definition RouterOptionCode : DHCPOptionCode := 3.
Definition TimeServerOptionCode : DHCPOptionCode := 4.
Definition NameServerOptionCode : DHCPOptionCode := 5.
Definition DomainNameServerOptionCode : DHCPOptionCode := 6.
Definition HostNameOptionCode : DHCPOptionCode := 12.
Definition DomainNameOptionCode : DHCPOptionCode := 15.
Definition IPForwardingEnableOptionCode : DHCPOptionCode := 19.
Definition InterfaceMTUOptionCode : DHCPOptionCode := 26.
Definition StaticRouteOptionCode : DHCPOptionCode := 33.
Definition NTPServerOptionCode : DHCPOptionCode := 42.
Definition RequestIPAddressOptionCode : DHCPOptionCode := 50.
Definition IPAddressLeaseTimeOptionCode : DHCPOptionCode := 51.
Definition OptionOverloadOptionCode : DHCPOptionCode := 52.
Definition DHCPMessageTypeOptionCode : DHCPOptionCode := 53.
Definition ServerIdentifierOptionCode : DHCPOptionCode := 54.
Definition ParameterRequestListOptionCode : DHCPOptionCode := 55.
Definition MessageOptionCode : DHCPOptionCode := 56.
Definition MaximumDHCPMessageSizeOptionCode : DHCPOptionCode := 57.
Definition RenewalTimeValueOptionCode : DHCPOptionCode := 58.
Definition RebindingTimeValueOptionCode : DHCPOptionCode := 59.
Definition VendorClassIdentifierOptionCode : DHCPOptionCode := 60.
Definition ClientIdentifierOptionCode : DHCPOptionCode := 61.
Definition EndOptionCode : DHCPOptionCode := 255.

(** The five implementations of the [DHCPOption] interface. *)
Inductive DHCPOption : Type :=
| IPDHCPOption (Value : list IP)
| Uint8DHCPOption (Value : list Z)
| Uint16DHCPOption (Value : list Z)
| StringDHCPOption (Value : list Z)
| DurationDHCPOption (Value : Duration).

#[global] Instance DHCPOption_eq_dec : EqDecision DHCPOption.
Proof. solve_decision. Defined.

Abbreviation DHCPOptions := (gmap Z DHCPOption).

(** The variant [decodeOption] allocates for a code, before decoding. *)
Inductive OptionKind : Type := KindIP | KindDuration | KindString | KindUint8 | KindUint16.

Definition option_kind (code : DHCPOptionCode) : option OptionKind :=
  if bool_decide (code ∈ [SubnetMaskOptionCode; RouterOptionCode; TimeServerOptionCode;
                          NameServerOptionCode; DomainNameServerOptionCode;
                          StaticRouteOptionCode; NTPServerOptionCode;
                          RequestIPAddressOptionCode; ServerIdentifierOptionCode])
  then Some KindIP
  else if bool_decide (code ∈ [TimeOffsetOptionCode; IPAddressLeaseTimeOptionCode;
                               RenewalTimeValueOptionCode; RebindingTimeValueOptionCode])
  then Some KindDuration
  else if bool_decide (code ∈ [HostNameOptionCode; DomainNameOptionCode; MessageOptionCode;
                               VendorClassIdentifierOptionCode])
  then Some KindString
  else if bool_decide (code ∈ [IPForwardingEnableOptionCode; OptionOverloadOptionCode;
                               DHCPMessageTypeOptionCode; ParameterRequestListOptionCode;
                               ClientIdentifierOptionCode])
  then Some KindUint8
  else if bool_decide (code ∈ [InterfaceMTUOptionCode; MaximumDHCPMessageSizeOptionCode])
  then Some KindUint16
  else None.

(** *** Per-variant [Encode], [Decode] and [Data] *)

(** [IPDHCPOption.Encode]: the buffer of [4 * len] bytes is filled from
    the left, four bytes per address, written here as appending; panics
    on an address that has no IPv4 form. *)
Fixpoint IP_Encode_loop (ips : list IP) (buffer : list Z) : go (list Z) :=
  match ips with
  | [] => Ret buffer
  | ip :: rest =>
      match To4 ip with
      | Some ipv4 => IP_Encode_loop rest (buffer ++ take 4 ipv4)
      | None => Panic "IPv6?"
      end
  end.

Fixpoint Uint16_Encode_loop (vs : list Z) : list Z :=
  match vs with
  | [] => []
  | v :: rest => put_uint16 v ++ Uint16_Encode_loop rest
  end.

Definition Option_Encode (opt : DHCPOption) : go (list Z) :=
  match opt with
  | IPDHCPOption Value => IP_Encode_loop Value []
  | Uint8DHCPOption Value => Ret Value
  | Uint16DHCPOption Value => Ret (Uint16_Encode_loop Value)
  | StringDHCPOption Value => Ret Value
  | DurationDHCPOption Value => Ret (put_uint32 (uint32 (Value `quot` Second)))
  end.

(** [IPDHCPOption.Decode]: the loop [for i := 0; i < count; i++]. *)
Fixpoint IP_Decode_loop (count : nat) (i : nat) (data : list Z) : list IP :=
  match count with
  | O => []
  | S count' =>
      IPv4 (nth (i * 4) data 0) (nth (i * 4 + 1) data 0)
           (nth (i * 4 + 2) data 0) (nth (i * 4 + 3) data 0)
      :: IP_Decode_loop count' (S i) data
  end.

(** [binary.Read] into a [[]uint16] of [count] elements. *)
Fixpoint Uint16_Decode_loop (count : nat) (data : list Z) : list Z :=
  match count with
  | O => []
  | S count' => get_uint16 (take 2 data) :: Uint16_Decode_loop count' (drop 2 data)
  end.

(** [opt.Decode(data)] on a freshly allocated option of the given kind:
    [None] is the [false] result. *)
Definition Option_Decode (kind : OptionKind) (data : list Z) : option DHCPOption :=
  match kind with
  | KindIP =>
      if bool_decide ((length data `mod` 4)%nat ≠ 0%nat) then None
      else Some (IPDHCPOption (IP_Decode_loop (length data / 4)%nat 0 data))
  | KindUint8 => Some (Uint8DHCPOption (copy (zeros (length data)) data))
  | KindUint16 =>
      if bool_decide ((length data `mod` 2)%nat ≠ 0%nat) then None
      else Some (Uint16DHCPOption (Uint16_Decode_loop (length data / 2)%nat data))
  | KindString => Some (StringDHCPOption (copy (zeros (length data)) data))
  | KindDuration =>
      if bool_decide (length data ≠ 4%nat) then None
      else Some (DurationDHCPOption (get_uint32 data * Second))
  end.

(** [decodeOption]: [(nil, nil)] for an unknown code; the error text is
    given without the hexadecimal code that follows it. *)
Definition decodeOption (code : DHCPOptionCode) (data : list Z) : option DHCPOption * error :=
  match option_kind code with
  | None => (None, None)
  | Some kind =>
      match Option_Decode kind data with
      | Some opt => (Some opt, None)
      | None => (None, Some "Unable to parse option")
      end
  end.

(** [DecodeDHCPOptions]: the loop over the index [i].  Every iteration
    advances [i]; [fuel] bounds the number of iterations and [None] is
    returned only when it is exhausted. *)
Fixpoint DecodeDHCPOptions_loop (fuel : nat) (data : list Z) (i : nat) (output : DHCPOptions)
  : option (go (DHCPOptions * error)) :=
  if bool_decide (i < length data)%nat then
    match fuel with
    | O => None
    | S fuel' =>
        match data !! i with
        | None => Some (Panic "index out of range")
        | Some code =>
            if bool_decide (code = PadOptionCode) then
              DecodeDHCPOptions_loop fuel' data (S i) output
            else if bool_decide (code = EndOptionCode) then
              Some (Ret (output, None))
            else
              let i := S i in
              match data !! i with
              | None => Some (Panic "index out of range")
              | Some len =>
                  if bool_decide (len < 0 ∨ Z.of_nat (length data) - Z.of_nat i - 1 < len)
                  then Some (Ret (∅, Some "Invalid DHCP option length"))
                  else
                    let length := Z.to_nat len in
                    match decodeOption code (take length (drop (S i) data)) with
                    | (_, Some err) => Some (Ret (∅, Some err))
                    | (Some option, None) =>
                        DecodeDHCPOptions_loop fuel' data (S (i + length)) (<[code := option]> output)
                    | (None, None) =>
                        DecodeDHCPOptions_loop fuel' data (S (i + length)) output
                    end
              end
        end
    end
  else Some (Ret (∅, Some "Options not terminated properly")).

Definition DecodeDHCPOptions (data : list Z) : go (DHCPOptions * error) :=
  match DecodeDHCPOptions_loop (length data) data 0 ∅ with
  | Some r => r
  | None => Panic "unreachable"
  end.

(** [DHCPOptions.Encode]: [entries] is the sequence of key/value pairs in
    the order [range options] yields them. *)
Fixpoint Encode_loop (entries : list (DHCPOptionCode * DHCPOption)) (buffer : list Z)
  : go (list Z * error) :=
  match entries with
  | [] => Ret (buffer ++ [EndOptionCode], None)
  | (code, opt) :: rest =>
      if bool_decide (code = EndOptionCode ∨ code = PadOptionCode) then
        Encode_loop rest buffer
      else
        data ← Option_Encode opt;
        if bool_decide (255 < length data)%nat then
          Ret ([], Some "Option taking more than 255 bytes detected")
        else
          Encode_loop rest (buffer ++ [code] ++ [uint8 (Z.of_nat (length data))] ++ data)
  end.

(** [opt.Data().([]uint8)] and [opt.Data().([]net.IP)] on an interface
    value looked up in the map: the method call panics on the nil
    interface a failed lookup yields, the type assertion on any other
    dynamic type. *)
Definition Data_uint8s (opt : option DHCPOption) : go (list Z) :=
  match opt with
  | None => Panic "nil pointer dereference"
  | Some (Uint8DHCPOption Value) => Ret Value
  | Some _ => Panic "interface conversion"
  end.

Definition Data_IPs (opt : option DHCPOption) : go (list IP) :=
  match opt with
  | None => Panic "nil pointer dereference"
  | Some (IPDHCPOption Value) => Ret Value
  | Some _ => Panic "interface conversion"
  end.

(** [s[0]] *)
Definition index0 {A} (s : list A) : go A :=
  match s !! 0%nat with
  | Some x => Ret x
  | None => Panic "index out of range"
  end.

(** ** DHCP messages *)

Abbreviation BootpOperation := Z (only parsing).
Abbreviation BootpFlag := Z (only parsing).
Abbreviation DHCPType := Z (only parsing).
Abbreviation BootpHwType := Z (only parsing).

Definition BootRequest : BootpOperation := 1.
Definition BootReply : BootpOperation := 2.

Definition DHCPUnknown : DHCPType := 0.
Definition DHCPDiscover : DHCPType := 1.
Definition DHCPOffer : DHCPType := 2.
Definition DHCPRequest : DHCPType := 3.
Definition DHCPDecline : DHCPType := 4.
Definition DHCPAck : DHCPType := 5.
Definition DHCPNak : DHCPType := 6.
Definition DHCPRelease : DHCPType := 7.
Definition DHCPInform : DHCPType := 8.

Definition BootpBroadcast : BootpFlag := 0x8000.
Definition BootpEthernet : BootpHwType := 1.

Definition dhcpMagicCookie : Z := 0x63825363.
Definition bootpHeaderSize : nat := 12 + 32 + 64 + 128.

Record BootpHeader : Type := mkBootpHeader {
  Operation : BootpOperation;
  HwAddrType : BootpHwType;
  Hops : Z;
  TransactionID : Z;
  Seconds : Duration;
  Flags : BootpFlag;
  ClientIP : IP;
  YourIP : IP;
  ServerIP : IP;
  RelayAgentIP : IP;
  ClientHwAddr : list Z;
  ServerName : list Z;
  FileName : list Z
}.

Record rawBootpHeader : Type := mkRawBootpHeader {
  raw_Op : Z;
  raw_HwAddrType : Z;
  raw_HwAddrLength : Z;
  raw_Hops : Z;
  raw_TransactionID : Z;
  raw_Seconds : Z;
  raw_Flags : Z;
  raw_ClientIP : list Z;
  raw_YourIP : list Z;
  raw_ServerIP : list Z;
  raw_RelayAgentIP : list Z;
  raw_ClientHwAddr : list Z;
  raw_ServerName : list Z;
  raw_FileName : list Z
}.

Record DHCPMessage : Type := mkDHCPMessage {
  Header : BootpHeader;
  Options : DHCPOptions
}.

(** The zero values [var out DHCPMessage] starts from. *)
Definition zeroBootpHeader : BootpHeader :=
  mkBootpHeader 0 0 0 0 0 0 [] [] [] [] [] [] [].
Definition zeroDHCPMessage : DHCPMessage := mkDHCPMessage zeroBootpHeader ∅.

Definition ipToArray (ip : IP) : list Z :=
  let arr := zeros 4 in
  match To4 ip with
  | Some ip2 => copy arr (take 4 ip2)
  | None => arr
  end.

(** The scan of [cstringToGo]: [n] is the index of the last byte before
    the first NUL, [-1] when there is none. *)
Fixpoint cstring_scan (bytes : list Z) (i n : Z) : Z :=
  match bytes with
  | [] => n
  | b :: rest => if bool_decide (b = 0) then n else cstring_scan rest (i + 1) i
  end.

Definition cstringToGo (bytes : list Z) : list Z :=
  take (Z.to_nat (cstring_scan bytes 0 (-1) + 1)) bytes.

Definition BootpHeader_raw (bootp : BootpHeader) : rawBootpHeader :=
  let HwAddrLength := uint8 (Z.of_nat (length (ClientHwAddr bootp))) in
  {| raw_Op := uint8 (Operation bootp);
     raw_HwAddrType := uint8 (HwAddrType bootp);
     raw_HwAddrLength := HwAddrLength;
     raw_Hops := Hops bootp;
     raw_TransactionID := TransactionID bootp;
     raw_Seconds := uint16 (Seconds bootp `quot` Second);
     raw_Flags := uint16 (Flags bootp);
     raw_ClientIP := ipToArray (ClientIP bootp);
     raw_YourIP := ipToArray (YourIP bootp);
     raw_ServerIP := ipToArray (ServerIP bootp);
     raw_RelayAgentIP := ipToArray (RelayAgentIP bootp);
     raw_ClientHwAddr := copy (zeros 16) (take (Z.to_nat HwAddrLength) (ClientHwAddr bootp));
     raw_ServerName := copy (zeros 64) (ServerName bootp);
     raw_FileName := copy (zeros 128) (FileName bootp) |}.

Definition array_IPv4 (a : list Z) : IP :=
  IPv4 (nth 0 a 0) (nth 1 a 0) (nth 2 a 0) (nth 3 a 0).

Definition rawBootpHeader_transform (raw : rawBootpHeader) : BootpHeader * error :=
  let bootp :=
    {| Operation := raw_Op raw;
       HwAddrType := raw_HwAddrType raw;
       Hops := raw_Hops raw;
       TransactionID := raw_TransactionID raw;
       Seconds := raw_Seconds raw * Second;
       Flags := raw_Flags raw;
       ClientIP := array_IPv4 (raw_ClientIP raw);
       YourIP := array_IPv4 (raw_YourIP raw);
       ServerIP := array_IPv4 (raw_ServerIP raw);
       RelayAgentIP := array_IPv4 (raw_RelayAgentIP raw);
       ClientHwAddr := [];
       ServerName := cstringToGo (raw_ServerName raw);
       FileName := cstringToGo (raw_FileName raw) |} in
  if bool_decide (raw_Op raw ≠ uint8 BootRequest ∧ raw_Op raw ≠ uint8 BootReply) then
    (bootp, Some "Invalid BootP operation")
  else
    let hwLength := raw_HwAddrLength raw in
    if bool_decide (hwLength ≤ 0 ∨ 16 < hwLength) then
      (bootp, Some "Invalid MAC address length")
    else
      let hw := copy (zeros (Z.to_nat hwLength)) (take (Z.to_nat hwLength) (raw_ClientHwAddr raw)) in
      ({| Operation := Operation bootp; HwAddrType := HwAddrType bootp; Hops := Hops bootp;
          TransactionID := TransactionID bootp; Seconds := Seconds bootp; Flags := Flags bootp;
          ClientIP := ClientIP bootp; YourIP := YourIP bootp; ServerIP := ServerIP bootp;
          RelayAgentIP := RelayAgentIP bootp; ClientHwAddr := hw;
          ServerName := ServerName bootp; FileName := FileName bootp |}, None).

(** [binary.Write(buffer, binary.BigEndian, header)]: the fields in
    declaration order, 236 bytes. *)
Definition binary_Write_header (raw : rawBootpHeader) : list Z :=
  [raw_Op raw; raw_HwAddrType raw; raw_HwAddrLength raw; raw_Hops raw]
  ++ put_uint32 (raw_TransactionID raw)
  ++ put_uint16 (raw_Seconds raw)
  ++ put_uint16 (raw_Flags raw)
  ++ raw_ClientIP raw ++ raw_YourIP raw ++ raw_ServerIP raw ++ raw_RelayAgentIP raw
  ++ raw_ClientHwAddr raw ++ raw_ServerName raw ++ raw_FileName raw.

(** [binary.Read(reader, binary.BigEndian, &header)]: [None] when fewer
    than 236 bytes are available. *)
Definition binary_Read_header (data : list Z) : option rawBootpHeader :=
  if bool_decide (length data < bootpHeaderSize)%nat then None
  else Some
    {| raw_Op := nth 0 data 0;
       raw_HwAddrType := nth 1 data 0;
       raw_HwAddrLength := nth 2 data 0;
       raw_Hops := nth 3 data 0;
       raw_TransactionID := get_uint32 (take 4 (drop 4 data));
       raw_Seconds := get_uint16 (take 2 (drop 8 data));
       raw_Flags := get_uint16 (take 2 (drop 10 data));
       raw_ClientIP := take 4 (drop 12 data);
       raw_YourIP := take 4 (drop 16 data);
       raw_ServerIP := take 4 (drop 20 data);
       raw_RelayAgentIP := take 4 (drop 24 data);
       raw_ClientHwAddr := take 16 (drop 28 data);
       raw_ServerName := take 64 (drop 44 data);
       raw_FileName := take 128 (drop 108 data) |}.

Definition UnmarshallDHCPMessage (msg : list Z) : go (DHCPMessage * error) :=
  let out := zeroDHCPMessage in
  (* header *)
  match binary_Read_header msg with
  | None => Ret (out, Some (if bool_decide (msg = []) then "EOF" else "unexpected EOF"))
  | Some header =>
      (* cookie *)
      let reader := drop bootpHeaderSize msg in
      if bool_decide (length reader < 4)%nat then
        Ret (out, Some "Unable to read DHCP cookie value")
      else
        let cookie := get_uint32 (take 4 reader) in
        if bool_decide (cookie ≠ dhcpMagicCookie) then
          Ret (out, Some "Invalid DHCP cookie value")
        else
          (* options *)
          r ← DecodeDHCPOptions (drop (bootpHeaderSize + 4) msg);
          match r with
          | (_, Some err) => Ret (out, Some err)
          | (options, None) =>
              match rawBootpHeader_transform header with
              | (bootp, Some err) => Ret (mkDHCPMessage bootp (Options out), Some err)
              | (bootp, None) => Ret (mkDHCPMessage bootp options, None)
              end
          end
  end.

(** [MarshallDHCPMessage]; [order] is the sequence in which
    [range msg.Options] visits the entries of the map. *)
Definition MarshallDHCPMessage (order : list (DHCPOptionCode * DHCPOption)) (msg : DHCPMessage)
  : go (list Z * error) :=
  let header := BootpHeader_raw (Header msg) in
  (* header, cookie: writes to a bytes.Buffer do not fail *)
  let buffer := binary_Write_header header ++ put_uint32 dhcpMagicCookie in
  (* options *)
  r ← Encode_loop order [];
  match r with
  | (_, Some err) => Ret ([], None)
  | (opt, None) => Ret (buffer ++ opt, None)
  end.

Definition DHCPMessage_Type (msg : DHCPMessage) : go DHCPType :=
  let opt := Options msg !! DHCPMessageTypeOptionCode in
  let found := bool_decide (is_Some opt) in
  data ← Data_uint8s opt;
  t ← index0 data;
  if negb found || bool_decide (uint8 DHCPInform < t) || bool_decide (t = 0) then
    Ret DHCPUnknown
  else Ret t.

(** [RequestedIP] and [ServerIdentifier]: the nil result is [[]]. *)
Definition DHCPMessage_RequestedIP (msg : DHCPMessage) : go IP :=
  let opt := Options msg !! RequestIPAddressOptionCode in
  if negb (bool_decide (is_Some opt)) then Ret []
  else data ← Data_IPs opt; index0 data.

Definition DHCPMessage_ServerIdentifier (msg : DHCPMessage) : go IP :=
  let opt := Options msg !! ServerIdentifierOptionCode in
  if negb (bool_decide (is_Some opt)) then Ret []
  else data ← Data_IPs opt; index0 data.

Definition BuildBasicReply (request : DHCPMessage) (serverIP : IP) : DHCPMessage :=
  let header :=
    {| Operation := BootReply;
       HwAddrType := HwAddrType (Header request);
       Hops := Hops (Header request);
       TransactionID := TransactionID (Header request);
       Seconds := Seconds (Header request);
       Flags := BootpBroadcast;
       ServerIP := serverIP;
       RelayAgentIP := IPv4zero;
       ClientIP := IPv4zero;
       YourIP := IPv4zero;
       ClientHwAddr := ClientHwAddr (Header request);
       ServerName := [];
       FileName := [] |} in
  let options : DHCPOptions := <[ServerIdentifierOptionCode := IPDHCPOption [serverIP]]> ∅ in
  {| Header := header; Options := options |}.

(** ** The receiver loop *)

Record net_Interface : Type := mkInterface {
  Index : Z;
  Addrs : list IP
}.

Record UDPAddr : Type := mkUDPAddr {
  addr_IP : IP;
  addr_Port : Z
}.

Record DirectedDHCPMessage : Type := mkDirected {
  Message : DHCPMessage;
  Interface : option net_Interface;
  Remote : option UDPAddr
}.

(** What one call of [ReadUDPWithPktInfo(sock, buffer)] delivers: the
    576-byte buffer as filled by the datagram, the peer and the arrival
    interface index, or an error. *)
Inductive ReadResult : Type :=
| ReadOk (buffer : list Z) (addr : option UDPAddr) (Ifindex : Z)
| ReadErr (err : string).

(** The channel handed to the dispatcher, the lines printed, and whether
    the channel has been closed. *)
Record ReceiverState : Type := mkReceiver {
  channel : list DirectedDHCPMessage;
  printed : list string;
  closed : bool
}.

(** One pass through the body of the [for] loop of [UDPReceiver]; the
    boolean tells whether the loop goes on.  [InterfaceByIndex] is the
    host's interface table. *)
Definition UDPReceiver_iteration (InterfaceByIndex : Z → option net_Interface)
    (read : ReadResult) (st : ReceiverState) : go (ReceiverState * bool) :=
  match read with
  | ReadErr err =>
      Ret (mkReceiver (channel st) (printed st ++ ["Error while reading UDP message: " +:+ err]) true,
           false)
  | ReadOk buffer addr Ifindex =>
      let iface := InterfaceByIndex Ifindex in
      '(dhcp, err) ← UnmarshallDHCPMessage buffer;
      let printed' :=
        match err with
        | Some e => printed st ++ ["Unable to parse DHCP message: " +:+ e]
        | None => printed st
        end in
      Ret (mkReceiver (channel st ++ [mkDirected dhcp iface addr]) printed' (closed st), true)
  end.

Fixpoint UDPReceiver_loop (InterfaceByIndex : Z → option net_Interface)
    (reads : list ReadResult) (st : ReceiverState) : go ReceiverState :=
  match reads with
  | [] => Ret st
  | read :: rest =>
      r ← UDPReceiver_iteration InterfaceByIndex read st;
      match r with
      | (st1, true) => UDPReceiver_loop InterfaceByIndex rest st1
      | (st1, false) => Ret st1
      end
  end.

(** ** The lease pool (internal/pool.go) *)

Inductive LeaseState : Type := LeaseReserved | LeaseInUse.
Inductive AddressSelectAlgorithm : Type := Sequential | Randomized.

Record ClientIdentifier : Type := mkClientIdentifier {
  ID : list Z;
  Mac : list Z
}.

Record Lease : Type := mkLease {
  Address : IP;
  State : LeaseState;
  Lease_ID : ClientIdentifier;
  Expires : Time
}.

Abbreviation LeaseMap := (gmap Z Lease).

(** [net.IPNet]; [net.ParseCIDR] yields four bytes each for an IPv4 network. *)
Record IPNet : Type := mkIPNet {
  Net_IP : list Z;
  Net_Mask : list Z
}.

Record Pool : Type := mkPool {
  Leases : LeaseMap;
  Network : IPNet;
  Start : Z;
  End_ : Z;
  Lifetime : Duration;
  Algorithm : AddressSelectAlgorithm
}.

Definition Pool_with_Leases (pool : Pool) (leases : LeaseMap) : Pool :=
  mkPool leases (Network pool) (Start pool) (End_ pool) (Lifetime pool) (Algorithm pool).

Definition ClientIdentifier_equals (id other : ClientIdentifier) : bool :=
  if bool_decide (0 < length (ID id))%nat then bytes_Equal (ID id) (ID other)
  else bytes_Equal (Mac id) (Mac other).

Definition newClientIdentifier (msg : DHCPMessage) : ClientIdentifier :=
  {| ID := []; Mac := ClientHwAddr (Header msg) |}.

Definition basicValidation (msg : DirectedDHCPMessage) (t : DHCPType) : error :=
  if bool_decide (Operation (Header (Message msg)) ≠ BootRequest) then
    Some "Operation is not BOOTREQUEST"
  else if bool_decide (HwAddrType (Header (Message msg)) ≠ BootpEthernet) then
    Some "Only supported HwType is Ethernet"
  else None.

(** Deleting, while ranging over [entries], every lease that satisfies
    [P]: the loops of [expireOld] and [freeLeases]. *)
Definition delete_where (P : Lease → bool) (entries : list (Z * Lease)) (leases : LeaseMap)
  : LeaseMap :=
  foldl (λ m e, if P e.2 then delete e.1 m else m) leases entries.

(** [expireOld]; [now] is the reading of [time.Now()] during the sweep. *)
Definition Pool_expireOld (now : Time) (pool : Pool) : Pool :=
  Pool_with_Leases pool
    (delete_where (λ lease, Time_Before (Expires lease) now)
       (map_to_list (Leases pool)) (Leases pool)).

(** The four network octets combined into one big-endian [uint32]. *)
Definition be_uint32 (b : list Z) : Z :=
  Z.lor (Z.lor (Z.lor (uint32 (nth 0 b 0 ≪ 24)) (uint32 (nth 1 b 0 ≪ 16)))
               (uint32 (nth 2 b 0 ≪ 8)))
        (nth 3 b 0).

Definition Pool_addressFromIndex (pool : Pool) (index : Z) : IP :=
  let mask := be_uint32 (Net_IP (Network pool)) in
  let mask := Z.lor mask (uint32 (index + Start pool)) in
  IPv4 (uint8 (Z.land (mask ≫ 24) 0xFF)) (uint8 (Z.land (mask ≫ 16) 0xFF))
       (uint8 (Z.land (mask ≫ 8) 0xFF)) (uint8 (Z.land mask 0xFF)).

(** [^mask] on [uint32]. *)
Definition uint32_not (x : Z) : Z := Z.lxor x (2 ^ 32 - 1).

Definition Pool_indexFromAddress (pool : Pool) (ip : IP) : Z * error :=
  let mask := be_uint32 (Net_IP (Network pool)) in
  match To4 ip with
  | None => (0, Some "Invalid IPv4 address")
  | Some ip4 =>
      let ipaddr := be_uint32 ip4 in
      let idx := uint32 (Z.land ipaddr (uint32_not mask) - Start pool) in
      (idx, None)
  end.

(** [rand.Intn(n)]: panics for [n <= 0], otherwise a number below [n];
    [rnd] is the next raw draw of the generator. *)
Definition rand_Intn (rnd : nat) (n : nat) : go nat :=
  if bool_decide (n = 0%nat) then Panic "invalid argument to Intn"
  else Ret (rnd `mod` n)%nat.

Definition index_at {A} (s : list A) (i : nat) : go A :=
  match s !! i with
  | Some x => Ret x
  | None => Panic "index out of range"
  end.

Definition selectNumber (algo : AddressSelectAlgorithm) (indices : list Z) (rnd : nat) : go Z :=
  match algo with
  | Sequential => index_at indices 0
  | Randomized => n ← rand_Intn rnd (length indices); index_at indices n
  end.

(** The body of [for i := pool.Start; i <= pool.End; i++] in
    [freeIndices], from counter [i] on, for at most [fuel] tests of the
    condition; the counter is a [uint32] and wraps.  [None]: the loop
    has not been left yet. *)
Fixpoint freeIndices_loop (fuel : nat) (pool : Pool) (i : Z) (result : list Z)
  : option (list Z) :=
  match fuel with
  | O => None
  | S fuel =>
      if bool_decide (i ≤ End_ pool) then
        let result := if bool_decide (Leases pool !! i = None) then result ++ [i] else result in
        freeIndices_loop fuel pool (uint32 (i + 1)) result
      else Some result
  end.

(** The free indices of [[Start, End]], in increasing order: what the
    loop of [freeIndices] has collected when it is left. *)
Definition free_in_range (pool : Pool) : list Z :=
  filter (λ i, Leases pool !! i = None)
         (seqZ (Start pool) (End_ pool - Start pool + 1)).

(** [freeIndices].  The condition [i <= pool.End] can fail only for
    [End < 2^32 - 1]; at [End = 2^32 - 1] it holds of every [uint32], the
    counter wraps to 0 and the call does not return
    ([freeIndices_loop_exits], [freeIndices_loop_never_exits]). *)
Definition Pool_freeIndices (pool : Pool) : go (list Z) :=
  if bool_decide (End_ pool < 2 ^ 32 - 1) then Ret (free_in_range pool) else Loops.

(** [findClientLease]: the first match in the order of the range. *)
Definition Pool_findClientLease (pool : Pool) (id : ClientIdentifier) : option Lease :=
  (λ r, r.2.2) <$> list_find (λ e, ClientIdentifier_equals (Lease_ID e.2) id = true)
                             (map_to_list (Leases pool)).

(** [freeLeases]; inside the range [pool.Leases[i]] is the entry being
    visited. *)
Definition Pool_freeLeases (pool : Pool) (id : ClientIdentifier) : Pool :=
  Pool_with_Leases pool
    (delete_where (λ lease, ClientIdentifier_equals (Lease_ID lease) id)
       (map_to_list (Leases pool)) (Leases pool)).

Fixpoint serverIP_loop (addresses : list IP) : IP :=
  match addresses with
  | [] => IPv4 0 0 0 0
  | ip :: rest =>
      match To4 ip with
      | Some ip4 => ip4
      | None => serverIP_loop rest
      end
  end.

(** [pool.serverIP(iface)]; [Addrs] of a nil interface is empty. *)
Definition Pool_serverIP (iface : option net_Interface) : IP :=
  serverIP_loop (match iface with Some i => Addrs i | None => [] end).

Definition with_YourIP (msg : DHCPMessage) (ip : IP) : DHCPMessage :=
  let h := Header msg in
  {| Header :=
       {| Operation := Operation h; HwAddrType := HwAddrType h; Hops := Hops h;
          TransactionID := TransactionID h; Seconds := Seconds h; Flags := Flags h;
          ClientIP := ClientIP h; YourIP := ip; ServerIP := ServerIP h;
          RelayAgentIP := RelayAgentIP h; ClientHwAddr := ClientHwAddr h;
          ServerName := ServerName h; FileName := FileName h |};
     Options := Options msg |}.

(** [msg.Options[code] = opt] *)
Definition with_Option (code : DHCPOptionCode) (opt : DHCPOption) (msg : DHCPMessage)
  : DHCPMessage :=
  {| Header := Header msg; Options := <[code := opt]> (Options msg) |}.

Definition Mask_IPv4 (pool : Pool) : IP :=
  let m := Net_Mask (Network pool) in
  IPv4 (nth 0 m 0) (nth 1 m 0) (nth 2 m 0) (nth 3 m 0).

(** The option envelope OFFER and ACK share. *)
Definition lease_reply (pool : Pool) (msg : DirectedDHCPMessage) (serverIP : IP)
    (t : DHCPType) (lease : Lease) : DirectedDHCPMessage :=
  let reply := BuildBasicReply (Message msg) serverIP in
  let reply := with_YourIP reply (Address lease) in
  let reply := with_Option DHCPMessageTypeOptionCode (Uint8DHCPOption [uint8 t]) reply in
  let reply := with_Option SubnetMaskOptionCode (IPDHCPOption [Mask_IPv4 pool]) reply in
  let reply := with_Option RouterOptionCode (IPDHCPOption [serverIP]) reply in
  let reply := with_Option DomainNameServerOptionCode (IPDHCPOption [serverIP]) reply in
  let reply := with_Option IPAddressLeaseTimeOptionCode (DurationDHCPOption (Lifetime pool)) reply in
  {| Message := reply; Interface := Interface msg; Remote := Remote msg |}.

(** The handlers take the pool and the contents of the [sender] channel
    and give back both. *)
Definition Pool_handleDiscover (rnd : nat) (msg : DirectedDHCPMessage)
    (pool : Pool) (sender : list DirectedDHCPMessage)
  : go (Pool * list DirectedDHCPMessage) :=
  let clientID := newClientIdentifier (Message msg) in
  let serverIP := Pool_serverIP (Interface msg) in
  (* find lease for client or reserve new one *)
  r ← match Pool_findClientLease pool clientID with
      | Some lease => Ret (pool, Some lease)
      | None =>
          free ← Pool_freeIndices pool;
          if bool_decide (length free = 0%nat) then Ret (pool, None)
          else
            idx ← selectNumber (Algorithm pool) free rnd;
            let lease :=
              {| Address := Pool_addressFromIndex pool idx;
                 Lease_ID := clientID;
                 State := LeaseReserved;
                 Expires := zeroTime |} in
            Ret (Pool_with_Leases pool (<[idx := lease]> (Leases pool)), Some lease)
      end;
  match r with
  | (pool, None) => Ret (pool, sender)
  | (pool, Some lease) =>
      (* build reply *)
      Ret (pool, sender ++ [lease_reply pool msg serverIP DHCPOffer lease])
  end.

Definition Pool_sendNack (msg : DirectedDHCPMessage) (sender : list DirectedDHCPMessage)
    (serverIP : IP) (reason : string) : list DirectedDHCPMessage :=
  let nak := BuildBasicReply (Message msg) serverIP in
  let nak := with_Option DHCPMessageTypeOptionCode (Uint8DHCPOption [uint8 DHCPNak]) nak in
  let nak := with_Option MessageOptionCode (StringDHCPOption (bytes_of_string reason)) nak in
  sender ++ [{| Message := nak; Interface := Interface msg; Remote := Remote msg |}].

Definition Pool_handleRequest (now : Time) (msg : DirectedDHCPMessage)
    (pool : Pool) (sender : list DirectedDHCPMessage)
  : go (Pool * list DirectedDHCPMessage) :=
  let clientID := newClientIdentifier (Message msg) in
  let serverIP := Pool_serverIP (Interface msg) in
  selectedServer ← DHCPMessage_ServerIdentifier (Message msg);
  requestedIP ← DHCPMessage_RequestedIP (Message msg);
  if bool_decide (requestedIP = []) && IP_Equal (ClientIP (Header (Message msg))) IPv4zero then
    Ret (pool, sender)
  else
    let requestedIP :=
      if bool_decide (requestedIP = []) then ClientIP (Header (Message msg)) else requestedIP in
    if bool_decide (selectedServer ≠ []) && negb (IP_Equal serverIP selectedServer) then
      Ret (Pool_freeLeases pool clientID, sender)
    else
      let nack reason :=
        if bool_decide (selectedServer ≠ []) then Pool_sendNack msg sender serverIP reason
        else sender in
      (* validate requested IP *)
      match Pool_indexFromAddress pool requestedIP with
      | (_, Some err) => Ret (pool, nack "Invalid address")
      | (idx, None) =>
          match Leases pool !! idx with
          | None => Ret (pool, nack "No lease found")
          | Some lease =>
              if negb (ClientIdentifier_equals (Lease_ID lease) clientID) then
                Ret (pool, nack "Requested IP address is leased by different client")
              else
                let lease :=
                  {| Address := Address lease;
                     Lease_ID := Lease_ID lease;
                     State := LeaseInUse;
                     Expires := Time_Add now (Lifetime pool) |} in
                let pool := Pool_with_Leases pool (<[idx := lease]> (Leases pool)) in
                (* build ack *)
                Ret (pool, sender ++ [lease_reply pool msg serverIP DHCPAck lease])
          end
      end.

Definition Pool_handleRelease (msg : DirectedDHCPMessage)
    (pool : Pool) (sender : list DirectedDHCPMessage) : Pool * list DirectedDHCPMessage :=
  let clientID := newClientIdentifier (Message msg) in
  let serverIP := Pool_serverIP (Interface msg) in
  if IP_Equal (ServerIP (Header (Message msg))) serverIP then
    (Pool_freeLeases pool clientID, sender)
  else (pool, sender).

(** What the [select] of [Pool.Run] can receive: a tick of the 10-second
    ticker, or a message from the inbox; [now] and [rnd] are the clock
    reading and the random draw available while it is handled. *)
Inductive PoolEvent : Type :=
| Tick (now : Time)
| Recv (msg : DirectedDHCPMessage) (now : Time) (rnd : nat).

Definition Pool_Run_step (ev : PoolEvent) (pool : Pool) (sender : list DirectedDHCPMessage)
  : go (Pool * list DirectedDHCPMessage) :=
  match ev with
  | Tick now => Ret (Pool_expireOld now pool, sender)
  | Recv msg now rnd =>
      t ← DHCPMessage_Type (Message msg);
      match basicValidation msg t with
      | Some err => Ret (pool, sender)
      | None =>
          if bool_decide (t = DHCPDiscover) then Pool_handleDiscover rnd msg pool sender
          else if bool_decide (t = DHCPRequest) then Pool_handleRequest now msg pool sender
          else if bool_decide (t = DHCPDecline) then Ret (pool, sender)
          else if bool_decide (t = DHCPRelease) then Ret (Pool_handleRelease msg pool sender)
          else if bool_decide (t = DHCPInform) then Ret (pool, sender)
          else Ret (pool, sender)
      end
  end.

(** [Pool.Run] over a sequence of events. *)
Fixpoint Pool_Run (evs : list PoolEvent) (pool : Pool) (sender : list DirectedDHCPMessage)
  : go (Pool * list DirectedDHCPMessage) :=
  match evs with
  | [] => Ret (pool, sender)
  | ev :: rest =>
      r ← Pool_Run_step ev pool sender;
      match r with
      | (pool, sender) => Pool_Run rest pool sender
      end
  end.

(** The lease at index [i], while in state Reserved, has the zero expiry. *)
Definition Reserved_unset_at (i : Z) (pool : Pool) : Prop :=
  ∀ lease, Leases pool !! i = Some lease → State lease = LeaseReserved →
           Expires lease = zeroTime.

(** ** Predicates used in the statements *)

(** An IPv4 address in the form [net.IPv4] builds and the decoder yields. *)
Definition is_IPv4 (ip : IP) : Prop :=
  length ip = 16%nat ∧ take 12 ip = v4InV6Prefix ∧ Forall is_byte (drop 12 ip).

(** A duration that is a whole number of seconds below [bound]. *)
Definition whole_seconds (bound : Z) (d : Duration) : Prop :=
  0 ≤ d ∧ d `mod` Second = 0 ∧ d `div` Second < bound.

(** NUL occurs in [s] only as trailing padding. *)
Definition NUL_padded (s : list Z) : Prop :=
  Forall (λ b, b = 0) (drop (length (cstringToGo s)) s).

(** [s] is [s'] followed by NUL padding. *)
Definition eq_up_to_NUL_padding (s s' : list Z) : Prop :=
  ∃ k, s = s' ++ zeros k.

(** An option value the wire format can carry under [code]: the variant
    is the one the code table assigns, the elements fit their width and
    the payload fits the one-byte length. *)
Definition wf_option (code : DHCPOptionCode) (opt : DHCPOption) : Prop :=
  match opt with
  | IPDHCPOption Value =>
      option_kind code = Some KindIP ∧ Forall is_IPv4 Value ∧ (length Value * 4 ≤ 255)%nat
  | Uint8DHCPOption Value =>
      option_kind code = Some KindUint8 ∧ Forall is_byte Value ∧ (length Value ≤ 255)%nat
  | Uint16DHCPOption Value =>
      option_kind code = Some KindUint16 ∧ Forall is_uint16 Value ∧ (length Value * 2 ≤ 255)%nat
  | StringDHCPOption Value =>
      option_kind code = Some KindString ∧ Forall is_byte Value ∧ (length Value ≤ 255)%nat
  | DurationDHCPOption Value =>
      option_kind code = Some KindDuration ∧ whole_seconds (2 ^ 32) Value
  end.

Definition wf_header (h : BootpHeader) : Prop :=
  (Operation h = BootRequest ∨ Operation h = BootReply)
  ∧ is_byte (HwAddrType h) ∧ is_byte (Hops h)
  ∧ is_uint32 (TransactionID h)
  ∧ whole_seconds (2 ^ 16) (Seconds h)
  ∧ is_uint16 (Flags h)
  ∧ is_IPv4 (ClientIP h) ∧ is_IPv4 (YourIP h) ∧ is_IPv4 (ServerIP h) ∧ is_IPv4 (RelayAgentIP h)
  ∧ (1 ≤ length (ClientHwAddr h) ≤ 16)%nat ∧ Forall is_byte (ClientHwAddr h)
  ∧ (length (ServerName h) ≤ 64)%nat ∧ Forall is_byte (ServerName h) ∧ NUL_padded (ServerName h)
  ∧ (length (FileName h) ≤ 128)%nat ∧ Forall is_byte (FileName h) ∧ NUL_padded (FileName h).

Definition wf_message (m : DHCPMessage) : Prop :=
  wf_header (Header m) ∧ map_Forall wf_option (Options m).

(** Equality of messages up to the NUL padding of [sname] and [file];
    the option maps are compared as maps. *)
Definition eq_up_to_padding (m m' : DHCPMessage) : Prop :=
  let h := Header m in
  let h' := Header m' in
  Operation h' = Operation h ∧ HwAddrType h' = HwAddrType h ∧ Hops h' = Hops h
  ∧ TransactionID h' = TransactionID h ∧ Seconds h' = Seconds h ∧ Flags h' = Flags h
  ∧ ClientIP h' = ClientIP h ∧ YourIP h' = YourIP h ∧ ServerIP h' = ServerIP h
  ∧ RelayAgentIP h' = RelayAgentIP h ∧ ClientHwAddr h' = ClientHwAddr h
  ∧ eq_up_to_NUL_padding (ServerName h) (ServerName h')
  ∧ eq_up_to_NUL_padding (FileName h) (FileName h')
  ∧ Options m' = Options m.

(** The address a REQUEST asks for: option 50 when present, otherwise a
    nonzero [ciaddr]. *)
Inductive requested_address (msg : DHCPMessage) : IP → Prop :=
| requested_by_option ip :
    DHCPMessage_RequestedIP msg = Ret ip → ip ≠ [] → requested_address msg ip
| requested_by_ciaddr :
    DHCPMessage_RequestedIP msg = Ret [] →
    IP_Equal (ClientIP (Header msg)) IPv4zero = false →
    requested_address msg (ClientIP (Header msg)).

(** The codes whose value is a list of IPv4 addresses. *)
Definition IPv4List_codes : list DHCPOptionCode := [1; 3; 4; 5; 6; 33; 42; 50; 54].

(** Ownership as the pool tests it. *)
Definition owned_by (id : ClientIdentifier) (lease : Lease) : Prop :=
  ClientIdentifier_equals (Lease_ID lease) id = true.

(** ** Auxiliary definitions of the codec proofs *)

(** The four address bytes of each element, in sequence. *)
Fixpoint IP_payload (ips : list IP) : list Z :=
  match ips with
  | [] => []
  | ip :: rest => drop 12 ip ++ IP_payload rest
  end.

(** [output[code] = option] for one decoded entry. *)
Definition insert_entry (m : DHCPOptions) (e : DHCPOptionCode * DHCPOption) : DHCPOptions :=
  <[e.1 := e.2]> m.

(** The bytes before the first NUL. *)
Fixpoint cprefix (bytes : list Z) : list Z :=
  match bytes with
  | [] => []
  | b :: rest => if bool_decide (b = 0) then [] else b :: cprefix rest
  end.

(** A raw header whose arrays have their declared sizes and whose wide
    fields fit their width. *)
Definition sized_raw (raw : rawBootpHeader) : Prop :=
  is_uint32 (raw_TransactionID raw) ∧ is_uint16 (raw_Seconds raw) ∧ is_uint16 (raw_Flags raw)
  ∧ length (raw_ClientIP raw) = 4%nat ∧ length (raw_YourIP raw) = 4%nat
  ∧ length (raw_ServerIP raw) = 4%nat ∧ length (raw_RelayAgentIP raw) = 4%nat
  ∧ length (raw_ClientHwAddr raw) = 16%nat ∧ length (raw_ServerName raw) = 64%nat
  ∧ length (raw_FileName raw) = 128%nat.

(** The header with [sname] and [file] cut at their first NUL. *)
Definition strip_names (h : BootpHeader) : BootpHeader :=
  mkBootpHeader (Operation h) (HwAddrType h) (Hops h) (TransactionID h) (Seconds h) (Flags h)
    (ClientIP h) (YourIP h) (ServerIP h) (RelayAgentIP h) (ClientHwAddr h)
    (cstringToGo (ServerName h)) (cstringToGo (FileName h)).

(** ** The reference scenario: pool 192.168.99.0/24, start 2, end 99,
    lifetime 24h, server address 192.168.99.1 *)

Definition scenario_pool : Pool :=
  mkPool ∅ (mkIPNet [192; 168; 99; 0] [255; 255; 255; 0]) 2 99 (86400 * Second) Sequential.

Definition scenario_iface : net_Interface := mkInterface 3 [[192; 168; 99; 1]].

Definition scenario_header (mac : list Z) : BootpHeader :=
  mkBootpHeader BootRequest BootpEthernet 0 0xdeadbeef 0 0
    IPv4zero IPv4zero IPv4zero IPv4zero mac [] [].

Definition scenario_M : list Z := [1; 2; 3; 4; 5; 6].

Definition scenario_message (mac : list Z) (options : DHCPOptions) : DirectedDHCPMessage :=
  mkDirected (mkDHCPMessage (scenario_header mac) options) (Some scenario_iface) None.

Definition scenario_discover (mac : list Z) : DirectedDHCPMessage :=
  scenario_message mac {[DHCPMessageTypeOptionCode := Uint8DHCPOption [DHCPDiscover]]}.

(** A pool in which every index but 99 is taken by some other client. *)
Definition other_lease (i : Z) : Z * Lease :=
  (i, mkLease (Pool_addressFromIndex scenario_pool i) LeaseReserved
        (mkClientIdentifier [] [2; 0; 0; 0; 0; i]) zeroTime).

Definition nearly_full_pool : Pool :=
  Pool_with_Leases scenario_pool (list_to_map (other_lease <$> seqZ 2 97)).

(** The reference pool after client M was offered its first lease. *)
Definition pool_with_M : Pool :=
  Pool_with_Leases scenario_pool
    {[2 := mkLease (IPv4 192 168 99 4) LeaseReserved (mkClientIdentifier [] scenario_M) zeroTime]}.

(** A REQUEST naming the address it wants and the server it selected. *)
Definition scenario_request (mac : list Z) (requested server : IP) : DirectedDHCPMessage :=
  scenario_message mac
    (<[ServerIdentifierOptionCode := IPDHCPOption [server]]>
       (<[RequestIPAddressOptionCode := IPDHCPOption [requested]]>
          {[DHCPMessageTypeOptionCode := Uint8DHCPOption [DHCPRequest]]})).

(** A REQUEST with a server identifier, no option 50 and a zero [ciaddr]. *)
Definition request_without_address (mac : list Z) (server : IP) : DirectedDHCPMessage :=
  scenario_message mac
    (<[ServerIdentifierOptionCode := IPDHCPOption [server]]>
       {[DHCPMessageTypeOptionCode := Uint8DHCPOption [DHCPRequest]]}).

(** An OFFER as it travels on the wire, with a NUL-padded server name. *)
Definition sample_offer : DHCPMessage :=
  mkDHCPMessage
    (mkBootpHeader BootReply BootpEthernet 0 0xdeadbeef (3 * Second) BootpBroadcast
       IPv4zero (IPv4 192 168 99 4) (IPv4 192 168 99 1) IPv4zero scenario_M
       (bytes_of_string "gw" ++ [0; 0]) [])
    (<[DHCPMessageTypeOptionCode := Uint8DHCPOption [DHCPOffer]]>
       (<[SubnetMaskOptionCode := IPDHCPOption [IPv4 255 255 255 0]]>
          (<[IPAddressLeaseTimeOptionCode := DurationDHCPOption (86400 * Second)]>
             (<[HostNameOptionCode := StringDHCPOption (bytes_of_string "host")]>
                (<[MaximumDHCPMessageSizeOptionCode := Uint16DHCPOption [576]]> ∅))))).

(** A message text one byte too long for the length octet. *)
Definition big_option : DHCPOption := StringDHCPOption (replicate 256 65).

(** ** The sender *)

(** [int32(x)] for an [int]. *)
Definition int32 (z : Z) : Z := (z + 2 ^ 31) `mod` 2 ^ 32 - 2 ^ 31.

(** What the sender has handed to [WriteUDPWithInterface], as payload and
    egress interface index (the destination is always
    255.255.255.255:68), and the lines it has printed. *)
Record SenderState : Type := mkSender {
  written : list (list Z * Z);
  sender_printed : list string
}.

(** One pass through the body of [for msg := range channel] in
    [UDPSender]; [order] is the order in which the options map is ranged
    over and [write_err] the error the socket write returns. *)
Definition UDPSender_iteration (order : list (DHCPOptionCode * DHCPOption)) (write_err : error)
    (msg : DirectedDHCPMessage) (st : SenderState) : go SenderState :=
  r ← MarshallDHCPMessage order (Message msg);
  match r with
  | (_, Some err) =>
      Ret (mkSender (written st)
             (sender_printed st ++ ["Unable to create DHCP message: " +:+ err]))
  | (bytes, None) =>
      match Interface msg with
      | None => Panic "nil pointer dereference"
      | Some iface =>
          let written' := written st ++ [(bytes, int32 (Index iface))] in
          match write_err with
          | Some err =>
              Ret (mkSender written'
                     (sender_printed st ++ ["Unable to send DHCP message: " +:+ err]))
          | None => Ret (mkSender written' (sender_printed st))
          end
      end
  end.

(** ** Predicates of the further properties *)

(** The four bytes of the magic cookie. *)
Definition cookie_bytes : list Z := [0x63; 0x82; 0x53; 0x63].

(** A raw header as [binary.Read] fills it from bytes. *)
Definition raw_of_bytes (raw : rawBootpHeader) : Prop :=
  is_byte (raw_Op raw) ∧ is_byte (raw_HwAddrType raw) ∧ is_byte (raw_HwAddrLength raw)
  ∧ is_byte (raw_Hops raw)
  ∧ is_uint32 (raw_TransactionID raw) ∧ is_uint16 (raw_Seconds raw) ∧ is_uint16 (raw_Flags raw)
  ∧ Forall is_byte (raw_ClientIP raw) ∧ Forall is_byte (raw_YourIP raw)
  ∧ Forall is_byte (raw_ServerIP raw) ∧ Forall is_byte (raw_RelayAgentIP raw)
  ∧ Forall is_byte (raw_ClientHwAddr raw) ∧ length (raw_ClientHwAddr raw) = 16%nat
  ∧ Forall is_byte (raw_ServerName raw) ∧ length (raw_ServerName raw) = 64%nat
  ∧ Forall is_byte (raw_FileName raw) ∧ length (raw_FileName raw) = 128%nat.

(** The four bytes [addressFromIndex] cuts a 32-bit value into. *)
Definition uint32_octets (m : Z) : list Z :=
  [uint8 (Z.land (m ≫ 24) 0xFF); uint8 (Z.land (m ≫ 16) 0xFF);
   uint8 (Z.land (m ≫ 8) 0xFF); uint8 (Z.land m 0xFF)].

(** What the lease table of a pool satisfies at all times: keys within
    [[Start, End]], every lease holding the address computed from its
    key and an owner identified by hardware address only, and no two
    keys leased to the same hardware address. *)
Definition Pool_inv (pool : Pool) : Prop :=
  (∀ k l, Leases pool !! k = Some l →
          Start pool ≤ k ≤ End_ pool
          ∧ Address l = Pool_addressFromIndex pool k
          ∧ ID (Lease_ID l) = [])
  ∧ (∀ k1 k2 l1 l2, Leases pool !! k1 = Some l1 → Leases pool !! k2 = Some l2 →
                    Mac (Lease_ID l1) = Mac (Lease_ID l2) → k1 = k2).

(** The configured part of a pool. *)
Definition same_config (pool pool' : Pool) : Prop :=
  Network pool' = Network pool ∧ Start pool' = Start pool ∧ End_ pool' = End_ pool
  ∧ Lifetime pool' = Lifetime pool ∧ Algorithm pool' = Algorithm pool.

(** A pool whose network address is made of bytes, whose range fits 32
    bits, and in which no [k + Start], for [k] in the range, has a bit in
    common with the network address. *)
Definition addressable (pool : Pool) : Prop :=
  Forall is_byte (Net_IP (Network pool))
  ∧ 0 ≤ Start pool ∧ End_ pool < 2 ^ 32
  ∧ ∀ k, Start pool ≤ k ≤ End_ pool →
         Z.land (uint32 (k + Start pool)) (be_uint32 (Net_IP (Network pool))) = 0.

(** What every message the pool sends has in common: a BOOTREPLY to the
    request's transaction and hardware address, broadcast, from this
    server, out of the interface the request came in on, with the server
    identifier and one of the types OFFER, ACK, NAK. *)
Definition reply_to (msg reply : DirectedDHCPMessage) : Prop :=
  let serverIP := Pool_serverIP (Interface msg) in
  let h := Header (Message reply) in
  Operation h = BootReply
  ∧ TransactionID h = TransactionID (Header (Message msg))
  ∧ ClientHwAddr h = ClientHwAddr (Header (Message msg))
  ∧ HwAddrType h = HwAddrType (Header (Message msg))
  ∧ Flags h = BootpBroadcast
  ∧ ServerIP h = serverIP
  ∧ Interface reply = Interface msg
  ∧ Remote reply = Remote msg
  ∧ Options (Message reply) !! ServerIdentifierOptionCode = Some (IPDHCPOption [serverIP])
  ∧ ∃ t, (t = DHCPOffer ∨ t = DHCPAck ∨ t = DHCPNak)
         ∧ Options (Message reply) !! DHCPMessageTypeOptionCode = Some (Uint8DHCPOption [t]).

(** The reads that precede the first read error. *)
Fixpoint reads_before_error (reads : list ReadResult) : list ReadResult :=
  match reads with
  | ReadOk buffer addr Ifindex :: rest => ReadOk buffer addr Ifindex :: reads_before_error rest
  | _ => []
  end.

(** The message the receiver forwards for one successful read. *)
Definition forwarded (InterfaceByIndex : Z → option net_Interface)
    (read : ReadResult) (d : DirectedDHCPMessage) : Prop :=
  ∃ buffer addr Ifindex dhcp err,
    read = ReadOk buffer addr Ifindex
    ∧ UnmarshallDHCPMessage buffer = Ret (dhcp, err)
    ∧ d = mkDirected dhcp (InterfaceByIndex Ifindex) addr.

(** ** Further data of the reference scenario *)

(** Whether a value is a byte is decidable. *)
#[global] Instance is_byte_dec (b : Z) : Decision (is_byte b).
Proof. unfold is_byte. apply _. Defined.

(** The bytes [sample_offer] is marshalled to. *)
Definition sample_datagram : list Z := Eval vm_compute in
    match MarshallDHCPMessage (map_to_list (Options sample_offer)) sample_offer with
    | Ret (bytes, _) => bytes
    | _ => []
    end.

(** What [sample_datagram] decodes to. *)
Definition sample_decoded : DHCPMessage := Eval vm_compute in
    match UnmarshallDHCPMessage sample_datagram with
    | Ret (m, _) => m
    | _ => zeroDHCPMessage
    end.

(** A second client. *)
Definition scenario_M2 : list Z := [6; 5; 4; 3; 2; 1].

(** The reference pool with every index leased to some other client. *)
Definition full_pool : Pool :=
  Pool_with_Leases scenario_pool (list_to_map (other_lease <$> seqZ 2 98)).

(** * Properties *)

(** ** The message-type accessor *)

(** With option 53 present and holding at least one byte, [Type] maps
    1..8 to the message type and everything else to [DHCPUnknown]. *)
Lemma Type_present (msg : DHCPMessage) (t : Z) (rest : list Z) :
  is_byte t →
  Options msg !! DHCPMessageTypeOptionCode = Some (Uint8DHCPOption (t :: rest)) →
  DHCPMessage_Type msg = Ret (if bool_decide (1 ≤ t ≤ 8) then t else DHCPUnknown).
Proof.
  intros Ht Hopt. unfold DHCPMessage_Type. rewrite Hopt. simpl.
  change (uint8 DHCPInform) with 8. unfold DHCPUnknown, is_byte in *.
  repeat case_bool_decide; simpl; try reflexivity; f_equal; lia.
Qed.

(** C3 (as the code behaves): when option 53 is absent, [Type] calls
    [Data] on the nil interface the lookup returned before it tests
    [found], and panics instead of returning [DHCPUnknown]. *)
Theorem Type_absent_panics (msg : DHCPMessage) :
  Options msg !! DHCPMessageTypeOptionCode = None →
  DHCPMessage_Type msg = Panic "nil pointer dereference".
Proof.
  intros Hopt. unfold DHCPMessage_Type. rewrite Hopt. reflexivity.
Qed.

Lemma Type_absent_panics_witness :
  DHCPMessage_Type (mkDHCPMessage (scenario_header scenario_M) ∅)
  = Panic "nil pointer dereference".
Proof.
  apply (Type_absent_panics (mkDHCPMessage (scenario_header scenario_M) ∅)).
  reflexivity.
Defined.

(** ** Address arithmetic of the pool *)

(** C2 (as the code behaves): [addressFromIndex] adds [Start] to an index
    that [freeIndices] already took from [[Start, End]].  In the
    reference pool the first DISCOVER stores, at key 2, the address
    192.168.99.4 and not 192.168.99.2; with only key 99 free the lease
    stored there is 192.168.99.101, beyond 192.168.99.99. *)
Theorem handleDiscover_address_offset_twice :
  (∃ pool' out lease,
      Pool_handleDiscover 0 (scenario_discover scenario_M) scenario_pool [] = Ret (pool', out)
      ∧ Leases pool' !! 2 = Some lease
      ∧ Address lease = IPv4 192 168 99 4)
  ∧ (∃ pool' out lease,
      Pool_handleDiscover 0 (scenario_discover scenario_M) nearly_full_pool [] = Ret (pool', out)
      ∧ Leases pool' !! 99 = Some lease
      ∧ Address lease = IPv4 192 168 99 101).
Proof.
  split; vm_compute; eexists _, _, _; (split; [reflexivity|]); split; reflexivity.
Qed.

(** C4 (as the code behaves): [indexFromAddress] fails for no address
    that has an IPv4 form, whatever its network and host part: the index
    is returned with a nil error. *)
Theorem indexFromAddress_never_rejects (pool : Pool) (ip : IP) (ip4 : list Z) :
  To4 ip = Some ip4 →
  Pool_indexFromAddress pool ip
  = (uint32 (Z.land (be_uint32 ip4) (uint32_not (be_uint32 (Net_IP (Network pool))))
             - Start pool), None).
Proof. intros H. unfold Pool_indexFromAddress. rewrite H. reflexivity. Qed.

(** In the reference pool: an address of another network (10.0.0.200)
    and an address below [Start] (192.168.99.1), where the subtraction
    wraps. *)
Lemma indexFromAddress_never_rejects_witness :
  Pool_indexFromAddress scenario_pool (IPv4 10 0 0 200) = (167772358, None)
  ∧ Pool_indexFromAddress scenario_pool (IPv4 192 168 99 1) = (2 ^ 32 - 1, None).
Proof.
  split.
  - rewrite (indexFromAddress_never_rejects scenario_pool (IPv4 10 0 0 200) [10; 0; 0; 200])
      by reflexivity.
    vm_compute. reflexivity.
  - rewrite (indexFromAddress_never_rejects scenario_pool (IPv4 192 168 99 1) [192; 168; 99; 1])
      by reflexivity.
    vm_compute. reflexivity.
Defined.

(** ** The receiver loop *)

(** C5 (as the code behaves): when the datagram fails to decode, the
    failure is printed and then, there being no [continue], a
    [DirectedDHCPMessage] holding whatever [UnmarshallDHCPMessage]
    returned is still sent on the channel. *)
Theorem UDPReceiver_forwards_undecodable
    (InterfaceByIndex : Z → option net_Interface) (buffer : list Z)
    (addr : option UDPAddr) (Ifindex : Z) (st : ReceiverState)
    (dhcp : DHCPMessage) (err : string) :
  UnmarshallDHCPMessage buffer = Ret (dhcp, Some err) →
  UDPReceiver_iteration InterfaceByIndex (ReadOk buffer addr Ifindex) st
  = Ret (mkReceiver
           (channel st ++ [mkDirected dhcp (InterfaceByIndex Ifindex) addr])
           (printed st ++ ["Unable to parse DHCP message: " +:+ err])
           (closed st),
         true).
Proof. intros H. unfold UDPReceiver_iteration. rewrite H. reflexivity. Qed.

(** A datagram of 576 zero bytes has no magic cookie and is forwarded as
    the zero message. *)
Lemma UDPReceiver_forwards_undecodable_witness :
  UDPReceiver_iteration (λ _, Some scenario_iface) (ReadOk (zeros 576) None 3)
    (mkReceiver [] [] false)
  = Ret (mkReceiver [mkDirected zeroDHCPMessage (Some scenario_iface) None]
           ["Unable to parse DHCP message: Invalid DHCP cookie value"] false,
         true).
Proof.
  apply (UDPReceiver_forwards_undecodable (λ _, Some scenario_iface) (zeros 576) None 3
           (mkReceiver [] [] false) zeroDHCPMessage "Invalid DHCP cookie value").
  vm_compute. reflexivity.
Defined.

(** ** Marshalling errors *)

(** C8 (as the code behaves): whenever [Encode] returns an error,
    [MarshallDHCPMessage] returns a nil slice together with a nil error. *)
Theorem Marshall_swallows_encode_error
    (order : list (DHCPOptionCode * DHCPOption)) (msg : DHCPMessage)
    (opt : list Z) (err : string) :
  Encode_loop order [] = Ret (opt, Some err) →
  MarshallDHCPMessage order msg = Ret ([], None).
Proof. intros H. unfold MarshallDHCPMessage. rewrite H. reflexivity. Qed.

(** An option of 256 bytes makes [Encode] fail. *)
Lemma Marshall_swallows_encode_error_witness :
  Encode_loop [(MessageOptionCode, big_option)] []
  = Ret ([], Some "Option taking more than 255 bytes detected")
  ∧ MarshallDHCPMessage [(MessageOptionCode, big_option)]
      (mkDHCPMessage (scenario_header scenario_M) {[MessageOptionCode := big_option]})
    = Ret ([], None).
Proof.
  split; [vm_compute; reflexivity|].
  apply (Marshall_swallows_encode_error [(MessageOptionCode, big_option)]
           (mkDHCPMessage (scenario_header scenario_M) {[MessageOptionCode := big_option]})
           [] "Option taking more than 255 bytes detected").
  vm_compute. reflexivity.
Defined.

(** ** Lengths the option decoder checks *)

Lemma copy_zeros (data : list Z) : copy (zeros (length data)) data = data.
Proof.
  unfold copy, zeros. rewrite length_replicate, firstn_all.
  rewrite drop_ge by (rewrite length_replicate; lia). apply app_nil_r.
Qed.

Lemma option_kind_IPv4List (code : DHCPOptionCode) :
  code ∈ IPv4List_codes → option_kind code = Some KindIP.
Proof.
  intros H. unfold IPv4List_codes in H.
  repeat (apply elem_of_cons in H as [->|H]; [reflexivity|]).
  by apply elem_of_nil in H.
Qed.

(** C9 (amended): for the codes of IPv4 lists the decoder rejects every
    payload whose length is not a multiple of 4 and accepts every payload
    whose length is a positive multiple of 4; for the message-type option
    53 there is no length check, every non-empty payload is accepted
    verbatim. *)
Theorem decodeOption_length_check (code : DHCPOptionCode) (data : list Z) :
  code ∈ IPv4List_codes →
  ((length data `mod` 4 ≠ 0)%nat →
     decodeOption code data = (None, Some "Unable to parse option"))
  ∧ ((0 < length data)%nat → (length data `mod` 4 = 0)%nat →
     decodeOption code data
     = (Some (IPDHCPOption (IP_Decode_loop (length data / 4) 0 data)), None))
  ∧ ((0 < length data)%nat →
     decodeOption DHCPMessageTypeOptionCode data = (Some (Uint8DHCPOption data), None)).
Proof.
  intros Hcode. apply option_kind_IPv4List in Hcode.
  unfold decodeOption. rewrite Hcode. simpl.
  repeat split.
  - intros H. by rewrite bool_decide_eq_true_2.
  - intros _ H. rewrite bool_decide_eq_false_2; [done | lia].
  - intros _. change (option_kind DHCPMessageTypeOptionCode) with (Some KindUint8). simpl.
    by rewrite copy_zeros.
Qed.

Lemma decodeOption_length_check_witness :
  decodeOption RequestIPAddressOptionCode [10; 0; 0] = (None, Some "Unable to parse option")
  ∧ decodeOption DHCPMessageTypeOptionCode [10; 0; 0] = (Some (Uint8DHCPOption [10; 0; 0]), None).
Proof.
  split.
  - apply (decodeOption_length_check RequestIPAddressOptionCode [10; 0; 0]).
    + vm_compute. set_solver.
    + simpl. lia.
  - apply (decodeOption_length_check RequestIPAddressOptionCode [10; 0; 0]).
    + vm_compute. set_solver.
    + simpl. lia.
Defined.

(** C9 as stated fails: a 2-byte payload of option 53 and an empty
    payload of option 50 are both accepted. *)
Lemma decodeOption_accepts_unchecked_lengths :
  ¬ ((length [1; 2] ≠ 1)%nat → (decodeOption DHCPMessageTypeOptionCode [1; 2]).2 ≠ None)
  ∧ ¬ (¬ (0 < length (@nil Z) ∧ length (@nil Z) `mod` 4 = 0)%nat →
       (decodeOption RequestIPAddressOptionCode []).2 ≠ None).
Proof.
  split; intros H; apply H; simpl; try lia; reflexivity.
Qed.

(** ** Deleting leases while ranging over the map *)

Lemma delete_where_None P entries (m : gmap Z Lease) j :
  m !! j = None → delete_where P entries m !! j = None.
Proof.
  unfold delete_where. revert m. induction entries as [|e l IH]; intros m Hm; simpl; [done|].
  apply IH. destruct (P e.2); [|done].
  destruct (decide (e.1 = j)) as [->|]; [apply lookup_delete_eq | by rewrite lookup_delete_ne].
Qed.

Lemma delete_where_hit P entries (m : gmap Z Lease) j v :
  (j, v) ∈ entries → P v = true → delete_where P entries m !! j = None.
Proof.
  unfold delete_where. revert m. induction entries as [|e l IH]; intros m Hin HP; simpl.
  - by apply elem_of_nil in Hin.
  - apply elem_of_cons in Hin as [<-|Hin]; [|by apply IH].
    simpl. rewrite HP. apply delete_where_None, lookup_delete_eq.
Qed.

Lemma delete_where_miss P entries (m : gmap Z Lease) j :
  (∀ v, (j, v) ∈ entries → P v = false) → delete_where P entries m !! j = m !! j.
Proof.
  unfold delete_where. revert m. induction entries as [|e l IH]; intros m Hall; simpl; [done|].
  rewrite IH by (intros v Hv; apply Hall; by right).
  destruct (P e.2) eqn:HP; [|done].
  destruct e as [i v]; simpl in *.
  destruct (decide (i = j)) as [->|]; [|by rewrite lookup_delete_ne].
  rewrite (Hall v) in HP; [done | by left].
Qed.

Lemma delete_where_map P (m : gmap Z Lease) j :
  delete_where P (map_to_list m) m !! j
  = match m !! j with
    | Some v => if P v then None else Some v
    | None => None
    end.
Proof.
  destruct (m !! j) as [v|] eqn:Hj.
  - destruct (P v) eqn:HP.
    + eapply delete_where_hit; [|done]. by apply elem_of_map_to_list.
    + rewrite delete_where_miss; [done|].
      intros v' Hv'. apply elem_of_map_to_list in Hv'. congruence.
  - by apply delete_where_None.
Qed.

(** ** REQUEST handling *)

(** What the branches of [handleRequest] have in common once the
    requested address is known. *)
Lemma handleRequest_requested now msg pool sender selectedServer requestedIP :
  DHCPMessage_ServerIdentifier (Message msg) = Ret selectedServer →
  requested_address (Message msg) requestedIP →
  Pool_handleRequest now msg pool sender
  = let clientID := newClientIdentifier (Message msg) in
    let serverIP := Pool_serverIP (Interface msg) in
    if bool_decide (selectedServer ≠ []) && negb (IP_Equal serverIP selectedServer) then
      Ret (Pool_freeLeases pool clientID, sender)
    else
      let nack reason :=
        if bool_decide (selectedServer ≠ []) then Pool_sendNack msg sender serverIP reason
        else sender in
      match Pool_indexFromAddress pool requestedIP with
      | (_, Some err) => Ret (pool, nack "Invalid address")
      | (idx, None) =>
          match Leases pool !! idx with
          | None => Ret (pool, nack "No lease found")
          | Some lease =>
              if negb (ClientIdentifier_equals (Lease_ID lease) clientID) then
                Ret (pool, nack "Requested IP address is leased by different client")
              else
                let lease :=
                  {| Address := Address lease;
                     Lease_ID := Lease_ID lease;
                     State := LeaseInUse;
                     Expires := Time_Add now (Lifetime pool) |} in
                let pool := Pool_with_Leases pool (<[idx := lease]> (Leases pool)) in
                Ret (pool, sender ++ [lease_reply pool msg serverIP DHCPAck lease])
          end
      end.
Proof.
  intros Hsel Hreq. unfold Pool_handleRequest. rewrite Hsel. simpl.
  destruct Hreq as [ip Hip Hne | Hip Hzero]; rewrite Hip; simpl.
  - rewrite (bool_decide_eq_false_2 (ip = [])) by done. reflexivity.
  - rewrite Hzero. reflexivity.
Qed.

(** C6: a REQUEST whose requested address resolves to a lease owned by
    the requesting client, with the server identifier absent or equal to
    the server's address, keeps the lease's address, puts it in state
    InUse with expiry [now + Lifetime], leaves every other lease alone
    and sends exactly one reply, an ACK whose [yiaddr] is the lease's
    address. *)
Theorem handleRequest_renews (now : Time) (msg : DirectedDHCPMessage) (pool : Pool)
    (sender : list DirectedDHCPMessage) (selectedServer requestedIP : IP) (idx : Z)
    (lease : Lease) :
  DHCPMessage_ServerIdentifier (Message msg) = Ret selectedServer →
  selectedServer = [] ∨ IP_Equal (Pool_serverIP (Interface msg)) selectedServer = true →
  requested_address (Message msg) requestedIP →
  Pool_indexFromAddress pool requestedIP = (idx, None) →
  Leases pool !! idx = Some lease →
  owned_by (newClientIdentifier (Message msg)) lease →
  ∃ pool' ack,
    Pool_handleRequest now msg pool sender = Ret (pool', sender ++ [ack])
    ∧ Leases pool' !! idx
      = Some (mkLease (Address lease) LeaseInUse (Lease_ID lease) (now + Lifetime pool))
    ∧ (∀ j, j ≠ idx → Leases pool' !! j = Leases pool !! j)
    ∧ YourIP (Header (Message ack)) = Address lease
    ∧ Options (Message ack) !! DHCPMessageTypeOptionCode = Some (Uint8DHCPOption [DHCPAck]).
Proof.
  intros Hsel Hmatch Hreq Hidx Hlease Hown.
  rewrite (handleRequest_requested _ _ _ _ _ _ Hsel Hreq). simpl.
  assert (bool_decide (selectedServer ≠ [])
          && negb (IP_Equal (Pool_serverIP (Interface msg)) selectedServer) = false) as ->.
  { destruct Hmatch as [-> | ->]; [|by rewrite andb_false_r].
    reflexivity. }
  rewrite Hidx, Hlease. unfold owned_by in Hown. rewrite Hown. simpl.
  eexists _, _. split; [reflexivity|]. simpl.
  split; [apply lookup_insert_eq|].
  split; [intros j Hj; by apply lookup_insert_ne|].
  split; [reflexivity|]. reflexivity.
Qed.

Lemma handleRequest_renews_witness :
  ∃ pool' ack,
    Pool_handleRequest 1000
      (scenario_request scenario_M (IPv4 192 168 99 4) (IPv4 192 168 99 1)) pool_with_M []
    = Ret (pool', [] ++ [ack])
    ∧ Leases pool' !! 2
      = Some (mkLease (IPv4 192 168 99 4) LeaseInUse (mkClientIdentifier [] scenario_M)
                (1000 + 86400 * Second))
    ∧ (∀ j, j ≠ 2 → Leases pool' !! j = Leases pool_with_M !! j)
    ∧ YourIP (Header (Message ack)) = IPv4 192 168 99 4
    ∧ Options (Message ack) !! DHCPMessageTypeOptionCode = Some (Uint8DHCPOption [DHCPAck]).
Proof.
  apply (handleRequest_renews 1000
           (scenario_request scenario_M (IPv4 192 168 99 4) (IPv4 192 168 99 1))
           pool_with_M [] (IPv4 192 168 99 1) (IPv4 192 168 99 4) 2
           (mkLease (IPv4 192 168 99 4) LeaseReserved (mkClientIdentifier [] scenario_M) zeroTime)).
  - vm_compute. reflexivity.
  - right. vm_compute. reflexivity.
  - apply requested_by_option; [vm_compute; reflexivity | discriminate].
  - vm_compute. reflexivity.
  - vm_compute. reflexivity.
  - vm_compute. reflexivity.
Defined.

(** C7 (amended): a REQUEST that names an address (option 50 or a nonzero
    [ciaddr]) and carries a server identifier different from the
    server's address removes exactly the leases owned by the requesting
    client and sends nothing. *)
Theorem handleRequest_other_server (now : Time) (msg : DirectedDHCPMessage) (pool : Pool)
    (sender : list DirectedDHCPMessage) (selectedServer requestedIP : IP) :
  DHCPMessage_ServerIdentifier (Message msg) = Ret selectedServer →
  selectedServer ≠ [] →
  IP_Equal (Pool_serverIP (Interface msg)) selectedServer = false →
  requested_address (Message msg) requestedIP →
  ∃ pool',
    Pool_handleRequest now msg pool sender = Ret (pool', sender)
    ∧ ∀ i, Leases pool' !! i
           = match Leases pool !! i with
             | Some lease =>
                 if ClientIdentifier_equals (Lease_ID lease) (newClientIdentifier (Message msg))
                 then None else Some lease
             | None => None
             end.
Proof.
  intros Hsel Hne Hdiff Hreq.
  rewrite (handleRequest_requested _ _ _ _ _ _ Hsel Hreq). simpl.
  rewrite Hdiff, (bool_decide_eq_true_2 _ Hne). simpl.
  eexists. split; [reflexivity|]. intros i. simpl. apply delete_where_map.
Qed.


Lemma handleRequest_other_server_witness :
  ∃ pool',
    Pool_handleRequest 1000
      (scenario_request scenario_M (IPv4 192 168 99 4) (IPv4 192 168 99 250)) pool_with_M []
    = Ret (pool', [])
    ∧ ∀ i, Leases pool' !! i
           = match Leases pool_with_M !! i with
             | Some lease =>
                 if ClientIdentifier_equals (Lease_ID lease)
                      (newClientIdentifier
                         (Message (scenario_request scenario_M (IPv4 192 168 99 4)
                                     (IPv4 192 168 99 250))))
                 then None else Some lease
             | None => None
             end.
Proof.
  apply (handleRequest_other_server 1000
           (scenario_request scenario_M (IPv4 192 168 99 4) (IPv4 192 168 99 250))
           pool_with_M [] (IPv4 192 168 99 250) (IPv4 192 168 99 4)).
  - vm_compute. reflexivity.
  - discriminate.
  - vm_compute. reflexivity.
  - apply requested_by_option; [vm_compute; reflexivity | discriminate].
Defined.

(** C7 as stated fails: a REQUEST for another server that names no
    address (no option 50, zero [ciaddr]) returns before the server
    identifier is looked at, and the client's lease stays. *)
Lemma handleRequest_without_address_keeps_leases :
  DHCPMessage_ServerIdentifier
    (Message (request_without_address scenario_M (IPv4 192 168 99 250)))
  = Ret (IPv4 192 168 99 250)
  ∧ IP_Equal
      (Pool_serverIP (Interface (request_without_address scenario_M (IPv4 192 168 99 250))))
      (IPv4 192 168 99 250) = false
  ∧ (∃ lease,
        Leases pool_with_M !! 2 = Some lease
        ∧ owned_by
            (newClientIdentifier
               (Message (request_without_address scenario_M (IPv4 192 168 99 250)))) lease)
  ∧ Pool_handleRequest 1000 (request_without_address scenario_M (IPv4 192 168 99 250))
      pool_with_M []
    = Ret (pool_with_M, []).
Proof.
  split; [vm_compute; reflexivity|]. split; [vm_compute; reflexivity|].
  split; [|vm_compute; reflexivity].
  eexists. split; [vm_compute; reflexivity|]. vm_compute. reflexivity.
Qed.

(** ** Reserved leases and the expiry sweep *)

Lemma selectNumber_elem algo (free : list Z) rnd :
  free ≠ [] → ∃ idx, selectNumber algo free rnd = Ret idx ∧ idx ∈ free.
Proof.
  intros Hne. destruct algo; simpl.
  - destruct free as [|x free]; [done|]. exists x. split; [reflexivity | by left].
  - unfold rand_Intn. rewrite bool_decide_eq_false_2 by (by destruct free). simpl.
    assert (rnd `mod` length free < length free)%nat as Hlt
      by (apply Nat.mod_upper_bound; by destruct free).
    apply lookup_lt_is_Some in Hlt as [x Hx]. exists x.
    unfold index_at. rewrite Hx. split; [reflexivity|]. by eapply list_elem_of_lookup_2.
Qed.

Lemma Pool_freeIndices_bounded (pool : Pool) :
  End_ pool < 2 ^ 32 - 1 → Pool_freeIndices pool = Ret (free_in_range pool).
Proof. intros H. unfold Pool_freeIndices. by rewrite bool_decide_eq_true_2. Qed.

Lemma Pool_freeIndices_Ret (pool : Pool) (free : list Z) :
  Pool_freeIndices pool = Ret free → End_ pool < 2 ^ 32 - 1 ∧ free = free_in_range pool.
Proof.
  unfold Pool_freeIndices. case_bool_decide; [|discriminate]. by intros [= <-].
Qed.

Lemma freeIndices_elem pool idx :
  idx ∈ free_in_range pool → Leases pool !! idx = None ∧ Start pool ≤ idx ≤ End_ pool.
Proof.
  unfold free_in_range. rewrite list_elem_of_filter, elem_of_seqZ.
  intros [? ?]. split; [done | lia].
Qed.

Lemma expireOld_lookup now pool i :
  Leases (Pool_expireOld now pool) !! i
  = match Leases pool !! i with
    | Some lease => if Time_Before (Expires lease) now then None else Some lease
    | None => None
    end.
Proof. apply (delete_where_map (λ lease, Time_Before (Expires lease) now)). Qed.

Lemma freeLeases_lookup pool id i :
  Leases (Pool_freeLeases pool id) !! i
  = match Leases pool !! i with
    | Some lease => if ClientIdentifier_equals (Lease_ID lease) id then None else Some lease
    | None => None
    end.
Proof. apply (delete_where_map (λ lease, ClientIdentifier_equals (Lease_ID lease) id)). Qed.

Lemma handleDiscover_new rnd msg pool sender :
  Pool_findClientLease pool (newClientIdentifier (Message msg)) = None →
  End_ pool < 2 ^ 32 - 1 →
  free_in_range pool ≠ [] →
  ∃ idx,
    idx ∈ free_in_range pool
    ∧ let lease := mkLease (Pool_addressFromIndex pool idx) LeaseReserved
                     (newClientIdentifier (Message msg)) zeroTime in
      let pool' := Pool_with_Leases pool (<[idx := lease]> (Leases pool)) in
      Pool_handleDiscover rnd msg pool sender
      = Ret (pool', sender ++ [lease_reply pool' msg (Pool_serverIP (Interface msg)) DHCPOffer lease]).
Proof.
  intros Hnone Hend Hfree. unfold Pool_handleDiscover. rewrite Hnone.
  rewrite (Pool_freeIndices_bounded pool Hend). cbn [mbind go_bind].
  rewrite bool_decide_eq_false_2 by (by destruct (free_in_range pool)).
  destruct (selectNumber_elem (Algorithm pool) _ rnd Hfree) as (idx & -> & Hin).
  exists idx. split; [done|]. reflexivity.
Qed.

Lemma Reserved_unset_expireOld i now pool :
  Reserved_unset_at i pool → Reserved_unset_at i (Pool_expireOld now pool).
Proof.
  intros Hinv lease. rewrite expireOld_lookup.
  destruct (Leases pool !! i) as [l|] eqn:Hl; [|done].
  destruct (Time_Before _ _); [done|]. intros [= <-]. by eapply Hinv.
Qed.

Lemma Reserved_unset_freeLeases i pool id :
  Reserved_unset_at i pool → Reserved_unset_at i (Pool_freeLeases pool id).
Proof.
  intros Hinv lease. rewrite freeLeases_lookup.
  destruct (Leases pool !! i) as [l|] eqn:Hl; [|done].
  destruct (ClientIdentifier_equals _ _); [done|]. intros [= <-]. by eapply Hinv.
Qed.

Lemma Reserved_unset_handleDiscover i rnd msg pool sender pool' sender' :
  Reserved_unset_at i pool →
  Pool_handleDiscover rnd msg pool sender = Ret (pool', sender') → Reserved_unset_at i pool'.
Proof.
  intros Hinv. unfold Pool_handleDiscover.
  destruct (Pool_findClientLease _ _); simpl; [by intros [= <- _]|].
  destruct (Pool_freeIndices pool) as [free| |]; simpl; [|done..].
  case_bool_decide; simpl; [by intros [= <- _]|].
  destruct (selectNumber _ _ _) as [idx| |]; simpl; [|done..].
  intros [= <- _] lease. simpl.
  destruct (decide (i = idx)) as [->|Hne].
  - rewrite lookup_insert_eq. by intros [= <-].
  - rewrite lookup_insert_ne by done. apply Hinv.
Qed.

Lemma Reserved_unset_handleRequest i now msg pool sender pool' sender' :
  Reserved_unset_at i pool →
  Pool_handleRequest now msg pool sender = Ret (pool', sender') → Reserved_unset_at i pool'.
Proof.
  intros Hinv. unfold Pool_handleRequest.
  destruct (DHCPMessage_ServerIdentifier _) as [sel| |]; simpl; [|done..].
  destruct (DHCPMessage_RequestedIP _) as [req| |]; simpl; [|done..].
  destruct (_ && _); [by intros [= <- _]|].
  destruct (_ && _); [intros [= <- _]; by apply Reserved_unset_freeLeases|].
  destruct (Pool_indexFromAddress _ _) as [idx [err|]]; [by intros [= <- _]|].
  destruct (Leases pool !! idx) as [l|] eqn:Hl; [|by intros [= <- _]].
  destruct (negb _); [by intros [= <- _]|].
  intros [= <- _] lease. simpl.
  destruct (decide (i = idx)) as [->|Hne].
  - rewrite lookup_insert_eq. by intros [= <-].
  - rewrite lookup_insert_ne by done. apply Hinv.
Qed.

Lemma Reserved_unset_step i ev pool sender pool' sender' :
  Reserved_unset_at i pool →
  Pool_Run_step ev pool sender = Ret (pool', sender') → Reserved_unset_at i pool'.
Proof.
  intros Hinv. destruct ev as [now|msg now rnd]; simpl.
  - intros [= <- _]. by apply Reserved_unset_expireOld.
  - destruct (DHCPMessage_Type _) as [t| |]; simpl; [|done..].
    destruct (basicValidation _ _); [by intros [= <- _]|].
    repeat case_bool_decide; try (by intros [= <- _]).
    + by apply Reserved_unset_handleDiscover.
    + by apply Reserved_unset_handleRequest.
    + unfold Pool_handleRelease. destruct (IP_Equal _ _); intros [= <- _]; [|done].
      by apply Reserved_unset_freeLeases.
Qed.

Lemma Reserved_unset_Run i evs pool sender pool' sender' :
  Reserved_unset_at i pool →
  Pool_Run evs pool sender = Ret (pool', sender') → Reserved_unset_at i pool'.
Proof.
  revert pool sender. induction evs as [|ev evs IH]; intros pool sender Hinv; simpl.
  - by intros [= <- _].
  - destruct (Pool_Run_step ev pool sender) as [[p s]| |] eqn:Hstep; simpl; [|done..].
    apply IH. by eapply Reserved_unset_step.
Qed.

(** A step of the pool leaves a lease in state InUse at an index only if
    the lease was there before the step, or the step handled a REQUEST
    and gave the lease the expiry [now + Lifetime]. *)
Lemma InUse_only_by_Request (i : Z) (ev : PoolEvent) (pool pool' : Pool)
    (sender sender' : list DirectedDHCPMessage) (lease : Lease) :
  Pool_Run_step ev pool sender = Ret (pool', sender') →
  Leases pool' !! i = Some lease →
  State lease = LeaseInUse →
  Leases pool !! i = Some lease
  ∨ ∃ msg now rnd,
      ev = Recv msg now rnd
      ∧ DHCPMessage_Type (Message msg) = Ret DHCPRequest
      ∧ Expires lease = Time_Add now (Lifetime pool).
Proof.
  destruct ev as [now|msg now rnd]; simpl.
  - intros [= <- _]. rewrite expireOld_lookup.
    destruct (Leases pool !! i) as [l|]; [|done].
    destruct (Time_Before _ _); [done|]. by left.
  - destruct (DHCPMessage_Type _) as [t| |] eqn:Ht; simpl; [|done..].
    destruct (basicValidation _ _); [intros [= <- _]; by left|].
    repeat case_bool_decide; try (intros [= <- _]; by left).
    + unfold Pool_handleDiscover.
      destruct (Pool_findClientLease _ _); simpl; [intros [= <- _]; by left|].
      destruct (Pool_freeIndices pool) as [free| |]; simpl; [|done..].
      case_bool_decide; simpl; [intros [= <- _]; by left|].
      destruct (selectNumber _ _ _) as [idx| |]; simpl; [|done..].
      intros [= <- _]. simpl.
      destruct (decide (i = idx)) as [->|Hne].
      * rewrite lookup_insert_eq. by intros [= <-].
      * rewrite lookup_insert_ne by done. by left.
    + subst t. unfold Pool_handleRequest.
      destruct (DHCPMessage_ServerIdentifier _) as [sel| |]; simpl; [|done..].
      destruct (DHCPMessage_RequestedIP _) as [req| |]; simpl; [|done..].
      destruct (_ && _); [intros [= <- _]; by left|].
      destruct (_ && _).
      { intros [= <- _]. rewrite freeLeases_lookup.
        destruct (Leases pool !! i) as [l|]; [|done].
        destruct (ClientIdentifier_equals _ _); [done|]. by left. }
      destruct (Pool_indexFromAddress _ _) as [idx [err|]]; [intros [= <- _]; by left|].
      destruct (Leases pool !! idx) as [l|] eqn:Hl; [|intros [= <- _]; by left].
      destruct (negb _); [intros [= <- _]; by left|].
      intros [= <- _]. simpl.
      destruct (decide (i = idx)) as [->|Hne].
      * rewrite lookup_insert_eq. intros [= <-] _. right. by exists msg, now, rnd.
      * rewrite lookup_insert_ne by done. by left.
    + unfold Pool_handleRelease. destruct (IP_Equal _ _); intros [= <- _]; [|by left].
      rewrite freeLeases_lookup.
      destruct (Leases pool !! i) as [l|]; [|done].
      destruct (ClientIdentifier_equals _ _); [done|]. by left.
Qed.

(** C10: when DISCOVER creates a lease it is stored in state Reserved
    with the zero expiry; a sweep at any time after the zero instant
    deletes it; and whatever the pool handles in between, the sweep
    leaves at that index at most a lease in state InUse, the state only
    an acknowledged REQUEST assigns ([InUse_only_by_Request]).  A lease
    is created where [freeIndices] returns, that is for
    [End < 2^32 - 1], and finds an index free. *)
Theorem reserved_lease_swept (rnd : nat) (msg : DirectedDHCPMessage) (pool : Pool)
    (sender : list DirectedDHCPMessage) :
  Pool_findClientLease pool (newClientIdentifier (Message msg)) = None →
  End_ pool < 2 ^ 32 - 1 →
  free_in_range pool ≠ [] →
  ∃ idx pool' offer,
    Pool_handleDiscover rnd msg pool sender = Ret (pool', sender ++ [offer])
    ∧ Leases pool' !! idx
      = Some (mkLease (Pool_addressFromIndex pool idx) LeaseReserved
                (newClientIdentifier (Message msg)) zeroTime)
    ∧ (∀ now, Time_Before zeroTime now = true →
         Leases (Pool_expireOld now pool') !! idx = None)
    ∧ (∀ evs now pool'' sender'',
         Time_Before zeroTime now = true →
         Pool_Run evs pool' (sender ++ [offer]) = Ret (pool'', sender'') →
         ∀ lease, Leases (Pool_expireOld now pool'') !! idx = Some lease →
                  State lease = LeaseInUse).
Proof.
  intros Hnone Hend Hfree.
  destruct (handleDiscover_new rnd msg pool sender Hnone Hend Hfree) as (idx & Hin & Hrun).
  simpl in Hrun. eexists idx, _, _. split; [exact Hrun|].
  split; [apply lookup_insert_eq|]. split.
  - intros now Hnow. rewrite expireOld_lookup. simpl. rewrite lookup_insert_eq. simpl.
    by rewrite Hnow.
  - intros evs now pool'' sender'' Hnow Hevs lease.
    assert (Reserved_unset_at idx pool'') as Hinv''.
    { eapply Reserved_unset_Run; [|exact Hevs].
      intros l. simpl. rewrite lookup_insert_eq. by intros [= <-]. }
    rewrite expireOld_lookup.
    destruct (Leases pool'' !! idx) as [l|] eqn:Hl; [|done].
    destruct (Time_Before (Expires l) now) eqn:Hb; [done|]. intros [= <-].
    destruct (State l) eqn:Hs; [|done].
    rewrite (Hinv'' _ Hl Hs) in Hb. congruence.
Qed.

Lemma reserved_lease_swept_witness :
  ∃ idx pool' offer,
    Pool_handleDiscover 0 (scenario_discover scenario_M) scenario_pool [] = Ret (pool', [] ++ [offer])
    ∧ Leases pool' !! idx
      = Some (mkLease (Pool_addressFromIndex scenario_pool idx) LeaseReserved
                (newClientIdentifier (Message (scenario_discover scenario_M))) zeroTime)
    ∧ (∀ now, Time_Before zeroTime now = true →
         Leases (Pool_expireOld now pool') !! idx = None)
    ∧ (∀ evs now pool'' sender'',
         Time_Before zeroTime now = true →
         Pool_Run evs pool' ([] ++ [offer]) = Ret (pool'', sender'') →
         ∀ lease, Leases (Pool_expireOld now pool'') !! idx = Some lease →
                  State lease = LeaseInUse).
Proof.
  apply (reserved_lease_swept 0 (scenario_discover scenario_M) scenario_pool []).
  - vm_compute. reflexivity.
  - vm_compute. reflexivity.
  - vm_compute. discriminate.
Defined.

(** ** The wire codec *)

(** *** Big-endian integers *)

Lemma lor_shiftl (lo hi k : Z) :
  0 ≤ k → 0 ≤ lo < 2 ^ k → Z.lor lo (hi ≪ k) = lo + hi * 2 ^ k.
Proof.
  intros Hk Hlo. rewrite Z.shiftl_mul_pow2 by done. symmetry. apply Z.add_nocarry_lor.
  apply Z.bits_inj'. intros n Hn. rewrite Z.land_spec, Z.bits_0.
  destruct (Z.lt_ge_cases n k) as [Hlt|Hge].
  - rewrite Z.mul_pow2_bits_low by done. apply andb_false_r.
  - rewrite <- (Z.mod_small lo (2 ^ k)) by done.
    rewrite Z.mod_pow2_bits_high by lia. reflexivity.
Qed.

Lemma get_uint16_bytes (b0 b1 : Z) :
  is_byte b1 → get_uint16 [b0; b1] = b1 + b0 * 2 ^ 8.
Proof. intros H. unfold get_uint16, is_byte in *. simpl. apply lor_shiftl; lia. Qed.

Lemma get_uint32_bytes (b0 b1 b2 b3 : Z) :
  is_byte b0 → is_byte b1 → is_byte b2 → is_byte b3 →
  get_uint32 [b0; b1; b2; b3] = b3 + b2 * 2 ^ 8 + b1 * 2 ^ 16 + b0 * 2 ^ 24.
Proof.
  unfold get_uint32, is_byte. intros H0 H1 H2 H3. simpl nth.
  rewrite (lor_shiftl b3 b2 8) by lia.
  rewrite (lor_shiftl _ b1 16) by lia.
  rewrite (lor_shiftl _ b0 24) by lia. reflexivity.
Qed.

Lemma uint8_is_byte (z : Z) : is_byte (uint8 z).
Proof. unfold is_byte, uint8. pose proof (Z.mod_pos_bound z (2 ^ 8)). lia. Qed.

Lemma uint8_byte (b : Z) : is_byte b → uint8 b = b.
Proof. unfold is_byte, uint8. intros H. apply Z.mod_small. lia. Qed.

Lemma get_put_uint16 (v : Z) : is_uint16 v → get_uint16 (put_uint16 v) = v.
Proof.
  unfold is_uint16, put_uint16. intros Hv.
  rewrite get_uint16_bytes by apply uint8_is_byte.
  unfold uint8. rewrite Z.shiftr_div_pow2 by lia.
  change (2 ^ 8) with 256 in *. change (2 ^ 16) with 65536 in *.
  Z.to_euclidean_division_equations. lia.
Qed.

Lemma get_put_uint32 (v : Z) : is_uint32 v → get_uint32 (put_uint32 v) = v.
Proof.
  unfold is_uint32, put_uint32. intros Hv.
  rewrite get_uint32_bytes by apply uint8_is_byte.
  unfold uint8. rewrite !Z.shiftr_div_pow2 by lia.
  change (2 ^ 8) with 256 in *. change (2 ^ 16) with 65536 in *.
  change (2 ^ 24) with 16777216 in *. change (2 ^ 32) with 4294967296 in *.
  Z.to_euclidean_division_equations. lia.
Qed.

Lemma whole_seconds_wrap (bound : Z) (d : Duration) :
  0 < bound → whole_seconds bound d → (d `quot` Second) `mod` bound * Second = d.
Proof.
  unfold whole_seconds, Second. intros Hb (H0 & Hmod & Hdiv).
  rewrite Z.quot_div_nonneg by lia.
  rewrite Z.mod_small by (split; [apply Z.div_pos; lia | done]).
  Z.to_euclidean_division_equations. lia.
Qed.

Lemma whole_seconds_range (bound : Z) (d : Duration) :
  whole_seconds bound d → 0 ≤ d `quot` Second < bound.
Proof.
  unfold whole_seconds, Second. intros (H0 & Hmod & Hdiv).
  rewrite Z.quot_div_nonneg by lia. split; [apply Z.div_pos; lia | done].
Qed.

(** *** One option *)

Lemma is_IPv4_inv (ip : IP) :
  is_IPv4 ip → ∃ a b c d, is_byte a ∧ is_byte b ∧ is_byte c ∧ is_byte d ∧ ip = IPv4 a b c d.
Proof.
  intros (Hlen & Hpre & Hbytes).
  rewrite <- (take_drop 12 ip) in Hlen |- *. rewrite Hpre in *.
  destruct (drop 12 ip) as [|a [|b [|c [|d [|e r]]]]]; simpl in Hlen; try lia.
  exists a, b, c, d. repeat (apply Forall_cons in Hbytes as [? Hbytes]). done.
Qed.

Lemma is_IPv4_IPv4 (a b c d : Z) :
  is_byte a → is_byte b → is_byte c → is_byte d → is_IPv4 (IPv4 a b c d).
Proof.
  intros. split; [reflexivity|]. split; [reflexivity|].
  change (drop 12 (IPv4 a b c d)) with [a; b; c; d].
  repeat (apply Forall_cons_2; [done|]). apply Forall_nil_2.
Qed.

Lemma To4_IPv4 (a b c d : Z) : To4 (IPv4 a b c d) = Some [a; b; c; d].
Proof. reflexivity. Qed.

Lemma nth_app_offset (pre l : list Z) (k n : nat) :
  n = (length pre + k)%nat → nth n (pre ++ l) 0 = nth k l 0.
Proof. intros ->. apply app_nth2_plus. Qed.

Lemma IP_payload_length (ips : list IP) :
  Forall is_IPv4 ips → length (IP_payload ips) = (length ips * 4)%nat.
Proof.
  induction 1 as [|ip ips Hip _ IH]; [done|].
  apply is_IPv4_inv in Hip as (a & b & c & d & _ & _ & _ & _ & ->).
  simpl. lia.
Qed.

Lemma IP_Encode_loop_wf (ips : list IP) (buffer : list Z) :
  Forall is_IPv4 ips → IP_Encode_loop ips buffer = Ret (buffer ++ IP_payload ips).
Proof.
  intros H. revert buffer. induction H as [|ip ips Hip _ IH]; intros buffer; simpl.
  - by rewrite app_nil_r.
  - apply is_IPv4_inv in Hip as (a & b & c & d & _ & _ & _ & _ & ->).
    rewrite To4_IPv4, IH. simpl. by rewrite <- app_assoc.
Qed.

Lemma IP_Decode_loop_payload (ips : list IP) (pre : list Z) (i : nat) :
  Forall is_IPv4 ips → length pre = (i * 4)%nat →
  IP_Decode_loop (length ips) i (pre ++ IP_payload ips) = ips.
Proof.
  intros H. revert pre i. induction H as [|ip ips Hip _ IH]; intros pre i Hpre; [done|].
  apply is_IPv4_inv in Hip as (a & b & c & d & _ & _ & _ & _ & ->).
  cbn [length IP_Decode_loop IP_payload]. change (drop 12 (IPv4 a b c d)) with [a; b; c; d].
  rewrite (nth_app_offset pre _ 0) by lia.
  rewrite (nth_app_offset pre _ 1) by lia.
  rewrite (nth_app_offset pre _ 2) by lia.
  rewrite (nth_app_offset pre _ 3) by lia.
  cbn [nth app]. f_equal.
  specialize (IH (pre ++ [a; b; c; d]) (S i)).
  rewrite <- app_assoc in IH. apply IH. rewrite length_app. simpl. lia.
Qed.

Lemma Uint16_Encode_loop_length (vs : list Z) :
  length (Uint16_Encode_loop vs) = (length vs * 2)%nat.
Proof. induction vs as [|v vs IH]; simpl; [done | lia]. Qed.

Lemma Uint16_Decode_loop_payload (vs : list Z) :
  Forall is_uint16 vs → Uint16_Decode_loop (length vs) (Uint16_Encode_loop vs) = vs.
Proof.
  induction 1 as [|v vs Hv _ IH]; [done|].
  cbn [length Uint16_Decode_loop Uint16_Encode_loop].
  change (take 2 (put_uint16 v ++ Uint16_Encode_loop vs)) with (put_uint16 v).
  change (drop 2 (put_uint16 v ++ Uint16_Encode_loop vs)) with (Uint16_Encode_loop vs).
  by rewrite get_put_uint16, IH.
Qed.

Lemma option_kind_code (code : DHCPOptionCode) (kind : OptionKind) :
  option_kind code = Some kind → is_byte code ∧ code ≠ PadOptionCode ∧ code ≠ EndOptionCode.
Proof.
  unfold option_kind, is_byte, PadOptionCode, EndOptionCode.
  repeat case_bool_decide; try discriminate; intros _;
    repeat match goal with
           | H : _ ∈ _ :: _ |- _ => apply elem_of_cons in H as [-> | H]
           | H : _ ∈ [] |- _ => by apply elem_of_nil in H
           end; done.
Qed.

(** What [Encode] followed by [decodeOption] does to one well-formed
    option. *)
Lemma option_roundtrip (code : DHCPOptionCode) (opt : DHCPOption) :
  wf_option code opt →
  ∃ payload,
    Option_Encode opt = Ret payload
    ∧ (length payload ≤ 255)%nat
    ∧ decodeOption code payload = (Some opt, None).
Proof.
  destruct opt as [ips|bs|vs|s|d]; simpl.
  - intros (Hkind & Hips & Hlen). exists (IP_payload ips).
    rewrite IP_Encode_loop_wf by done. split; [done|].
    rewrite IP_payload_length by done. split; [done|].
    unfold decodeOption, Option_Decode. rewrite Hkind.
    rewrite IP_payload_length by done.
    rewrite bool_decide_eq_false_2 by (rewrite Nat.Div0.mod_mul; lia).
    rewrite Nat.div_mul by lia.
    pose proof (IP_Decode_loop_payload ips [] 0 Hips eq_refl) as Hdec.
    simpl in Hdec. by rewrite Hdec.
  - intros (Hkind & Hbs & Hlen). exists bs. split; [done|]. split; [done|].
    unfold decodeOption. rewrite Hkind. simpl. by rewrite copy_zeros.
  - intros (Hkind & Hvs & Hlen). exists (Uint16_Encode_loop vs). split; [done|].
    rewrite Uint16_Encode_loop_length. split; [done|].
    unfold decodeOption, Option_Decode. rewrite Hkind.
    rewrite Uint16_Encode_loop_length.
    rewrite bool_decide_eq_false_2 by (rewrite Nat.Div0.mod_mul; lia).
    rewrite Nat.div_mul by lia.
    by rewrite Uint16_Decode_loop_payload.
  - intros (Hkind & Hs & Hlen). exists s. split; [done|]. split; [done|].
    unfold decodeOption. rewrite Hkind. simpl. by rewrite copy_zeros.
  - intros (Hkind & Hd). eexists. split; [reflexivity|]. split; [simpl; lia|].
    unfold decodeOption. rewrite Hkind. simpl.
    rewrite get_put_uint32 by (unfold is_uint32, uint32; apply Z.mod_pos_bound; lia).
    unfold uint32. by rewrite whole_seconds_wrap.
Qed.

(** *** The option loops *)

Lemma DecodeDHCPOptions_loop_End fuel data i output :
  data !! i = Some EndOptionCode →
  DecodeDHCPOptions_loop (S fuel) data i output = Some (Ret (output, None)).
Proof.
  intros Hi. simpl. rewrite bool_decide_eq_true_2 by (by eapply lookup_lt_Some).
  rewrite Hi. reflexivity.
Qed.

Lemma DecodeDHCPOptions_loop_option fuel data i output code len opt :
  data !! i = Some code → code ≠ PadOptionCode → code ≠ EndOptionCode →
  data !! S i = Some len →
  0 ≤ len ≤ Z.of_nat (length data) - Z.of_nat (S i) - 1 →
  decodeOption code (take (Z.to_nat len) (drop (S (S i)) data)) = (Some opt, None) →
  DecodeDHCPOptions_loop (S fuel) data i output
  = DecodeDHCPOptions_loop fuel data (S (S i + Z.to_nat len)) (<[code := opt]> output).
Proof.
  intros Hi Hpad Hend Hlen Hrange Hdec. simpl.
  rewrite bool_decide_eq_true_2 by (by eapply lookup_lt_Some).
  rewrite Hi, (bool_decide_eq_false_2 _ Hpad), (bool_decide_eq_false_2 _ Hend), Hlen.
  rewrite bool_decide_eq_false_2 by lia.
  rewrite Hdec. reflexivity.
Qed.

Lemma Encode_loop_cons code opt rest buffer data :
  code ≠ PadOptionCode → code ≠ EndOptionCode →
  Option_Encode opt = Ret data → (length data ≤ 255)%nat →
  Encode_loop ((code, opt) :: rest) buffer
  = Encode_loop rest (buffer ++ [code] ++ [uint8 (Z.of_nat (length data))] ++ data).
Proof.
  intros Hpad Hend Henc Hlen. cbn [Encode_loop].
  rewrite bool_decide_eq_false_2 by (intros [?|?]; done).
  rewrite Henc. cbn [mbind go_bind]. rewrite bool_decide_eq_false_2 by lia. reflexivity.
Qed.

Lemma codec_loops (entries : list (DHCPOptionCode * DHCPOption)) :
  Forall (λ e, wf_option e.1 e.2) entries →
  ∀ buffer : list Z, ∃ enc : list Z,
    Encode_loop entries buffer = Ret (buffer ++ enc ++ [EndOptionCode], None)
    ∧ (length entries ≤ length enc)%nat
    ∧ ∀ fuel (pre : list Z) output (junk : list Z),
        (length entries < fuel)%nat →
        DecodeDHCPOptions_loop fuel (pre ++ enc ++ [EndOptionCode] ++ junk) (length pre) output
        = Some (Ret (foldl insert_entry output entries, None)).
Proof.
  induction 1 as [|[code opt] entries Hwf _ IH]; intros buffer.
  - exists []. split; [reflexivity|]. split; [done|].
    intros fuel pre output junk Hfuel. destruct fuel as [|fuel]; [simpl in Hfuel; lia|].
    apply DecodeDHCPOptions_loop_End. simpl. apply list_lookup_middle. done.
  - simpl in Hwf.
    destruct (option_roundtrip code opt Hwf) as (payload & Henc & Hlen & Hdec).
    assert (∃ kind, option_kind code = Some kind) as [kind Hkind].
    { destruct opt; simpl in Hwf; destruct Hwf as [-> _]; eauto. }
    destruct (option_kind_code code kind Hkind) as (Hbyte & Hpad & Hend).
    set (len := uint8 (Z.of_nat (length payload))).
    assert (len = Z.of_nat (length payload)) as Hlen'.
    { unfold len, uint8. apply Z.mod_small. lia. }
    destruct (IH (buffer ++ [code] ++ [len] ++ payload)) as (enc & Hloop & Hsize & Hrest).
    exists (code :: len :: payload ++ enc). split; [|split].
    + rewrite (Encode_loop_cons code opt entries buffer payload) by done.
      fold len. rewrite Hloop. f_equal. f_equal.
      rewrite <- ?app_assoc. simpl. rewrite <- ?app_assoc. reflexivity.
    + simpl. rewrite length_app. lia.
    + intros fuel pre output junk Hfuel.
      destruct fuel as [|fuel]; [simpl in Hfuel; lia|].
      clearbody len. subst len.
      set (len := Z.of_nat (length payload)) in *.
      assert (∀ X : list Z, pre ++ (code :: len :: payload ++ enc) ++ X
                            = (pre ++ [code; len]) ++ payload ++ enc ++ X) as Hdata.
      { intros X. rewrite <- ?app_assoc. simpl. rewrite <- ?app_assoc. reflexivity. }
      rewrite (DecodeDHCPOptions_loop_option fuel _ (length pre) output code len opt).
      * unfold len at 2. rewrite Nat2Z.id. simpl foldl.
        specialize (Hrest fuel (pre ++ [code; len] ++ payload) (insert_entry output (code, opt)) junk).
        replace (S (S (length pre) + length payload))
          with (length (pre ++ [code; len] ++ payload))
          by (rewrite !length_app; simpl; lia).
        rewrite Hdata. rewrite <- app_assoc in Hrest. rewrite !app_assoc in Hrest |- *.
        apply Hrest. simpl in Hfuel. lia.
      * apply list_lookup_middle. done.
      * done.
      * done.
      * rewrite lookup_app_r by lia.
        replace (S (length pre) - length pre)%nat with 1%nat by lia. reflexivity.
      * rewrite Hdata. unfold len. rewrite !length_app. simpl. lia.
      * rewrite Hdata. unfold len at 1. rewrite Nat2Z.id.
        rewrite drop_app_length' by (rewrite length_app; simpl; lia).
        by rewrite take_app_length.
Qed.

Lemma DecodeDHCPOptions_loop_total fuel data i output :
  (length data - i ≤ fuel)%nat → is_Some (DecodeDHCPOptions_loop fuel data i output).
Proof.
  revert i output. induction fuel as [|fuel IH]; intros i output Hfuel.
  - simpl. rewrite bool_decide_eq_false_2 by lia. eauto.
  - simpl. case_bool_decide; [|eauto].
    destruct (data !! i) as [code|]; [|eauto].
    case_bool_decide; [apply IH; lia|].
    case_bool_decide; [eauto|].
    destruct (data !! S i) as [len|]; [|eauto].
    case_bool_decide; [eauto|].
    destruct (decodeOption _ _) as [[opt|] [err|]]; eauto; apply IH; lia.
Qed.

(** [DecodeDHCPOptions] never runs out of fuel. *)
Lemma DecodeDHCPOptions_total data :
  ∃ r, DecodeDHCPOptions_loop (length data) data 0 ∅ = Some r ∧ DecodeDHCPOptions data = r.
Proof.
  destruct (DecodeDHCPOptions_loop_total (length data) data 0 ∅) as [r Hr]; [lia|].
  exists r. split; [done|]. unfold DecodeDHCPOptions. by rewrite Hr.
Qed.

Lemma foldl_insert_entry (entries : list (DHCPOptionCode * DHCPOption)) :
  foldl insert_entry ∅ entries = list_to_map (reverse entries).
Proof.
  induction entries as [|e entries IH] using rev_ind; [done|].
  rewrite foldl_snoc, reverse_snoc, IH. reflexivity.
Qed.

Lemma range_order_map (options : DHCPOptions) (order : list (DHCPOptionCode * DHCPOption)) :
  order ≡ₚ map_to_list options → foldl insert_entry ∅ order = options.
Proof.
  intros Hperm. rewrite foldl_insert_entry.
  rewrite <- (list_to_map_to_list options). apply list_to_map_proper.
  - rewrite reverse_Permutation, Hperm. apply NoDup_fst_map_to_list.
  - by rewrite reverse_Permutation.
Qed.

Lemma options_roundtrip (options : DHCPOptions) (order : list (DHCPOptionCode * DHCPOption)) :
  map_Forall wf_option options → order ≡ₚ map_to_list options →
  ∃ enc, Encode_loop order [] = Ret (enc, None)
         ∧ DecodeDHCPOptions enc = Ret (options, None).
Proof.
  intros Hwf Hperm.
  assert (Forall (λ e, wf_option e.1 e.2) order) as Hall.
  { rewrite Hperm. apply map_Forall_to_list in Hwf.
    eapply Forall_impl; [exact Hwf|]. by intros [c o]. }
  destruct (codec_loops order Hall []) as (enc & Henc & Hsize & Hdec).
  exists (enc ++ [EndOptionCode]). split; [exact Henc|].
  destruct (DecodeDHCPOptions_total (enc ++ [EndOptionCode])) as (r & Hr & ->).
  specialize (Hdec (length (enc ++ [EndOptionCode])) [] ∅ []).
  simpl in Hdec. rewrite Hdec in Hr.
  - injection Hr as <-. by rewrite (range_order_map options order).
  - rewrite length_app. simpl. lia.
Qed.

(** *** The fixed header *)

Lemma cstring_scan_cprefix (bytes : list Z) (i n : Z) :
  n = i - 1 → cstring_scan bytes i n = i - 1 + Z.of_nat (length (cprefix bytes)).
Proof.
  revert i n. induction bytes as [|b rest IH]; intros i n Hn; simpl; [lia|].
  case_bool_decide; simpl; [lia|]. rewrite (IH (i + 1) i) by lia. lia.
Qed.

Lemma cprefix_prefix (bytes : list Z) : take (length (cprefix bytes)) bytes = cprefix bytes.
Proof.
  induction bytes as [|b rest IH]; simpl; [done|].
  case_bool_decide; simpl; [done | by rewrite IH].
Qed.

Lemma cstringToGo_cprefix (bytes : list Z) : cstringToGo bytes = cprefix bytes.
Proof.
  unfold cstringToGo. rewrite (cstring_scan_cprefix bytes 0 (-1)) by lia.
  replace (0 - 1 + Z.of_nat (length (cprefix bytes)) + 1) with (Z.of_nat (length (cprefix bytes))) by lia.
  rewrite Nat2Z.id. apply cprefix_prefix.
Qed.

Lemma cprefix_zeros (k : nat) : cprefix (zeros k) = [].
Proof. destruct k; reflexivity. Qed.

Lemma cprefix_pad (s : list Z) (k : nat) : cprefix (s ++ zeros k) = cprefix s.
Proof.
  induction s as [|b s IH]; simpl; [apply cprefix_zeros|].
  case_bool_decide; [done | by rewrite IH].
Qed.

Lemma cstringToGo_pad (s : list Z) (k : nat) : cstringToGo (s ++ zeros k) = cstringToGo s.
Proof. rewrite !cstringToGo_cprefix. apply cprefix_pad. Qed.

Lemma Forall_zero_zeros (l : list Z) : Forall (λ b, b = 0) l → l = zeros (length l).
Proof. induction 1 as [|b l -> _ IH]; simpl; [done|]. unfold zeros in *. simpl. by rewrite <- IH. Qed.

Lemma NUL_padded_eq (s : list Z) : NUL_padded s → eq_up_to_NUL_padding s (cstringToGo s).
Proof.
  unfold NUL_padded, eq_up_to_NUL_padding. intros H.
  exists (length (drop (length (cstringToGo s)) s)).
  rewrite <- (Forall_zero_zeros _ H).
  rewrite <- (take_drop (length (cstringToGo s)) s) at 1.
  f_equal. rewrite cstringToGo_cprefix. apply cprefix_prefix.
Qed.

Lemma copy_zeros_pad (n : nat) (s : list Z) :
  (length s ≤ n)%nat → copy (zeros n) s = s ++ zeros (n - length s).
Proof.
  intros H. unfold copy, zeros. rewrite length_replicate.
  rewrite take_ge by done. by rewrite drop_replicate.
Qed.

Lemma ipToArray_IPv4 (a b c d : Z) : ipToArray (IPv4 a b c d) = [a; b; c; d].
Proof. reflexivity. Qed.

Lemma array_IPv4_list (a b c d : Z) : array_IPv4 [a; b; c; d] = IPv4 a b c d.
Proof. reflexivity. Qed.

Lemma binary_Write_header_length (raw : rawBootpHeader) :
  sized_raw raw → length (binary_Write_header raw) = bootpHeaderSize.
Proof.
  intros (_ & _ & _ & H1 & H2 & H3 & H4 & H5 & H6 & H7).
  unfold binary_Write_header. rewrite !length_app, H1, H2, H3, H4, H5, H6, H7. reflexivity.
Qed.

Lemma binary_Read_Write_header (raw : rawBootpHeader) (rest : list Z) :
  sized_raw raw → binary_Read_header (binary_Write_header raw ++ rest) = Some raw.
Proof.
  intros Hsized. unfold binary_Read_header.
  rewrite bool_decide_eq_false_2
    by (rewrite length_app, binary_Write_header_length by done; lia).
  destruct Hsized as (Hx & Hs & Hf & H1 & H2 & H3 & H4 & H5 & H6 & H7).
  destruct raw as [op ht hl hops xid secs flags cip yip sip gip mac sn fn]. simpl in *.
  destruct cip as [|c0 [|c1 [|c2 [|c3 [|? ?]]]]]; try discriminate H1.
  destruct yip as [|y0 [|y1 [|y2 [|y3 [|? ?]]]]]; try discriminate H2.
  destruct sip as [|s0 [|s1 [|s2 [|s3 [|? ?]]]]]; try discriminate H3.
  destruct gip as [|g0 [|g1 [|g2 [|g3 [|? ?]]]]]; try discriminate H4.
  unfold binary_Write_header. cbn [raw_Op raw_HwAddrType raw_HwAddrLength raw_Hops
    raw_TransactionID raw_Seconds raw_Flags raw_ClientIP raw_YourIP raw_ServerIP
    raw_RelayAgentIP raw_ClientHwAddr raw_ServerName raw_FileName].
  unfold put_uint32, put_uint16. cbn [app nth drop take].
  fold (put_uint32 xid). fold (put_uint16 secs). fold (put_uint16 flags).
  rewrite get_put_uint32, !get_put_uint16 by done.
  rewrite <- !app_assoc.
  rewrite take_0, drop_0.
  rewrite (take_app_length' mac _ 16) by done.
  rewrite (drop_app_length' mac _ 16) by done.
  rewrite (take_app_length' sn _ 64) by done.
  rewrite (drop_app_ge mac) by lia. rewrite H5. change (80 - 16)%nat with 64%nat.
  rewrite (drop_app_length' sn _ 64) by done.
  rewrite (take_app_length' fn _ 128) by done.
  reflexivity.
Qed.

Lemma copy_length {A} (dst src : list A) : length (copy dst src) = length dst.
Proof. unfold copy. rewrite length_app, length_take, length_drop. lia. Qed.

Lemma uint16_is_uint16 (z : Z) : is_uint16 (uint16 z).
Proof. unfold is_uint16, uint16. apply Z.mod_pos_bound. lia. Qed.

Lemma uint16_small (v : Z) : is_uint16 v → uint16 v = v.
Proof. unfold is_uint16, uint16. intros H. by apply Z.mod_small. Qed.

Lemma hwaddr_roundtrip (mac : list Z) :
  (length mac ≤ 16)%nat →
  copy (zeros (length mac)) (take (length mac) (copy (zeros 16) (take (length mac) mac))) = mac.
Proof.
  intros H. rewrite firstn_all, (copy_zeros_pad 16) by done.
  rewrite take_app_length. apply copy_zeros.
Qed.

Lemma BootpHeader_raw_sized (h : BootpHeader) :
  wf_header h → sized_raw (BootpHeader_raw h).
Proof.
  unfold wf_header.
  intros (Hop & Hht & Hhops & Hxid & Hsecs & Hflags & Hc & Hy & Hs & Hg & Hmac & _).
  apply is_IPv4_inv in Hc as (? & ? & ? & ? & _ & _ & _ & _ & Hc).
  apply is_IPv4_inv in Hy as (? & ? & ? & ? & _ & _ & _ & _ & Hy).
  apply is_IPv4_inv in Hs as (? & ? & ? & ? & _ & _ & _ & _ & Hs).
  apply is_IPv4_inv in Hg as (? & ? & ? & ? & _ & _ & _ & _ & Hg).
  unfold sized_raw, BootpHeader_raw. simpl. rewrite Hc, Hy, Hs, Hg, !copy_length.
  repeat split; try apply uint16_is_uint16; try apply Hxid; reflexivity.
Qed.

Lemma BootpHeader_raw_transform (h : BootpHeader) :
  wf_header h → rawBootpHeader_transform (BootpHeader_raw h) = (strip_names h, None).
Proof.
  unfold wf_header.
  intros (Hop & Hht & Hhops & Hxid & Hsecs & Hflags & Hc & Hy & Hs & Hg & Hmac & Hmacb
          & Hsn & _ & _ & Hfn & _ & _).
  apply is_IPv4_inv in Hc as (? & ? & ? & ? & _ & _ & _ & _ & Hc).
  apply is_IPv4_inv in Hy as (? & ? & ? & ? & _ & _ & _ & _ & Hy).
  apply is_IPv4_inv in Hs as (? & ? & ? & ? & _ & _ & _ & _ & Hs).
  apply is_IPv4_inv in Hg as (? & ? & ? & ? & _ & _ & _ & _ & Hg).
  destruct h as [op ht hops xid secs flags cip yip sip gip mac sn fn]. simpl in *. subst.
  assert (uint8 (Z.of_nat (length mac)) = Z.of_nat (length mac)) as Hlen
    by (apply uint8_byte; unfold is_byte; lia).
  unfold rawBootpHeader_transform, BootpHeader_raw, strip_names.
  cbn [raw_Op raw_HwAddrType raw_HwAddrLength raw_Hops raw_TransactionID raw_Seconds raw_Flags
       raw_ClientIP raw_YourIP raw_ServerIP raw_RelayAgentIP raw_ClientHwAddr raw_ServerName
       raw_FileName Operation HwAddrType Hops TransactionID Seconds Flags ClientIP YourIP
       ServerIP RelayAgentIP ClientHwAddr ServerName FileName].
  rewrite Hlen, Nat2Z.id.
  rewrite bool_decide_eq_false_2
    by (unfold BootRequest, BootReply in *; destruct Hop as [-> | ->]; vm_compute; intros [? ?]; done).
  rewrite bool_decide_eq_false_2 by lia.
  rewrite !ipToArray_IPv4, !array_IPv4_list.
  rewrite hwaddr_roundtrip by lia.
  rewrite (copy_zeros_pad 64), (copy_zeros_pad 128), !cstringToGo_pad by done.
  rewrite (uint8_byte op) by (unfold is_byte, BootRequest, BootReply in *; lia).
  rewrite (uint8_byte ht) by done.
  rewrite (uint16_small flags) by done.
  unfold uint16. rewrite whole_seconds_wrap by (done || lia).
  reflexivity.
Qed.

Lemma strip_names_padding (m : DHCPMessage) :
  wf_message m → eq_up_to_padding m (mkDHCPMessage (strip_names (Header m)) (Options m)).
Proof.
  intros [Hh _]. unfold wf_header in Hh.
  destruct Hh as (_ & _ & _ & _ & _ & _ & _ & _ & _ & _ & _ & _ & _ & _ & Hsn & _ & _ & Hfn).
  unfold eq_up_to_padding. simpl.
  repeat split; try reflexivity; by apply NUL_padded_eq.
Qed.

(** C1: marshalling a well-formed message, in whatever order the option
    map is ranged over, succeeds, and unmarshalling the bytes gives the
    message back: the same option map and the same header, [sname] and
    [file] up to their NUL padding. *)
Theorem codec_roundtrip (m : DHCPMessage) (order : list (DHCPOptionCode * DHCPOption)) :
  wf_message m →
  order ≡ₚ map_to_list (Options m) →
  ∃ bytes m',
    MarshallDHCPMessage order m = Ret (bytes, None)
    ∧ UnmarshallDHCPMessage bytes = Ret (m', None)
    ∧ eq_up_to_padding m m'.
Proof.
  intros Hwf Hperm. pose proof Hwf as [Hh Hopts].
  destruct (options_roundtrip (Options m) order Hopts Hperm) as (enc & Henc & Hdec).
  pose proof (BootpHeader_raw_sized _ Hh) as Hsized.
  pose proof (binary_Write_header_length _ Hsized) as Hlen.
  eexists _, (mkDHCPMessage (strip_names (Header m)) (Options m)).
  split; [|split].
  - unfold MarshallDHCPMessage. rewrite Henc. reflexivity.
  - unfold UnmarshallDHCPMessage.
    rewrite <- !app_assoc.
    rewrite binary_Read_Write_header by done.
    rewrite (drop_app_length' _ _ bootpHeaderSize) by done.
    rewrite bool_decide_eq_false_2 by (rewrite length_app; simpl; lia).
    change (take 4 (put_uint32 dhcpMagicCookie ++ enc)) with (put_uint32 dhcpMagicCookie).
    rewrite bool_decide_eq_false_2 by (intros H; apply H; vm_compute; reflexivity).
    rewrite (drop_app_ge _ _ (bootpHeaderSize + 4)) by lia.
    rewrite Hlen. replace (bootpHeaderSize + 4 - bootpHeaderSize)%nat with 4%nat by lia.
    change (drop 4 (put_uint32 dhcpMagicCookie ++ enc)) with enc.
    rewrite Hdec. cbn [mbind go_bind].
    rewrite BootpHeader_raw_transform by done. reflexivity.
  - by apply strip_names_padding.
Qed.

Lemma sample_offer_wf : wf_message sample_offer.
Proof.
  split.
  - unfold wf_header, is_byte, is_uint16, is_uint32, whole_seconds, is_IPv4, NUL_padded.
    vm_compute.
    repeat match goal with
           | |- _ ∧ _ => split
           | |- Forall _ [] => apply Forall_nil_2
           | |- Forall _ (_ :: _) => apply Forall_cons_2
           | |- _ ∨ _ => right; reflexivity
           end; try reflexivity; try discriminate; try lia.
  - apply map_Forall_to_list.
    let l := eval vm_compute in (map_to_list (Options sample_offer)) in
    change (Forall (uncurry wf_option) l).
    repeat (apply Forall_cons_2 || apply Forall_nil_2);
      unfold uncurry, wf_option, is_uint16, whole_seconds;
      (split; [vm_compute; reflexivity|]);
      repeat match goal with
             | |- _ ∧ _ => split
             | |- Forall _ [] => apply Forall_nil_2
             | |- Forall _ (_ :: _) => apply Forall_cons_2
             | |- is_IPv4 _ => apply is_IPv4_IPv4
             | |- is_byte _ => unfold is_byte
             end; try reflexivity; try (simpl; lia); try (vm_compute; discriminate).
Defined.

Lemma codec_roundtrip_witness :
  ∃ bytes m',
    MarshallDHCPMessage (map_to_list (Options sample_offer)) sample_offer = Ret (bytes, None)
    ∧ UnmarshallDHCPMessage bytes = Ret (m', None)
    ∧ eq_up_to_padding sample_offer m'.
Proof.
  apply (codec_roundtrip sample_offer (map_to_list (Options sample_offer))).
  - exact sample_offer_wf.
  - reflexivity.
Defined.

(** The reply the pool builds carries the server address in the 4-byte
    form [To4] returns; after a round trip it is in the 16-byte form,
    equal to the original in the sense of [IP.Equal] only. *)
Lemma short_address_roundtrip :
  let m := Message (lease_reply scenario_pool (scenario_discover scenario_M)
                      [192; 168; 99; 1] DHCPOffer
                      (mkLease (IPv4 192 168 99 4) LeaseReserved
                         (mkClientIdentifier [] scenario_M) zeroTime)) in
  ∃ bytes m',
    MarshallDHCPMessage (map_to_list (Options m)) m = Ret (bytes, None)
    ∧ UnmarshallDHCPMessage bytes = Ret (m', None)
    ∧ ServerIP (Header m) = [192; 168; 99; 1]
    ∧ ServerIP (Header m') = IPv4 192 168 99 1
    ∧ IP_Equal (ServerIP (Header m)) (ServerIP (Header m')) = true.
Proof.
  intros m. eexists _, _.
  split; [vm_compute; reflexivity|].
  split; [vm_compute; reflexivity|].
  repeat split; vm_compute; reflexivity.
Qed.

(** * Further properties *)

(** ** The options decoder on arbitrary input *)

Lemma DecodeDHCPOptions_loop_fuel_mono fuel fuel' data i output r :
  DecodeDHCPOptions_loop fuel data i output = Some r → (fuel ≤ fuel')%nat →
  DecodeDHCPOptions_loop fuel' data i output = Some r.
Proof.
  revert fuel' i output. induction fuel as [|fuel IH]; intros fuel' i output Hrun Hle.
  - simpl in Hrun. case_bool_decide as Hi; [done|].
    destruct fuel'; simpl; by rewrite bool_decide_eq_false_2.
  - destruct fuel' as [|fuel']; [lia|]. simpl in *.
    case_bool_decide; [|done].
    destruct (data !! i) as [code|]; [|done].
    case_bool_decide; [apply IH; [done | lia]|].
    case_bool_decide; [done|].
    destruct (data !! S i) as [len|]; [|done].
    case_bool_decide; [done|].
    destruct (decodeOption _ _) as [[opt|] [err|]]; try done; (apply IH; [done | lia]).
Qed.

Lemma DecodeDHCPOptions_run data r fuel :
  DecodeDHCPOptions_loop fuel data 0 ∅ = Some r → DecodeDHCPOptions data = r.
Proof.
  intros Hrun. destruct (DecodeDHCPOptions_total data) as (r' & Hr' & ->).
  destruct (Nat.le_ge_cases fuel (length data)) as [Hle|Hle].
  - rewrite (DecodeDHCPOptions_loop_fuel_mono _ _ _ _ _ _ Hrun Hle) in Hr'. congruence.
  - rewrite (DecodeDHCPOptions_loop_fuel_mono _ _ _ _ _ _ Hr' Hle) in Hrun. congruence.
Qed.

Lemma DecodeDHCPOptions_loop_shift fuel (pre data : list Z) i output :
  DecodeDHCPOptions_loop fuel (pre ++ data) (length pre + i) output
  = DecodeDHCPOptions_loop fuel data i output.
Proof.
  revert i output. induction fuel as [|fuel IH]; intros i output.
  - simpl. rewrite length_app.
    destruct (decide (i < length data)%nat).
    + rewrite !bool_decide_eq_true_2 by lia. done.
    + rewrite !bool_decide_eq_false_2 by lia. done.
  - simpl. rewrite length_app.
    destruct (decide (i < length data)%nat);
      [rewrite !bool_decide_eq_true_2 by lia | rewrite !bool_decide_eq_false_2 by lia; done].
    rewrite lookup_app_r by lia.
    replace (length pre + i - length pre)%nat with i by lia.
    destruct (data !! i) as [code|]; [|done].
    case_bool_decide; [rewrite <- IH; f_equal; lia|].
    case_bool_decide; [done|].
    rewrite lookup_app_r by lia.
    replace (S (length pre + i) - length pre)%nat with (S i) by lia.
    destruct (data !! S i) as [len|]; [|done].
    destruct (decide (len < 0 ∨ Z.of_nat (length data) - Z.of_nat (S i) - 1 < len)).
    + rewrite !bool_decide_eq_true_2 by lia. done.
    + rewrite !bool_decide_eq_false_2 by lia.
      rewrite drop_app_ge by lia.
      replace (S (S (length pre + i)) - length pre)%nat with (S (S i)) by lia.
      destruct (decodeOption _ _) as [[opt|] [err|]]; try done.
      * rewrite <- IH. f_equal. lia.
      * rewrite <- IH. f_equal. lia.
Qed.

Lemma DecodeDHCPOptions_loop_PADs fuel (k : nat) (data : list Z) output :
  DecodeDHCPOptions_loop (k + fuel) (zeros k ++ data) 0 output
  = DecodeDHCPOptions_loop fuel data 0 output.
Proof.
  assert (∀ j, (j ≤ k)%nat →
    DecodeDHCPOptions_loop (k - j + fuel) (zeros k ++ data) j output
    = DecodeDHCPOptions_loop fuel data 0 output) as H.
  { intros j Hj. remember (k - j)%nat as d eqn:Hd. revert j Hj Hd.
    induction d as [|d IH]; intros j Hj Hd.
    - assert (j = k) as -> by lia. simpl.
      rewrite <- (DecodeDHCPOptions_loop_shift fuel (zeros k) data 0 output).
      unfold zeros. rewrite length_replicate, Nat.add_0_r. done.
    - change (S d + fuel)%nat with (S (d + fuel)).
      cbn [DecodeDHCPOptions_loop].
      rewrite bool_decide_eq_true_2
        by (rewrite length_app; unfold zeros; rewrite length_replicate; lia).
      rewrite lookup_app_l by (unfold zeros; rewrite length_replicate; lia).
      unfold zeros at 1. rewrite lookup_replicate_2 by lia.
      rewrite bool_decide_eq_true_2 by done.
      apply IH; lia. }
  specialize (H 0%nat). rewrite Nat.sub_0_r in H. apply H. lia.
Qed.

(** PAD bytes in front of the options change nothing. *)
Lemma DecodeDHCPOptions_PAD_prefix (k : nat) (data : list Z) :
  DecodeDHCPOptions (zeros k ++ data) = DecodeDHCPOptions data.
Proof.
  destruct (DecodeDHCPOptions_total data) as (r & Hr & ->).
  apply (DecodeDHCPOptions_run _ _ (k + length data)).
  by rewrite DecodeDHCPOptions_loop_PADs.
Qed.

(** X1: [DecodeDHCPOptions] skips any number of PAD bytes in front of the
    options: they change neither the options decoded nor the error or
    panic the call ends in. *)
Theorem DecodeDHCPOptions_skips_PAD (k : nat) (data : list Z) :
  DecodeDHCPOptions (zeros k ++ data) = DecodeDHCPOptions data.
Proof. apply DecodeDHCPOptions_PAD_prefix. Qed.

Lemma DecodeDHCPOptions_loop_extend fuel (data junk : list Z) i output options :
  DecodeDHCPOptions_loop fuel data i output = Some (Ret (options, None)) →
  DecodeDHCPOptions_loop fuel (data ++ junk) i output = Some (Ret (options, None)).
Proof.
  revert i output. induction fuel as [|fuel IH]; intros i output; simpl.
  - case_bool_decide; done.
  - case_bool_decide as Hi; [|done].
    rewrite bool_decide_eq_true_2 by (rewrite length_app; lia).
    rewrite lookup_app_l by done.
    destruct (data !! i) as [code|]; [|done].
    case_bool_decide; [apply IH|].
    case_bool_decide; [done|].
    destruct (data !! S i) as [len|] eqn:Hlen; [|done].
    rewrite lookup_app_l by (by eapply lookup_lt_Some).
    rewrite Hlen.
    case_bool_decide as Hrange; [done|].
    rewrite bool_decide_eq_false_2 by (rewrite length_app; lia).
    rewrite drop_app_le by lia.
    rewrite take_app_le by (rewrite length_drop; lia).
    destruct (decodeOption _ _) as [[opt|] [err|]]; try done; apply IH.
Qed.

(** Bytes that follow the END option are not looked at. *)
Lemma DecodeDHCPOptions_extend (data junk : list Z) (options : DHCPOptions) :
  DecodeDHCPOptions data = Ret (options, None) →
  DecodeDHCPOptions (data ++ junk) = Ret (options, None).
Proof.
  intros H. destruct (DecodeDHCPOptions_total data) as (r & Hr & Heq).
  rewrite H in Heq. subst r.
  apply (DecodeDHCPOptions_run _ _ (length data)).
  by apply DecodeDHCPOptions_loop_extend.
Qed.

(** X2: once [DecodeDHCPOptions] has reached the END option and returned
    its options with a nil error, the bytes after END are never read:
    appending any bytes leaves the result as it is. *)
Theorem DecodeDHCPOptions_ignores_trailing (data junk : list Z) (options : DHCPOptions) :
  DecodeDHCPOptions data = Ret (options, None) →
  DecodeDHCPOptions (data ++ junk) = Ret (options, None).
Proof. apply DecodeDHCPOptions_extend. Qed.

Lemma DecodeDHCPOptions_ignores_trailing_witness :
  DecodeDHCPOptions ([53; 1; 1; 255] ++ [7; 7])
  = Ret ({[DHCPMessageTypeOptionCode := Uint8DHCPOption [1]]}, None).
Proof.
  apply (DecodeDHCPOptions_ignores_trailing [53; 1; 1; 255] [7; 7]).
  vm_compute. reflexivity.
Defined.

(** A successful run adds the same entries whatever map it starts from. *)
Lemma DecodeDHCPOptions_loop_delta fuel (data : list Z) i output options :
  DecodeDHCPOptions_loop fuel data i output = Some (Ret (options, None)) →
  ∃ delta : DHCPOptions, ∀ output',
    DecodeDHCPOptions_loop fuel data i output' = Some (Ret (delta ∪ output', None)).
Proof.
  revert i output. induction fuel as [|fuel IH]; intros i output; simpl.
  - case_bool_decide; done.
  - case_bool_decide as Hi; [|done].
    destruct (data !! i) as [code|]; [|done].
    case_bool_decide; [apply IH|].
    case_bool_decide.
    { intros _. exists ∅. intros output'. by rewrite (left_id_L ∅ (∪)). }
    destruct (data !! S i) as [len|] eqn:Hlen; [|done].
    case_bool_decide as Hrange; [done|].
    destruct (decodeOption _ _) as [[opt|] [err|]]; try done.
    + intros Hrun. destruct (IH _ _ Hrun) as [delta Hdelta].
      exists (delta ∪ {[code := opt]}). intros output'.
      rewrite Hdelta. rewrite insert_union_singleton_l. by rewrite (assoc_L (∪)).
    + apply IH.
Qed.

(** X3: an option in front of [rest] that [decodeOption] accepts is
    stored under its code, and an option of the same code in [rest]
    replaces it: of a repeated code the last occurrence is kept, the
    payloads are not concatenated. *)
Theorem DecodeDHCPOptions_later_wins (code : DHCPOptionCode) (payload rest : list Z)
    (opt : DHCPOption) (options : DHCPOptions) :
  (length payload ≤ 255)%nat →
  decodeOption code payload = (Some opt, None) →
  DecodeDHCPOptions rest = Ret (options, None) →
  DecodeDHCPOptions ([code; Z.of_nat (length payload)] ++ payload ++ rest)
  = Ret (options ∪ {[code := opt]}, None).
Proof.
  intros Hlen Hdec Hrest.
  assert (code ≠ PadOptionCode ∧ code ≠ EndOptionCode) as [Hpad Hend].
  { unfold decodeOption in Hdec. destruct (option_kind code) as [kind|] eqn:Hkind; [|done].
    by destruct (option_kind_code code kind Hkind) as (_ & ? & ?). }
  destruct (DecodeDHCPOptions_total rest) as (r & Hr & Heq). rewrite Hrest in Heq. subst r.
  destruct (DecodeDHCPOptions_loop_delta _ _ _ _ _ Hr) as [delta Hdelta].
  pose proof (Hdelta ∅) as H0. rewrite Hr in H0. injection H0 as H0.
  rewrite (right_id_L ∅ (∪)) in H0. subst delta.
  apply (DecodeDHCPOptions_run _ _ (S (length rest))).
  erewrite (DecodeDHCPOptions_loop_option (length rest) _ 0 ∅ code (Z.of_nat (length payload)) opt);
    try done.
  - rewrite Nat2Z.id.
    pose proof (DecodeDHCPOptions_loop_shift (length rest)
                  ([code; Z.of_nat (length payload)] ++ payload) rest 0 (<[code:=opt]> ∅)) as Hs.
    rewrite <- app_assoc in Hs.
    replace (S (1 + length payload)) with (length ([code; Z.of_nat (length payload)] ++ payload) + 0)%nat
      by (rewrite length_app; simpl; lia).
    rewrite Hs, Hdelta. by rewrite insert_empty.
  - simpl. rewrite !length_app. lia.
  - rewrite Nat2Z.id. simpl. by rewrite drop_0, take_app_length.
Qed.

Lemma DecodeDHCPOptions_later_wins_witness :
  DecodeDHCPOptions ([53; Z.of_nat (length [1])] ++ [1] ++ [53; 1; 3; 255])
  = Ret ({[53 := Uint8DHCPOption [3]]} ∪ {[53 := Uint8DHCPOption [1]]}, None).
Proof.
  apply (DecodeDHCPOptions_later_wins 53 [1] [53; 1; 3; 255]).
  - simpl. lia.
  - reflexivity.
  - vm_compute. reflexivity.
Defined.

Lemma DecodeDHCPOptions_loop_unknown fuel data i output code len :
  data !! i = Some code → code ≠ PadOptionCode → code ≠ EndOptionCode →
  data !! S i = Some len →
  0 ≤ len ≤ Z.of_nat (length data) - Z.of_nat (S i) - 1 →
  option_kind code = None →
  DecodeDHCPOptions_loop (S fuel) data i output
  = DecodeDHCPOptions_loop fuel data (S (S i + Z.to_nat len)) output.
Proof.
  intros Hi Hpad Hend Hlen Hrange Hkind. simpl.
  rewrite bool_decide_eq_true_2 by (by eapply lookup_lt_Some).
  rewrite Hi, (bool_decide_eq_false_2 _ Hpad), (bool_decide_eq_false_2 _ Hend), Hlen.
  rewrite bool_decide_eq_false_2 by lia.
  unfold decodeOption. rewrite Hkind. reflexivity.
Qed.

(** X4: an option whose code is not in the table of [decodeOption] is
    stepped over together with its payload, which may hold any bytes:
    the result is that of the bytes after it. *)
Theorem DecodeDHCPOptions_skips_unknown (code : DHCPOptionCode) (payload rest : list Z) :
  option_kind code = None → code ≠ PadOptionCode → code ≠ EndOptionCode →
  (length payload ≤ 255)%nat →
  DecodeDHCPOptions ([code; Z.of_nat (length payload)] ++ payload ++ rest)
  = DecodeDHCPOptions rest.
Proof.
  intros Hkind Hpad Hend Hlen.
  destruct (DecodeDHCPOptions_total rest) as (r & Hr & ->).
  apply (DecodeDHCPOptions_run _ _ (S (length rest))).
  erewrite (DecodeDHCPOptions_loop_unknown (length rest) _ 0 ∅ code (Z.of_nat (length payload)));
    try done.
  - rewrite Nat2Z.id.
    pose proof (DecodeDHCPOptions_loop_shift (length rest)
                  ([code; Z.of_nat (length payload)] ++ payload) rest 0 ∅) as Hs.
    rewrite <- app_assoc in Hs.
    replace (S (1 + length payload)) with (length ([code; Z.of_nat (length payload)] ++ payload) + 0)%nat
      by (rewrite length_app; simpl; lia).
    by rewrite Hs.
  - simpl. rewrite !length_app. lia.
Qed.

Lemma DecodeDHCPOptions_skips_unknown_witness :
  DecodeDHCPOptions ([43; Z.of_nat (length [9; 9])] ++ [9; 9] ++ [53; 1; 3; 255])
  = DecodeDHCPOptions [53; 1; 3; 255].
Proof.
  apply (DecodeDHCPOptions_skips_unknown 43 [9; 9] [53; 1; 3; 255]).
  - reflexivity.
  - unfold PadOptionCode. lia.
  - unfold EndOptionCode. lia.
  - simpl. lia.
Defined.

(** An option code in the last byte of the data, with no length byte
    after it, makes the decoder index past the end. *)
Lemma DecodeDHCPOptions_dangling (k : nat) (code : DHCPOptionCode) :
  code ≠ PadOptionCode → code ≠ EndOptionCode →
  DecodeDHCPOptions (zeros k ++ [code]) = Panic "index out of range".
Proof.
  intros Hpad Hend. rewrite DecodeDHCPOptions_PAD_prefix.
  unfold DecodeDHCPOptions. simpl.
  by rewrite (bool_decide_eq_false_2 _ Hpad), (bool_decide_eq_false_2 _ Hend).
Qed.

(** X6: an option whose length octet is larger than the number of bytes
    that follow it is refused with the error [Invalid DHCP option
    length]; no options are returned. *)
Theorem DecodeDHCPOptions_length_past_end (k : nat) (code len : Z) (rest : list Z) :
  code ≠ PadOptionCode → code ≠ EndOptionCode →
  Z.of_nat (length rest) < len →
  DecodeDHCPOptions (zeros k ++ [code; len] ++ rest)
  = Ret (∅, Some "Invalid DHCP option length").
Proof.
  intros Hpad Hend Hlen. rewrite DecodeDHCPOptions_PAD_prefix.
  unfold DecodeDHCPOptions. simpl.
  rewrite (bool_decide_eq_false_2 _ Hpad), (bool_decide_eq_false_2 _ Hend).
  rewrite bool_decide_eq_true_2 by lia. done.
Qed.

Lemma DecodeDHCPOptions_length_past_end_witness :
  DecodeDHCPOptions (zeros 0 ++ [53; 5] ++ [1; 255])
  = Ret (∅, Some "Invalid DHCP option length").
Proof.
  apply (DecodeDHCPOptions_length_past_end 0 53 5 [1; 255]).
  - unfold PadOptionCode. lia.
  - unfold EndOptionCode. lia.
  - simpl. lia.
Defined.

(** Options that hold only PAD bytes, or nothing, are not terminated. *)
Lemma DecodeDHCPOptions_unterminated (k : nat) :
  DecodeDHCPOptions (zeros k) = Ret (∅, Some "Options not terminated properly").
Proof.
  rewrite <- (app_nil_r (zeros k)), DecodeDHCPOptions_PAD_prefix. reflexivity.
Qed.

(** ** What the decoder returns is well formed *)

Lemma nth_is_byte (l : list Z) (k : nat) : Forall is_byte l → is_byte (nth k l 0).
Proof.
  intros H. rewrite nth_lookup. destruct (l !! k) as [b|] eqn:Hb; simpl.
  - eapply Forall_lookup_1; done.
  - unfold is_byte. lia.
Qed.

Lemma get_uint16_range (b : list Z) : Forall is_byte b → is_uint16 (get_uint16 b).
Proof.
  intros H. pose proof (nth_is_byte b 0 H) as H0. pose proof (nth_is_byte b 1 H) as H1.
  unfold get_uint16, is_uint16, is_byte in *. rewrite lor_shiftl by lia.
  change (2 ^ 8) with 256. change (2 ^ 16) with 65536. lia.
Qed.

Lemma get_uint32_range (b : list Z) : Forall is_byte b → is_uint32 (get_uint32 b).
Proof.
  intros H. pose proof (nth_is_byte b 0 H) as H0. pose proof (nth_is_byte b 1 H) as H1.
  pose proof (nth_is_byte b 2 H) as H2. pose proof (nth_is_byte b 3 H) as H3.
  unfold get_uint32, is_uint32, is_byte in *.
  rewrite (lor_shiftl (nth 3 b 0) _ 8) by lia.
  rewrite (lor_shiftl _ _ 16) by lia.
  rewrite (lor_shiftl _ _ 24) by lia.
  change (2 ^ 8) with 256 in *. change (2 ^ 16) with 65536 in *.
  change (2 ^ 24) with 16777216 in *. change (2 ^ 32) with 4294967296 in *. lia.
Qed.

Lemma whole_seconds_mul (bound v : Z) : 0 ≤ v < bound → whole_seconds bound (v * Second).
Proof.
  intros Hv. unfold whole_seconds, Second.
  rewrite Z.mod_mul, Z.div_mul by lia. lia.
Qed.

Lemma IP_Decode_loop_length (count i : nat) (data : list Z) :
  length (IP_Decode_loop count i data) = count.
Proof. revert i. induction count as [|c IH]; intros i; simpl; [done | by rewrite IH]. Qed.

Lemma IP_Decode_loop_IPv4 (count i : nat) (data : list Z) :
  Forall is_byte data → Forall is_IPv4 (IP_Decode_loop count i data).
Proof.
  intros H. revert i. induction count as [|c IH]; intros i; simpl; [done|].
  apply Forall_cons_2; [|apply IH]. apply is_IPv4_IPv4; by apply nth_is_byte.
Qed.

Lemma Uint16_Decode_loop_length (count : nat) (data : list Z) :
  length (Uint16_Decode_loop count data) = count.
Proof. revert data. induction count as [|c IH]; intros data; simpl; [done | by rewrite IH]. Qed.

Lemma Uint16_Decode_loop_range (count : nat) (data : list Z) :
  Forall is_byte data → Forall is_uint16 (Uint16_Decode_loop count data).
Proof.
  revert data. induction count as [|c IH]; intros data H; simpl; [done|].
  apply Forall_cons_2.
  - apply get_uint16_range. by apply Forall_take.
  - apply IH. by apply Forall_drop.
Qed.

(** Whatever [decodeOption] accepts from a payload of bytes is a
    well-formed value for its code. *)
Lemma decodeOption_wf (code : DHCPOptionCode) (data : list Z) (opt : DHCPOption) :
  Forall is_byte data → (length data ≤ 255)%nat →
  decodeOption code data = (Some opt, None) → wf_option code opt.
Proof.
  intros Hbytes Hlen. unfold decodeOption.
  destruct (option_kind code) as [kind|] eqn:Hkind; [|done].
  destruct kind; unfold Option_Decode.
  - case_bool_decide; [done|]. intros [= <-]. cbn [wf_option].
    split; [done|]. split; [by apply IP_Decode_loop_IPv4|].
    rewrite IP_Decode_loop_length.
    change (Nat.divmod (length data) 3 0 3).1 with (length data / 4)%nat.
    pose proof (Nat.Div0.mul_div_le (length data) 4). lia.
  - case_bool_decide; [done|]. intros [= <-]. cbn [wf_option].
    split; [done|]. apply whole_seconds_mul. by apply get_uint32_range.
  - intros [= <-]. cbn [wf_option]. by rewrite copy_zeros.
  - intros [= <-]. cbn [wf_option]. by rewrite copy_zeros.
  - case_bool_decide; [done|]. intros [= <-]. cbn [wf_option].
    split; [done|]. split; [by apply Uint16_Decode_loop_range|].
    rewrite Uint16_Decode_loop_length.
    change (Nat.divmod (length data) 1 0 1).1 with (length data / 2)%nat.
    pose proof (Nat.Div0.mul_div_le (length data) 2). lia.
Qed.

Lemma DecodeDHCPOptions_loop_wf fuel (data : list Z) i output options :
  Forall is_byte data → map_Forall wf_option output →
  DecodeDHCPOptions_loop fuel data i output = Some (Ret (options, None)) →
  map_Forall wf_option options.
Proof.
  intros Hbytes. revert i output. induction fuel as [|fuel IH]; intros i output Hout; simpl.
  - case_bool_decide; done.
  - case_bool_decide as Hi; [|done].
    destruct (data !! i) as [code|]; [|done].
    case_bool_decide; [by apply IH|].
    case_bool_decide; [by intros [= <-]|].
    destruct (data !! S i) as [len|] eqn:Hlen; [|done].
    case_bool_decide as Hrange; [done|].
    destruct (decodeOption _ _) as [[opt|] [err|]] eqn:Hdec; try done; [|by apply IH].
    apply IH. apply map_Forall_insert_2; [|done].
    eapply decodeOption_wf; [| |exact Hdec].
    + by apply Forall_take, Forall_drop.
    + rewrite length_take.
      pose proof (Forall_lookup_1 _ _ _ _ Hbytes Hlen) as Hb. unfold is_byte in Hb. lia.
Qed.

Lemma DecodeDHCPOptions_wf_aux (data : list Z) (options : DHCPOptions) :
  Forall is_byte data → DecodeDHCPOptions data = Ret (options, None) →
  map_Forall wf_option options.
Proof.
  intros Hbytes H. destruct (DecodeDHCPOptions_total data) as (r & Hr & Heq).
  rewrite H in Heq. subst r.
  eapply DecodeDHCPOptions_loop_wf; [done | apply map_Forall_empty | exact Hr].
Qed.

(** ** Which datagrams are accepted *)

Lemma binary_Read_header_Some (msg : list Z) :
  (bootpHeaderSize ≤ length msg)%nat → ∃ raw, binary_Read_header msg = Some raw.
Proof.
  intros H. unfold binary_Read_header. rewrite bool_decide_eq_false_2 by lia. eauto.
Qed.

(** X7: a datagram shorter than the BOOTP header and the cookie (240
    bytes) is refused with an error and the zero message; nothing
    panics. *)
Theorem Unmarshall_short (msg : list Z) :
  (length msg < bootpHeaderSize + 4)%nat →
  ∃ err, UnmarshallDHCPMessage msg = Ret (zeroDHCPMessage, Some err).
Proof.
  intros Hlen. unfold UnmarshallDHCPMessage, binary_Read_header.
  case_bool_decide; [eauto|].
  rewrite bool_decide_eq_true_2 by (rewrite length_drop; lia). eauto.
Qed.

Lemma Unmarshall_short_witness :
  ∃ err, UnmarshallDHCPMessage (zeros 100) = Ret (zeroDHCPMessage, Some err).
Proof.
  apply (Unmarshall_short (zeros 100)). vm_compute. lia.
Defined.

Lemma get_uint32_cookie (b : list Z) :
  length b = 4%nat → Forall is_byte b → get_uint32 b = dhcpMagicCookie → b = cookie_bytes.
Proof.
  intros Hlen Hb. destruct b as [|b0 [|b1 [|b2 [|b3 [|? ?]]]]]; try discriminate Hlen.
  repeat (apply Forall_cons in Hb as [? Hb]).
  rewrite get_uint32_bytes by done. unfold dhcpMagicCookie, cookie_bytes, is_byte in *.
  change (2 ^ 8) with 256. change (2 ^ 16) with 65536. change (2 ^ 24) with 16777216.
  intros Heq. assert (b0 = 0x63 ∧ b1 = 0x82 ∧ b2 = 0x53 ∧ b3 = 0x63) as (-> & -> & -> & ->) by lia.
  done.
Qed.

(** X8: a datagram long enough for header and cookie whose bytes 236..239
    are not 63 82 53 63 is refused with [Invalid DHCP cookie value] and
    the zero message, whatever else it holds. *)
Theorem Unmarshall_enforces_cookie (msg : list Z) :
  Forall is_byte msg → (bootpHeaderSize + 4 ≤ length msg)%nat →
  take 4 (drop bootpHeaderSize msg) ≠ cookie_bytes →
  UnmarshallDHCPMessage msg = Ret (zeroDHCPMessage, Some "Invalid DHCP cookie value").
Proof.
  intros Hbytes Hlen Hcookie. unfold UnmarshallDHCPMessage.
  destruct (binary_Read_header_Some msg) as [raw ->]; [lia|].
  rewrite bool_decide_eq_false_2 by (rewrite length_drop; lia).
  rewrite bool_decide_eq_true_2; [done|].
  intros Heq. apply Hcookie, get_uint32_cookie; [| |done].
  - rewrite length_take, length_drop. lia.
  - by apply Forall_take, Forall_drop.
Qed.

Lemma Unmarshall_enforces_cookie_witness :
  UnmarshallDHCPMessage (zeros 576)
  = Ret (zeroDHCPMessage, Some "Invalid DHCP cookie value").
Proof.
  apply (Unmarshall_enforces_cookie (zeros 576)).
  - apply (bool_decide_unpack _). vm_compute. reflexivity.
  - vm_compute. lia.
  - vm_compute. discriminate.
Defined.

(** With the cookie in place, what [UnmarshallDHCPMessage] does. *)
Lemma Unmarshall_with_cookie (msg : list Z) (raw : rawBootpHeader) :
  binary_Read_header msg = Some raw →
  (bootpHeaderSize + 4 ≤ length msg)%nat →
  take 4 (drop bootpHeaderSize msg) = cookie_bytes →
  UnmarshallDHCPMessage msg
  = (r ← DecodeDHCPOptions (drop (bootpHeaderSize + 4) msg);
     match r with
     | (_, Some err) => Ret (zeroDHCPMessage, Some err)
     | (options, None) =>
         match rawBootpHeader_transform raw with
         | (bootp, Some err) => Ret (mkDHCPMessage bootp ∅, Some err)
         | (bootp, None) => Ret (mkDHCPMessage bootp options, None)
         end
     end).
Proof.
  intros Hraw Hlen Hcookie. unfold UnmarshallDHCPMessage. rewrite Hraw.
  rewrite bool_decide_eq_false_2 by (rewrite length_drop; lia).
  rewrite Hcookie. rewrite bool_decide_eq_false_2 by (intros H; by apply H).
  reflexivity.
Qed.

Lemma transform_accepts (raw : rawBootpHeader) :
  (raw_Op raw = 1 ∨ raw_Op raw = 2) → 1 ≤ raw_HwAddrLength raw ≤ 16 →
  ∃ bootp, rawBootpHeader_transform raw = (bootp, None).
Proof.
  intros Hop Hlen. unfold rawBootpHeader_transform.
  rewrite bool_decide_eq_false_2
    by (change (uint8 BootRequest) with 1; change (uint8 BootReply) with 2; lia).
  rewrite bool_decide_eq_false_2 by lia. eauto.
Qed.

Lemma transform_rejects (raw : rawBootpHeader) :
  ¬ ((raw_Op raw = 1 ∨ raw_Op raw = 2) ∧ 1 ≤ raw_HwAddrLength raw ≤ 16) →
  ∃ bootp err, rawBootpHeader_transform raw = (bootp, Some err).
Proof.
  intros H. unfold rawBootpHeader_transform.
  change (uint8 BootRequest) with 1. change (uint8 BootReply) with 2.
  case_bool_decide; [eauto|]. case_bool_decide; [eauto|]. exfalso. apply H. lia.
Qed.

(** X9: which datagrams [UnmarshallDHCPMessage] accepts.  With the cookie
    in place, the message is accepted exactly when the options area
    decodes without error, [op] is 1 or 2 and [hlen] is in 1..16; no
    other header field is validated. *)
Theorem Unmarshall_accepts_iff (msg : list Z) :
  (bootpHeaderSize + 4 ≤ length msg)%nat →
  take 4 (drop bootpHeaderSize msg) = cookie_bytes →
  (∃ m, UnmarshallDHCPMessage msg = Ret (m, None))
  ↔ (∃ options, DecodeDHCPOptions (drop (bootpHeaderSize + 4) msg) = Ret (options, None))
    ∧ (nth 0 msg 0 = 1 ∨ nth 0 msg 0 = 2)
    ∧ 1 ≤ nth 2 msg 0 ≤ 16.
Proof.
  intros Hlen Hcookie.
  destruct (binary_Read_header_Some msg) as [raw Hraw]; [lia|].
  rewrite (Unmarshall_with_cookie msg raw Hraw Hlen Hcookie).
  assert (raw_Op raw = nth 0 msg 0 ∧ raw_HwAddrLength raw = nth 2 msg 0) as [Hop Hhl].
  { unfold binary_Read_header in Hraw. case_bool_decide; [done|].
    injection Hraw as <-. done. }
  rewrite <- Hop, <- Hhl.
  destruct (DecodeDHCPOptions _) as [[options [err|]]|why|]; simpl.
  - split; [intros [m [=]] | intros ([o [=]] & _)].
  - split.
    + intros [m Hm]. split; [eauto|].
      destruct (decide ((raw_Op raw = 1 ∨ raw_Op raw = 2) ∧ 1 ≤ raw_HwAddrLength raw ≤ 16))
        as [?|Hbad]; [done|].
      destruct (transform_rejects raw Hbad) as (b & e & Hrej). rewrite Hrej in Hm. done.
    + intros (_ & Hop' & Hhl').
      destruct (transform_accepts raw Hop' Hhl') as [b ->]. eauto.
  - split; [intros [m [=]] | intros ([o [=]] & _)].
  - split; [intros [m [=]] | intros ([o [=]] & _)].
Qed.

Lemma Unmarshall_accepts_iff_witness :
  (∃ m, UnmarshallDHCPMessage sample_datagram = Ret (m, None))
  ↔ (∃ options,
       DecodeDHCPOptions (drop (bootpHeaderSize + 4) sample_datagram) = Ret (options, None))
    ∧ (nth 0 sample_datagram 0 = 1 ∨ nth 0 sample_datagram 0 = 2)
    ∧ 1 ≤ nth 2 sample_datagram 0 ≤ 16.
Proof.
  apply (Unmarshall_accepts_iff sample_datagram).
  - vm_compute. lia.
  - vm_compute. reflexivity.
Defined.

(** ** Decoded messages and the round trip *)

Lemma binary_Read_header_bytes (msg : list Z) (raw : rawBootpHeader) :
  Forall is_byte msg → binary_Read_header msg = Some raw → raw_of_bytes raw.
Proof.
  intros Hb. unfold binary_Read_header. case_bool_decide as Hlen; [done|].
  intros [= <-]. unfold raw_of_bytes, bootpHeaderSize in *. simpl.
  repeat split;
    try (by apply nth_is_byte);
    try (by apply get_uint32_range, Forall_take, Forall_drop);
    try (by apply get_uint16_range, Forall_take, Forall_drop);
    try (by apply Forall_take, Forall_drop);
    try (rewrite length_take, length_drop; lia).
Qed.

Lemma cprefix_idem (s : list Z) : cprefix (cprefix s) = cprefix s.
Proof.
  induction s as [|b s IH]; simpl; [done|].
  case_bool_decide as Hb; simpl; [done|].
  rewrite bool_decide_eq_false_2 by done. by rewrite IH.
Qed.

Lemma cstringToGo_idem (s : list Z) : cstringToGo (cstringToGo s) = cstringToGo s.
Proof. rewrite !cstringToGo_cprefix. apply cprefix_idem. Qed.

Lemma cstringToGo_length (s : list Z) : (length (cstringToGo s) ≤ length s)%nat.
Proof. unfold cstringToGo. rewrite length_take. lia. Qed.

Lemma cstringToGo_NUL_padded (s : list Z) : NUL_padded (cstringToGo s).
Proof.
  unfold NUL_padded. rewrite cstringToGo_idem.
  rewrite drop_all. apply Forall_nil_2.
Qed.

Lemma copy_bytes (dst src : list Z) :
  Forall is_byte dst → Forall is_byte src → Forall is_byte (copy dst src).
Proof. intros Hd Hs. unfold copy. apply Forall_app. split; [by apply Forall_take | by apply Forall_drop]. Qed.

Lemma zeros_bytes (n : nat) : Forall is_byte (zeros n).
Proof. unfold zeros. apply Forall_replicate. unfold is_byte. lia. Qed.

Lemma transform_wf (raw : rawBootpHeader) (bootp : BootpHeader) :
  raw_of_bytes raw → rawBootpHeader_transform raw = (bootp, None) → wf_header bootp.
Proof.
  intros (Hop & Hht & Hhl & Hhops & Hxid & Hsecs & Hflags & Hc & Hy & Hs & Hg
          & Hmac & Hmacl & Hsn & Hsnl & Hfn & Hfnl).
  unfold rawBootpHeader_transform.
  change (uint8 BootRequest) with 1. change (uint8 BootReply) with 2.
  case_bool_decide as Hopv; [done|]. case_bool_decide as Hlen; [done|].
  intros [= <-]. unfold wf_header. simpl.
  pose proof (cstringToGo_length (raw_ServerName raw)).
  pose proof (cstringToGo_length (raw_FileName raw)).
  repeat match goal with |- _ ∧ _ => split end;
    try done;
    try (unfold BootRequest, BootReply; lia);
    try (by apply whole_seconds_mul);
    try (apply is_IPv4_IPv4; by apply nth_is_byte);
    try (rewrite copy_length; unfold zeros; rewrite length_replicate; lia);
    try (apply copy_bytes; [apply zeros_bytes | by apply Forall_take]);
    try lia;
    try (unfold cstringToGo; by apply Forall_take);
    try apply cstringToGo_NUL_padded.
Qed.

Lemma Unmarshall_wf_aux (msg : list Z) (m : DHCPMessage) :
  Forall is_byte msg → UnmarshallDHCPMessage msg = Ret (m, None) → wf_message m.
Proof.
  intros Hb. unfold UnmarshallDHCPMessage.
  destruct (binary_Read_header msg) as [raw|] eqn:Hraw; [|done].
  case_bool_decide; [done|]. case_bool_decide; [done|].
  destruct (DecodeDHCPOptions _) as [[options [err|]]|why|] eqn:Hdec; simpl; try done.
  destruct (rawBootpHeader_transform raw) as [bootp [err|]] eqn:Ht; [done|].
  intros [= <-]. split; simpl.
  - eapply transform_wf; [|exact Ht]. by eapply binary_Read_header_bytes.
  - eapply DecodeDHCPOptions_wf_aux; [|exact Hdec]. by apply Forall_drop.
Qed.

(** X10: every message [UnmarshallDHCPMessage] accepts is well formed in
    the sense of the round-trip property: fields within their widths,
    addresses in IPv4 form, names cut at the first NUL, every option
    under a code of the table with the variant the table assigns. *)
Theorem Unmarshall_wf (msg : list Z) (m : DHCPMessage) :
  Forall is_byte msg → UnmarshallDHCPMessage msg = Ret (m, None) → wf_message m.
Proof. apply Unmarshall_wf_aux. Qed.

Lemma Unmarshall_wf_witness : wf_message sample_decoded.
Proof.
  apply (Unmarshall_wf sample_datagram sample_decoded).
  - apply (bool_decide_unpack _). vm_compute. reflexivity.
  - vm_compute. reflexivity.
Defined.

Lemma Unmarshall_names_stripped (msg : list Z) (m : DHCPMessage) :
  UnmarshallDHCPMessage msg = Ret (m, None) → strip_names (Header m) = Header m.
Proof.
  unfold UnmarshallDHCPMessage.
  destruct (binary_Read_header msg) as [raw|] eqn:Hraw; [|done].
  case_bool_decide; [done|]. case_bool_decide; [done|].
  destruct (DecodeDHCPOptions _) as [[options [err|]]|why|] eqn:Hdec; simpl; try done.
  unfold rawBootpHeader_transform.
  case_bool_decide; [done|]. case_bool_decide; [done|].
  intros [= <-]. unfold strip_names. simpl. by rewrite !cstringToGo_idem.
Qed.

(** Marshalling a well-formed message and unmarshalling the bytes, with
    anything appended to them. *)
Lemma codec_roundtrip_junk (m : DHCPMessage) (order : list (DHCPOptionCode * DHCPOption)) :
  wf_message m → order ≡ₚ map_to_list (Options m) →
  ∃ bytes,
    MarshallDHCPMessage order m = Ret (bytes, None)
    ∧ (bootpHeaderSize + 4 < length bytes)%nat
    ∧ ∀ junk, UnmarshallDHCPMessage (bytes ++ junk)
              = Ret (mkDHCPMessage (strip_names (Header m)) (Options m), None).
Proof.
  intros Hwf Hperm. pose proof Hwf as [Hh Hopts].
  destruct (options_roundtrip (Options m) order Hopts Hperm) as (enc & Henc & Hdec).
  pose proof (BootpHeader_raw_sized _ Hh) as Hsized.
  pose proof (binary_Write_header_length _ Hsized) as Hlen.
  eexists. split; [|split].
  - unfold MarshallDHCPMessage. rewrite Henc. reflexivity.
  - rewrite !length_app, Hlen. simpl.
    destruct enc; [by vm_compute in Hdec | simpl; lia].
  - intros junk. unfold UnmarshallDHCPMessage.
    rewrite <- !app_assoc.
    rewrite binary_Read_Write_header by done.
    rewrite (drop_app_length' _ _ bootpHeaderSize) by done.
    rewrite bool_decide_eq_false_2 by (rewrite length_app; simpl; lia).
    change (take 4 (put_uint32 dhcpMagicCookie ++ enc ++ junk)) with (put_uint32 dhcpMagicCookie).
    rewrite bool_decide_eq_false_2 by (intros H; apply H; vm_compute; reflexivity).
    rewrite (drop_app_ge _ _ (bootpHeaderSize + 4)) by lia.
    rewrite Hlen. replace (bootpHeaderSize + 4 - bootpHeaderSize)%nat with 4%nat by lia.
    change (drop 4 (put_uint32 dhcpMagicCookie ++ enc ++ junk)) with (enc ++ junk).
    rewrite (DecodeDHCPOptions_extend _ _ _ Hdec). cbn [mbind go_bind].
    rewrite BootpHeader_raw_transform by done. reflexivity.
Qed.

(** X12: the round trip survives the receive buffer.  The receiver hands
    [UnmarshallDHCPMessage] its whole buffer, not the bytes read; a
    marshalled message followed by any bytes still decodes to the
    message that was sent, up to NUL padding of the names. *)
Theorem codec_roundtrip_in_buffer
    (m : DHCPMessage) (order : list (DHCPOptionCode * DHCPOption)) (rest : list Z) :
  wf_message m → order ≡ₚ map_to_list (Options m) →
  ∃ bytes m',
    MarshallDHCPMessage order m = Ret (bytes, None)
    ∧ UnmarshallDHCPMessage (bytes ++ rest) = Ret (m', None)
    ∧ eq_up_to_padding m m'.
Proof.
  intros Hwf Hperm.
  destruct (codec_roundtrip_junk m order Hwf Hperm) as (bytes & Hm & _ & Hu).
  exists bytes, (mkDHCPMessage (strip_names (Header m)) (Options m)).
  split; [done|]. split; [apply Hu | by apply strip_names_padding].
Qed.

Lemma codec_roundtrip_in_buffer_witness :
  ∃ bytes m',
    MarshallDHCPMessage (map_to_list (Options sample_offer)) sample_offer = Ret (bytes, None)
    ∧ UnmarshallDHCPMessage (bytes ++ zeros 300) = Ret (m', None)
    ∧ eq_up_to_padding sample_offer m'.
Proof.
  apply (codec_roundtrip_in_buffer sample_offer (map_to_list (Options sample_offer)) (zeros 300)).
  - exact sample_offer_wf.
  - reflexivity.
Defined.

(** X11: a message that was decoded from the wire is a fixed point of the
    codec: marshalling it, in any order of the map range, succeeds, and
    unmarshalling the bytes gives the very same message back. *)
Theorem Unmarshall_Marshall_Unmarshall
    (msg : list Z) (m : DHCPMessage) (order : list (DHCPOptionCode * DHCPOption)) :
  Forall is_byte msg → UnmarshallDHCPMessage msg = Ret (m, None) →
  order ≡ₚ map_to_list (Options m) →
  ∃ bytes,
    MarshallDHCPMessage order m = Ret (bytes, None)
    ∧ UnmarshallDHCPMessage bytes = Ret (m, None).
Proof.
  intros Hb Hm Hperm.
  destruct (codec_roundtrip_junk m order (Unmarshall_wf_aux _ _ Hb Hm) Hperm)
    as (bytes & Hmar & _ & Hu).
  exists bytes. split; [done|].
  specialize (Hu []). rewrite app_nil_r in Hu. rewrite Hu.
  rewrite (Unmarshall_names_stripped _ _ Hm). by destruct m.
Qed.

Lemma Unmarshall_Marshall_Unmarshall_witness :
  ∃ bytes,
    MarshallDHCPMessage (map_to_list (Options sample_decoded)) sample_decoded = Ret (bytes, None)
    ∧ UnmarshallDHCPMessage bytes = Ret (sample_decoded, None).
Proof.
  apply (Unmarshall_Marshall_Unmarshall sample_datagram sample_decoded).
  - apply (bool_decide_unpack _). vm_compute. reflexivity.
  - vm_compute. reflexivity.
  - reflexivity.
Defined.

(** ** Indexes and addresses *)

Lemma uint32_small (v : Z) : is_uint32 v → uint32 v = v.
Proof. unfold is_uint32, uint32. intros H. by apply Z.mod_small. Qed.

Lemma uint32_is_uint32 (v : Z) : is_uint32 (uint32 v).
Proof. unfold is_uint32, uint32. apply Z.mod_pos_bound. lia. Qed.

(** *** The loop of [freeIndices] *)

Lemma freeIndices_loop_S (fuel : nat) (pool : Pool) (i : Z) (result : list Z) :
  freeIndices_loop (S fuel) pool i result
  = if bool_decide (i ≤ End_ pool) then
      freeIndices_loop fuel pool (uint32 (i + 1))
        (if bool_decide (Leases pool !! i = None) then result ++ [i] else result)
    else Some result.
Proof. reflexivity. Qed.

(** At [End = 2^32 - 1] the condition [i <= pool.End] holds of every
    value of the counter: no number of iterations leaves the loop. *)
Lemma freeIndices_loop_never_exits (fuel : nat) (pool : Pool) (i : Z) (result : list Z) :
  End_ pool = 2 ^ 32 - 1 → is_uint32 i → freeIndices_loop fuel pool i result = None.
Proof.
  intros Hend. revert i result. induction fuel as [|fuel IH]; intros i result Hi; [done|].
  rewrite freeIndices_loop_S, bool_decide_eq_true_2 by (unfold is_uint32 in Hi; lia).
  apply IH, uint32_is_uint32.
Qed.

Lemma freeIndices_loop_steps (n : nat) (pool : Pool) (i : Z) (result : list Z) :
  0 ≤ i → End_ pool < 2 ^ 32 - 1 → i + Z.of_nat n = End_ pool + 1 →
  freeIndices_loop (S n) pool i result
  = Some (result ++ filter (λ i, Leases pool !! i = None) (seqZ i (Z.of_nat n))).
Proof.
  intros Hi Hend. revert i result Hi. induction n as [|n IH]; intros i result Hi Hn.
  - rewrite freeIndices_loop_S, bool_decide_eq_false_2 by lia.
    by rewrite app_nil_r.
  - rewrite freeIndices_loop_S, bool_decide_eq_true_2 by lia.
    rewrite uint32_small by (unfold is_uint32; lia).
    rewrite IH by lia. rewrite (seqZ_cons i) by lia.
    replace (Z.pred (Z.of_nat (S n))) with (Z.of_nat n) by lia.
    change (Z.succ i) with (i + 1). rewrite filter_cons.
    destruct (decide (Leases pool !! i = None)) as [Hf|Hf].
    + rewrite bool_decide_eq_true_2 by done. by rewrite <- app_assoc.
    + by rewrite bool_decide_eq_false_2.
Qed.

(** For [End < 2^32 - 1] the loop is left, with the free indices of
    [[Start, End]] in increasing order. *)
Lemma freeIndices_loop_exits (pool : Pool) :
  0 ≤ Start pool → End_ pool < 2 ^ 32 - 1 →
  ∃ fuel, freeIndices_loop fuel pool (Start pool) [] = Some (free_in_range pool).
Proof.
  intros Hs Hend. unfold free_in_range.
  destruct (Z.le_gt_cases (Start pool) (End_ pool + 1)) as [Hle|Hgt].
  - exists (S (Z.to_nat (End_ pool - Start pool + 1))).
    rewrite freeIndices_loop_steps by lia. by rewrite Z2Nat.id by lia.
  - exists 1%nat. rewrite freeIndices_loop_S, bool_decide_eq_false_2 by lia.
    replace (End_ pool - Start pool + 1) with (- Z.pos (Z.to_pos (Start pool - End_ pool - 1))) by lia.
    reflexivity.
Qed.

(** [Pool_freeIndices] against the loop it stands for, on a pool whose
    bounds are [uint32] values. *)
Lemma Pool_freeIndices_loop (pool : Pool) :
  is_uint32 (Start pool) → is_uint32 (End_ pool) →
  match Pool_freeIndices pool with
  | Ret free => ∃ fuel, freeIndices_loop fuel pool (Start pool) [] = Some free
  | Panic _ => False
  | Loops => ∀ fuel, freeIndices_loop fuel pool (Start pool) [] = None
  end.
Proof.
  intros Hs He. unfold Pool_freeIndices. case_bool_decide as Hend.
  - apply freeIndices_loop_exits; [unfold is_uint32 in Hs; lia | done].
  - intros fuel. apply freeIndices_loop_never_exits; [unfold is_uint32 in He; lia | done].
Qed.

Lemma be_uint32_bytes (b0 b1 b2 b3 : Z) :
  is_byte b0 → is_byte b1 → is_byte b2 → is_byte b3 →
  be_uint32 [b0; b1; b2; b3] = b3 + b2 * 2 ^ 8 + b1 * 2 ^ 16 + b0 * 2 ^ 24.
Proof.
  unfold is_byte. intros H0 H1 H2 H3. unfold be_uint32. simpl nth.
  rewrite !Z.shiftl_mul_pow2 by lia.
  change (2 ^ 8) with 256 in *. change (2 ^ 16) with 65536 in *.
  change (2 ^ 24) with 16777216 in *.
  rewrite !uint32_small by (unfold is_uint32; change (2 ^ 32) with 4294967296; lia).
  rewrite (Z.lor_comm (b0 * 16777216)).
  replace (b0 * 16777216) with (b0 ≪ 24) by (rewrite Z.shiftl_mul_pow2; lia).
  rewrite (lor_shiftl (b1 * 65536) b0 24) by (change (2 ^ 24) with 16777216; lia).
  change (2 ^ 24) with 16777216.
  rewrite (Z.lor_comm _ (b2 * 256)).
  replace (b1 * 65536 + b0 * 16777216) with ((b1 + b0 * 256) ≪ 16)
    by (rewrite Z.shiftl_mul_pow2 by lia; change (2 ^ 16) with 65536; lia).
  rewrite (lor_shiftl (b2 * 256) _ 16) by (change (2 ^ 16) with 65536; lia).
  change (2 ^ 16) with 65536.
  rewrite Z.lor_comm.
  replace (b2 * 256 + (b1 + b0 * 256) * 65536) with ((b2 + b1 * 256 + b0 * 65536) ≪ 8)
    by (rewrite Z.shiftl_mul_pow2 by lia; change (2 ^ 8) with 256; lia).
  rewrite (lor_shiftl b3 _ 8) by (change (2 ^ 8) with 256; lia).
  change (2 ^ 8) with 256. rewrite Z.shiftl_mul_pow2 by lia. change (2 ^ 24) with 16777216. lia.
Qed.

Lemma be_uint32_range (b : list Z) : Forall is_byte b → is_uint32 (be_uint32 b).
Proof.
  intros H. pose proof (nth_is_byte b 0 H) as H0. pose proof (nth_is_byte b 1 H) as H1.
  pose proof (nth_is_byte b 2 H) as H2. pose proof (nth_is_byte b 3 H) as H3.
  change (be_uint32 b) with (be_uint32 [nth 0 b 0; nth 1 b 0; nth 2 b 0; nth 3 b 0]).
  rewrite be_uint32_bytes by done. unfold is_uint32, is_byte in *.
  change (2 ^ 8) with 256. change (2 ^ 16) with 65536.
  change (2 ^ 24) with 16777216. change (2 ^ 32) with 4294967296. lia.
Qed.

Lemma be_uint32_octets (m : Z) : is_uint32 m → be_uint32 (uint32_octets m) = m.
Proof.
  intros Hm. unfold uint32_octets.
  rewrite be_uint32_bytes by apply uint8_is_byte.
  change 0xFF with (Z.ones 8). rewrite !Z.land_ones by lia.
  unfold uint8. rewrite !Z.mod_mod by lia. rewrite !Z.shiftr_div_pow2 by lia.
  unfold is_uint32 in Hm.
  change (2 ^ 8) with 256 in *. change (2 ^ 16) with 65536 in *.
  change (2 ^ 24) with 16777216 in *. change (2 ^ 32) with 4294967296 in *.
  Z.to_euclidean_division_equations. lia.
Qed.

Lemma uint32_bits_high (v n : Z) : is_uint32 v → 32 ≤ n → Z.testbit v n = false.
Proof.
  intros Hv Hn. rewrite <- (Z.mod_small v (2 ^ 32)) by apply Hv.
  apply Z.mod_pow2_bits_high. lia.
Qed.

Lemma land_lor_uint32_not (base x : Z) :
  is_uint32 base → is_uint32 x → Z.land x base = 0 →
  Z.land (Z.lor base x) (uint32_not base) = x.
Proof.
  intros Hb Hx Hdis. apply Z.bits_inj'. intros n Hn.
  pose proof (f_equal (λ v, Z.testbit v n) Hdis) as Hbit. simpl in Hbit.
  rewrite Z.land_spec, Z.bits_0 in Hbit.
  unfold uint32_not. change (2 ^ 32 - 1) with (Z.ones 32).
  rewrite Z.land_spec, Z.lor_spec, Z.lxor_spec.
  destruct (Z.lt_ge_cases n 32) as [Hlt|Hge].
  - rewrite Z.ones_spec_low by lia.
    destruct (Z.testbit base n), (Z.testbit x n); simpl in *; congruence.
  - rewrite Z.ones_spec_high by lia.
    rewrite (uint32_bits_high base n), (uint32_bits_high x n) by done. reflexivity.
Qed.

Lemma lor_disjoint_uint32 (base x : Z) :
  is_uint32 base → is_uint32 x → Z.land x base = 0 → is_uint32 (Z.lor base x).
Proof.
  intros Hb Hx Hdis. rewrite Z.land_comm in Hdis.
  rewrite <- (Z.add_nocarry_lor _ _ Hdis). unfold is_uint32 in *.
  split; [lia|]. apply Z.add_nocarry_lt_pow2; [done | lia | lia].
Qed.

Lemma addressFromIndex_octets (pool : Pool) (index : Z) :
  Pool_addressFromIndex pool index
  = array_IPv4 (uint32_octets (Z.lor (be_uint32 (Net_IP (Network pool)))
                                      (uint32 (index + Start pool)))).
Proof. reflexivity. Qed.

(** [indexFromAddress] undoes [addressFromIndex] whenever the bits of
    [index + Start] do not overlap the bits of the network address. *)
Lemma indexFromAddress_inverse (pool : Pool) (index : Z) :
  Forall is_byte (Net_IP (Network pool)) →
  is_uint32 index →
  Z.land (uint32 (index + Start pool)) (be_uint32 (Net_IP (Network pool))) = 0 →
  Pool_indexFromAddress pool (Pool_addressFromIndex pool index) = (index, None).
Proof.
  intros Hnet Hidx Hdis.
  pose proof (be_uint32_range _ Hnet) as Hbase.
  pose proof (uint32_is_uint32 (index + Start pool)) as Hx.
  rewrite addressFromIndex_octets. unfold Pool_indexFromAddress.
  set (m := Z.lor _ _).
  change (To4 (array_IPv4 (uint32_octets m))) with (Some (uint32_octets m)).
  cbv beta iota.
  rewrite be_uint32_octets by (by apply lor_disjoint_uint32).
  unfold m. rewrite land_lor_uint32_not by done.
  f_equal. unfold uint32, is_uint32 in *.
  rewrite Zminus_mod_idemp_l.
  replace (index + Start pool - Start pool) with index by lia.
  by apply Z.mod_small.
Qed.

(** X15: [indexFromAddress] undoes [addressFromIndex] for every index
    whose offset [index + Start] shares no bit with the network
    address: the two agree on the doubled [Start]. *)
Theorem indexFromAddress_addressFromIndex (pool : Pool) (index : Z) :
  Forall is_byte (Net_IP (Network pool)) →
  is_uint32 index →
  Z.land (uint32 (index + Start pool)) (be_uint32 (Net_IP (Network pool))) = 0 →
  Pool_indexFromAddress pool (Pool_addressFromIndex pool index) = (index, None).
Proof. apply indexFromAddress_inverse. Qed.

Lemma indexFromAddress_addressFromIndex_witness :
  Pool_indexFromAddress scenario_pool (Pool_addressFromIndex scenario_pool 2) = (2, None).
Proof.
  apply (indexFromAddress_addressFromIndex scenario_pool 2).
  - apply (bool_decide_unpack _). vm_compute. reflexivity.
  - unfold is_uint32. lia.
  - vm_compute. reflexivity.
Defined.

(** ** The invariant of the pool *)

Lemma same_config_refl pool : same_config pool pool.
Proof. by repeat split. Qed.

Lemma same_config_with_Leases pool leases : same_config pool (Pool_with_Leases pool leases).
Proof. by repeat split. Qed.

Lemma same_config_trans p1 p2 p3 : same_config p1 p2 → same_config p2 p3 → same_config p1 p3.
Proof. unfold same_config. intros (?&?&?&?&?) (?&?&?&?&?). repeat split; congruence. Qed.

Lemma findClientLease_None (pool : Pool) (id : ClientIdentifier) :
  Pool_findClientLease pool id = None →
  ∀ k l, Leases pool !! k = Some l → ClientIdentifier_equals (Lease_ID l) id = false.
Proof.
  unfold Pool_findClientLease. rewrite fmap_None, list_find_None.
  intros Hall k l Hl. apply elem_of_map_to_list in Hl.
  rewrite Forall_forall in Hall. specialize (Hall _ Hl). simpl in Hall.
  by destruct (ClientIdentifier_equals _ _).
Qed.

Lemma findClientLease_Some (pool : Pool) (id : ClientIdentifier) (lease : Lease) :
  Pool_findClientLease pool id = Some lease →
  ∃ k, Leases pool !! k = Some lease ∧ ClientIdentifier_equals (Lease_ID lease) id = true.
Proof.
  unfold Pool_findClientLease. rewrite fmap_Some.
  intros ([n [k l]] & Hfind & ->). apply list_find_Some in Hfind as (Hn & HP & _).
  exists k. simpl in *. split; [|done].
  apply elem_of_map_to_list. by eapply list_elem_of_lookup_2.
Qed.

Lemma Pool_inv_delete_where (P : Lease → bool) (pool : Pool) :
  Pool_inv pool →
  Pool_inv (Pool_with_Leases pool (delete_where P (map_to_list (Leases pool)) (Leases pool))).
Proof.
  intros [Hkeys Huniq].
  assert (∀ k l, delete_where P (map_to_list (Leases pool)) (Leases pool) !! k = Some l →
                 Leases pool !! k = Some l) as Hsub.
  { intros k l. rewrite delete_where_map. destruct (Leases pool !! k) as [l'|]; [|done].
    by destruct (P l'). }
  split; simpl.
  - intros k l Hl. by apply Hkeys, Hsub.
  - intros k1 k2 l1 l2 H1 H2. eapply Huniq; by apply Hsub.
Qed.

Lemma Pool_inv_handleDiscover rnd msg pool sender pool' sender' :
  Pool_inv pool →
  Pool_handleDiscover rnd msg pool sender = Ret (pool', sender') →
  Pool_inv pool' ∧ same_config pool pool'.
Proof.
  intros Hinv. unfold Pool_handleDiscover.
  destruct (Pool_findClientLease _ _) eqn:Hfind; simpl;
    [intros [= <- _]; split; [done | apply same_config_refl]|].
  destruct (Pool_freeIndices pool) as [free| |] eqn:Hfr; simpl; [|done..].
  apply Pool_freeIndices_Ret in Hfr as [Hend ->].
  case_bool_decide; simpl; [intros [= <- _]; split; [done | apply same_config_refl]|].
  destruct (selectNumber _ _ _) as [idx| |] eqn:Hsel; simpl; [|done..].
  intros [= <- _]. split; [|apply same_config_with_Leases].
  destruct Hinv as [Hkeys Huniq].
  assert (idx ∈ free_in_range pool) as Hin.
  { destruct (selectNumber_elem (Algorithm pool) (free_in_range pool) rnd) as (i & Hi & ?);
      [by destruct (free_in_range pool)|]. congruence. }
  apply freeIndices_elem in Hin as [Hfree Hrange].
  pose proof (findClientLease_None _ _ Hfind) as Hnone.
  assert (∀ k l, Leases pool !! k = Some l →
                 Mac (Lease_ID l) ≠ ClientHwAddr (Header (Message msg))) as Hmac.
  { intros k l Hl Heq. specialize (Hnone k l Hl).
    destruct (Hkeys k l Hl) as (_ & _ & Hid).
    unfold ClientIdentifier_equals in Hnone. rewrite Hid in Hnone. simpl in Hnone.
    unfold bytes_Equal in Hnone. rewrite bool_decide_eq_true_2 in Hnone; done. }
  split; simpl.
  - intros k l. destruct (decide (k = idx)) as [->|Hne].
    + rewrite lookup_insert_eq. intros [= <-]. done.
    + rewrite lookup_insert_ne by done. apply Hkeys.
  - intros k1 k2 l1 l2.
    destruct (decide (k1 = idx)) as [->|Hne1], (decide (k2 = idx)) as [->|Hne2]; [done| | |].
    + rewrite lookup_insert_eq, lookup_insert_ne by done.
      intros [= <-] H2 Heq. simpl in Heq. by destruct (Hmac _ _ H2).
    + rewrite lookup_insert_eq, lookup_insert_ne by done.
      intros H1 [= <-] Heq. simpl in Heq. by destruct (Hmac _ _ H1).
    + rewrite !lookup_insert_ne by done. apply Huniq.
Qed.

Lemma Pool_inv_handleRequest now msg pool sender pool' sender' :
  Pool_inv pool →
  Pool_handleRequest now msg pool sender = Ret (pool', sender') →
  Pool_inv pool' ∧ same_config pool pool'.
Proof.
  intros Hinv. unfold Pool_handleRequest.
  destruct (DHCPMessage_ServerIdentifier _) as [sel| |]; simpl; [|done..].
  destruct (DHCPMessage_RequestedIP _) as [req| |]; simpl; [|done..].
  destruct (_ && _); [intros [= <- _]; split; [done | apply same_config_refl]|].
  destruct (_ && _).
  { intros [= <- _]. split; [by apply Pool_inv_delete_where | apply same_config_with_Leases]. }
  destruct (Pool_indexFromAddress _ _) as [idx [err|]];
    [intros [= <- _]; split; [done | apply same_config_refl]|].
  destruct (Leases pool !! idx) as [l|] eqn:Hl;
    [|intros [= <- _]; split; [done | apply same_config_refl]].
  destruct (negb _); [intros [= <- _]; split; [done | apply same_config_refl]|].
  intros [= <- _]. split; [|apply same_config_with_Leases].
  destruct Hinv as [Hkeys Huniq]. split; simpl.
  - intros k l'. destruct (decide (k = idx)) as [->|Hne].
    + rewrite lookup_insert_eq. intros [= <-]. simpl. by apply Hkeys.
    + rewrite lookup_insert_ne by done. apply Hkeys.
  - intros k1 k2 l1 l2.
    destruct (decide (k1 = idx)) as [->|Hne1], (decide (k2 = idx)) as [->|Hne2]; [done| | |].
    + rewrite lookup_insert_eq, lookup_insert_ne by done.
      intros [= <-] H2 Heq. simpl in Heq. by eapply Huniq.
    + rewrite lookup_insert_eq, lookup_insert_ne by done.
      intros H1 [= <-] Heq. simpl in Heq. by eapply Huniq.
    + rewrite !lookup_insert_ne by done. apply Huniq.
Qed.

Lemma Pool_inv_step ev pool sender pool' sender' :
  Pool_inv pool →
  Pool_Run_step ev pool sender = Ret (pool', sender') →
  Pool_inv pool' ∧ same_config pool pool'.
Proof.
  intros Hinv. destruct ev as [now|msg now rnd]; simpl.
  - intros [= <- _]. split; [by apply Pool_inv_delete_where | apply same_config_with_Leases].
  - destruct (DHCPMessage_Type _) as [t| |]; simpl; [|done..].
    destruct (basicValidation _ _); [intros [= <- _]; split; [done | apply same_config_refl]|].
    repeat case_bool_decide;
      try (intros [= <- _]; split; [done | apply same_config_refl]).
    + by apply Pool_inv_handleDiscover.
    + by apply Pool_inv_handleRequest.
    + unfold Pool_handleRelease. destruct (IP_Equal _ _); intros [= <- _].
      * split; [by apply Pool_inv_delete_where | apply same_config_with_Leases].
      * split; [done | apply same_config_refl].
Qed.

Lemma Pool_inv_Run_aux evs pool sender pool' sender' :
  Pool_inv pool →
  Pool_Run evs pool sender = Ret (pool', sender') →
  Pool_inv pool' ∧ same_config pool pool'.
Proof.
  revert pool sender. induction evs as [|ev evs IH]; intros pool sender Hinv; simpl.
  - intros [= <- _]. split; [done | apply same_config_refl].
  - destruct (Pool_Run_step ev pool sender) as [[p s]| |] eqn:Hstep; simpl; [|done..].
    destruct (Pool_inv_step _ _ _ _ _ Hinv Hstep) as [Hinv' Hcfg].
    intros Hrun. destruct (IH _ _ Hinv' Hrun) as [Hinv'' Hcfg'].
    split; [done | by eapply same_config_trans].
Qed.

Lemma Pool_inv_empty pool : Leases pool = ∅ → Pool_inv pool.
Proof. intros H. split; intros *; rewrite H, lookup_empty; done. Qed.

(** X16: the invariant of [Run].  Starting from a pool without leases,
    after any sequence of ticks and messages that [Run] survives every
    lease is stored at a key within [[Start, End]], holds the address
    [addressFromIndex] gives for its key and an identifier with only a
    MAC; no two leases belong to the same MAC; and the configuration of
    the pool is untouched. *)
Theorem Pool_Run_invariant (evs : list PoolEvent) (pool pool' : Pool)
    (sender sender' : list DirectedDHCPMessage) :
  Leases pool = ∅ →
  Pool_Run evs pool sender = Ret (pool', sender') →
  Pool_inv pool' ∧ same_config pool pool'.
Proof. intros H. apply Pool_inv_Run_aux. by apply Pool_inv_empty. Qed.

Lemma Pool_Run_invariant_witness :
  ∃ pool' sender',
    Pool_Run [Recv (scenario_discover scenario_M) 0 0; Tick 5] scenario_pool []
    = Ret (pool', sender')
    ∧ Pool_inv pool' ∧ same_config scenario_pool pool'.
Proof.
  eexists _, _. split; [vm_compute; reflexivity|].
  eapply (Pool_Run_invariant [Recv (scenario_discover scenario_M) 0 0; Tick 5] scenario_pool _ []).
  - reflexivity.
  - vm_compute. reflexivity.
Defined.

(** ** DISCOVER, expiry and RELEASE *)

Lemma freeIndices_iff (pool : Pool) (i : Z) :
  i ∈ free_in_range pool ↔ Start pool ≤ i ≤ End_ pool ∧ Leases pool !! i = None.
Proof.
  unfold free_in_range. rewrite list_elem_of_filter, elem_of_seqZ.
  split; intros [? ?]; split; try done; lia.
Qed.

Lemma filter_seqZ_head (P : Z → Prop) `{∀ x, Decision (P x)} (k : nat) (a x : Z) (rest : list Z) :
  filter P (seqZ a (Z.of_nat k)) = x :: rest →
  P x ∧ a ≤ x ∧ ∀ j, a ≤ j < x → ¬ P j.
Proof.
  revert a. induction k as [|k IH]; intros a; [done|].
  rewrite seqZ_cons by lia.
  replace (Z.pred (Z.of_nat (S k))) with (Z.of_nat k) by lia.
  rewrite filter_cons. destruct (decide (P a)) as [Ha|Ha].
  - intros [= <- _]. split; [done|]. split; [lia|]. intros j Hj. lia.
  - intros Hf. destruct (IH _ Hf) as (Hx & Hle & Hmin).
    split; [done|]. split; [lia|]. intros j Hj.
    destruct (decide (j = a)) as [->|]; [done|]. apply Hmin. lia.
Qed.

(** X18: with the sequential algorithm, in a pool with [End < 2^32 - 1]
    (where the loop of [freeIndices] is left), a DISCOVER of a client
    without a lease reserves the smallest free index of [[Start, End]]:
    every index below the one chosen is taken.  The lease is Reserved,
    with the zero expiry, and one OFFER for its address is queued. *)
Theorem handleDiscover_sequential_smallest
    (rnd : nat) (msg : DirectedDHCPMessage) (pool : Pool)
    (sender : list DirectedDHCPMessage) (free : Z) :
  Algorithm pool = Sequential →
  End_ pool < 2 ^ 32 - 1 →
  Pool_findClientLease pool (newClientIdentifier (Message msg)) = None →
  Start pool ≤ free ≤ End_ pool → Leases pool !! free = None →
  ∃ idx pool' offer,
    Pool_handleDiscover rnd msg pool sender = Ret (pool', sender ++ [offer])
    ∧ Start pool ≤ idx ≤ free
    ∧ Leases pool !! idx = None
    ∧ (∀ j, Start pool ≤ j < idx → is_Some (Leases pool !! j))
    ∧ Leases pool' = <[idx := mkLease (Pool_addressFromIndex pool idx) LeaseReserved
                                (newClientIdentifier (Message msg)) zeroTime]> (Leases pool)
    ∧ Options (Message offer) !! DHCPMessageTypeOptionCode = Some (Uint8DHCPOption [DHCPOffer])
    ∧ YourIP (Header (Message offer)) = Pool_addressFromIndex pool idx.
Proof.
  intros Halg Hend Hnone Hrange Hfree.
  assert (free ∈ free_in_range pool) as Hin by (by apply freeIndices_iff).
  unfold Pool_handleDiscover. rewrite Hnone, Halg.
  rewrite (Pool_freeIndices_bounded pool Hend). cbn [mbind go_bind].
  destruct (free_in_range pool) as [|idx rest] eqn:Hlist; [by apply elem_of_nil in Hin|].
  simpl. unfold free_in_range in Hlist.
  assert (0 ≤ End_ pool - Start pool + 1) as Hn by lia.
  rewrite <- (Z2Nat.id _ Hn) in Hlist.
  apply filter_seqZ_head in Hlist as (Hidx & Hle & Hmin).
  eexists idx, _, _. split; [reflexivity|].
  assert (idx ≤ free).
  { destruct (Z.le_gt_cases idx free) as [?|Hgt]; [done|].
    destruct (Hmin free); [lia | done]. }
  split; [lia|]. split; [done|]. split; [|done].
  intros j Hj. specialize (Hmin j Hj).
  destruct (Leases pool !! j); [eauto | done].
Qed.

Lemma handleDiscover_sequential_smallest_witness :
  ∃ idx pool' offer,
    Pool_handleDiscover 0 (scenario_discover scenario_M2) pool_with_M [] = Ret (pool', [] ++ [offer])
    ∧ Start pool_with_M ≤ idx ≤ 7
    ∧ Leases pool_with_M !! idx = None
    ∧ (∀ j, Start pool_with_M ≤ j < idx → is_Some (Leases pool_with_M !! j))
    ∧ Leases pool' = <[idx := mkLease (Pool_addressFromIndex pool_with_M idx) LeaseReserved
                                (newClientIdentifier (Message (scenario_discover scenario_M2)))
                                zeroTime]> (Leases pool_with_M)
    ∧ Options (Message offer) !! DHCPMessageTypeOptionCode = Some (Uint8DHCPOption [DHCPOffer])
    ∧ YourIP (Header (Message offer)) = Pool_addressFromIndex pool_with_M idx.
Proof.
  apply (handleDiscover_sequential_smallest 0 (scenario_discover scenario_M2) pool_with_M [] 7).
  - reflexivity.
  - vm_compute. reflexivity.
  - vm_compute. reflexivity.
  - vm_compute. split; discriminate.
  - vm_compute. reflexivity.
Defined.

(** X19: when every index of [[Start, End]] is leased and the client holds
    none of the leases, a DISCOVER is dropped: no lease changes and no
    message is queued.  (At [End = 2^32 - 1], where the loop of
    [freeIndices] is never left, the call does not return.) *)
Theorem handleDiscover_exhausted
    (rnd : nat) (msg : DirectedDHCPMessage) (pool : Pool) (sender : list DirectedDHCPMessage) :
  Pool_findClientLease pool (newClientIdentifier (Message msg)) = None →
  (∀ i, Start pool ≤ i ≤ End_ pool → is_Some (Leases pool !! i)) →
  Pool_handleDiscover rnd msg pool sender
  = if bool_decide (End_ pool < 2 ^ 32 - 1) then Ret (pool, sender) else Loops.
Proof.
  intros Hnone Hfull. unfold Pool_handleDiscover, Pool_freeIndices. rewrite Hnone.
  case_bool_decide; [|reflexivity]. cbn [mbind go_bind].
  destruct (free_in_range pool) as [|i rest] eqn:Hlist; [reflexivity|].
  assert (i ∈ free_in_range pool) as Hin by (rewrite Hlist; by left).
  apply freeIndices_iff in Hin as [Hr Hi].
  destruct (Hfull i Hr) as [l Hl]. congruence.
Qed.

Lemma full_pool_full (i : Z) :
  Start full_pool ≤ i ≤ End_ full_pool → is_Some (Leases full_pool !! i).
Proof.
  intros Hi. destruct (Leases full_pool !! i) eqn:E; [by eexists|].
  assert (i ∈ free_in_range full_pool) as Hin by (apply freeIndices_iff; done).
  assert (free_in_range full_pool = []) as Hnone by (vm_compute; reflexivity).
  rewrite Hnone in Hin. inversion Hin.
Qed.

Lemma handleDiscover_exhausted_witness :
  Pool_handleDiscover 0 (scenario_discover scenario_M) full_pool [] = Ret (full_pool, []).
Proof.
  rewrite (handleDiscover_exhausted 0 (scenario_discover scenario_M) full_pool []).
  - reflexivity.
  - vm_compute. reflexivity.
  - exact full_pool_full.
Defined.

(** X20: a client that holds a lease is offered the address of a lease of
    its own again: the pool is left as it is, no new index is taken,
    and the OFFER carries that address. *)
Theorem handleDiscover_known_client
    (rnd : nat) (msg : DirectedDHCPMessage) (pool : Pool) (sender : list DirectedDHCPMessage)
    (k : Z) (held : Lease) :
  Leases pool !! k = Some held →
  owned_by (newClientIdentifier (Message msg)) held →
  ∃ k' lease offer,
    Pool_handleDiscover rnd msg pool sender = Ret (pool, sender ++ [offer])
    ∧ Leases pool !! k' = Some lease
    ∧ owned_by (newClientIdentifier (Message msg)) lease
    ∧ YourIP (Header (Message offer)) = Address lease
    ∧ Options (Message offer) !! DHCPMessageTypeOptionCode = Some (Uint8DHCPOption [DHCPOffer]).
Proof.
  intros Hheld Hown. unfold Pool_handleDiscover.
  destruct (Pool_findClientLease pool _) as [lease|] eqn:Hfind.
  - destruct (findClientLease_Some _ _ _ Hfind) as (k' & Hk' & Heq).
    simpl. eexists k', lease, _. split; [reflexivity|]. repeat split; done.
  - pose proof (findClientLease_None _ _ Hfind k held Hheld) as Hno.
    unfold owned_by in Hown. congruence.
Qed.

Lemma handleDiscover_known_client_witness :
  ∃ k' lease offer,
    Pool_handleDiscover 0 (scenario_discover scenario_M) pool_with_M []
    = Ret (pool_with_M, [] ++ [offer])
    ∧ Leases pool_with_M !! k' = Some lease
    ∧ owned_by (newClientIdentifier (Message (scenario_discover scenario_M))) lease
    ∧ YourIP (Header (Message offer)) = Address lease
    ∧ Options (Message offer) !! DHCPMessageTypeOptionCode = Some (Uint8DHCPOption [DHCPOffer]).
Proof.
  apply (handleDiscover_known_client 0 (scenario_discover scenario_M) pool_with_M [] 2
           (mkLease (IPv4 192 168 99 4) LeaseReserved (mkClientIdentifier [] scenario_M) zeroTime)).
  - reflexivity.
  - vm_compute. reflexivity.
Defined.

(** X21: [expireOld] keeps exactly the leases that have not yet expired:
    a lease is present after the sweep exactly when it was present
    before, unchanged, and its expiry is not before the current time. *)
Theorem expireOld_keeps_unexpired (now : Time) (pool : Pool) (i : Z) (lease : Lease) :
  Leases (Pool_expireOld now pool) !! i = Some lease
  ↔ Leases pool !! i = Some lease ∧ now ≤ Expires lease.
Proof.
  rewrite expireOld_lookup. unfold Time_Before.
  destruct (Leases pool !! i) as [l|]; [|split; [done | by intros [? _]]].
  case_bool_decide.
  - split; [done|]. intros [[= ->] ?]. lia.
  - split; [intros [= ->]; split; [done | lia] | by intros [? _]].
Qed.

(** X22: a RELEASE queues no reply.  When its [siaddr] is the address of
    the server it removes every lease of the sender, identified by the
    hardware address alone, and no other; otherwise it removes nothing. *)
Theorem handleRelease_frees (msg : DirectedDHCPMessage) (pool : Pool)
    (sender : list DirectedDHCPMessage) (i : Z) :
  (Pool_handleRelease msg pool sender).2 = sender
  ∧ Leases (Pool_handleRelease msg pool sender).1 !! i
    = match Leases pool !! i with
      | Some lease =>
          if IP_Equal (ServerIP (Header (Message msg))) (Pool_serverIP (Interface msg))
             && ClientIdentifier_equals (Lease_ID lease) (newClientIdentifier (Message msg))
          then None else Some lease
      | None => None
      end.
Proof.
  unfold Pool_handleRelease. destruct (IP_Equal _ _); simpl.
  - split; [done|]. apply freeLeases_lookup.
  - split; [done|]. by destruct (Leases pool !! i).
Qed.

(** ** What the pool replies *)

Lemma lease_reply_reply_to pool msg t lease :
  t = DHCPOffer ∨ t = DHCPAck →
  reply_to msg (lease_reply pool msg (Pool_serverIP (Interface msg)) t lease).
Proof.
  intros Ht. unfold reply_to, lease_reply. simpl. repeat split.
  exists t. split; [tauto|]. by destruct Ht as [-> | ->].
Qed.

Lemma sendNack_reply_to msg sender reason :
  ∃ nak, Pool_sendNack msg sender (Pool_serverIP (Interface msg)) reason = sender ++ [nak]
         ∧ reply_to msg nak
         ∧ Options (Message nak) !! DHCPMessageTypeOptionCode = Some (Uint8DHCPOption [DHCPNak])
         ∧ Options (Message nak) !! MessageOptionCode
           = Some (StringDHCPOption (bytes_of_string reason))
         ∧ YourIP (Header (Message nak)) = IPv4zero.
Proof.
  eexists. split; [reflexivity|]. split; [|by repeat split].
  unfold reply_to. simpl. repeat split. exists DHCPNak. split; [tauto | done].
Qed.

(** X23: what one step of [Run] can send.  A tick sends nothing; a message
    leads to at most one reply, and the reply is a BOOTREPLY with the
    transaction id, hardware address and type of the request, the
    broadcast flag, the address of the server in [siaddr] and in option
    54, of type OFFER, ACK or NAK, bound for the interface and peer the
    request came from. *)
Theorem Pool_Run_step_replies (ev : PoolEvent) (pool pool' : Pool)
    (sender sender' : list DirectedDHCPMessage) :
  Pool_Run_step ev pool sender = Ret (pool', sender') →
  sender' = sender
  ∨ ∃ msg now rnd reply,
      ev = Recv msg now rnd ∧ sender' = sender ++ [reply] ∧ reply_to msg reply.
Proof.
  destruct ev as [now|msg now rnd]; simpl; [intros [= _ <-]; by left|].
  destruct (DHCPMessage_Type _) as [t| |]; simpl; [|done..].
  destruct (basicValidation _ _); [intros [= _ <-]; by left|].
  assert (∀ reason, Pool_sendNack msg sender (Pool_serverIP (Interface msg)) reason = sender'
                    → ∃ msg0 now0 rnd0 reply,
                        Recv msg now rnd = Recv msg0 now0 rnd0
                        ∧ sender' = sender ++ [reply] ∧ reply_to msg0 reply) as Hnak.
  { intros reason <-. destruct (sendNack_reply_to msg sender reason) as (nak & -> & Hr & _).
    by exists msg, now, rnd, nak. }
  repeat case_bool_decide; try (intros [= _ <-]; by left).
  - unfold Pool_handleDiscover.
    destruct (Pool_findClientLease _ _); simpl.
    + intros [= _ <-]. right. eexists msg, now, rnd, _. split; [done|]. split; [done|].
      apply lease_reply_reply_to. by left.
    + destruct (Pool_freeIndices pool) as [free| |]; simpl; [|done..].
      case_bool_decide; simpl; [intros [= _ <-]; by left|].
      destruct (selectNumber _ _ _); simpl; [|done..].
      intros [= _ <-]. right. eexists msg, now, rnd, _. split; [done|]. split; [done|].
      apply lease_reply_reply_to. by left.
  - unfold Pool_handleRequest.
    destruct (DHCPMessage_ServerIdentifier _) as [sel| |]; simpl; [|done..].
    destruct (DHCPMessage_RequestedIP _) as [req| |]; simpl; [|done..].
    destruct (_ && _); [intros [= _ <-]; by left|].
    destruct (_ && _); [intros [= _ <-]; by left|].
    destruct (Pool_indexFromAddress _ _) as [idx [err|]].
    { case_bool_decide; intros [= _ Hs]; [right; by eapply Hnak | by left]. }
    destruct (Leases pool !! idx) as [l|].
    2:{ case_bool_decide; intros [= _ Hs]; [right; by eapply Hnak | by left]. }
    destruct (negb _).
    { case_bool_decide; intros [= _ Hs]; [right; by eapply Hnak | by left]. }
    intros [= _ <-]. right. eexists msg, now, rnd, _. split; [done|]. split; [done|].
    apply lease_reply_reply_to. by right.
  - unfold Pool_handleRelease. destruct (IP_Equal _ _); intros [= _ <-]; by left.
Qed.

Lemma Pool_Run_step_replies_witness :
  ∃ pool' sender',
    Pool_Run_step (Recv (scenario_discover scenario_M) 0 0) scenario_pool [] = Ret (pool', sender')
    ∧ (sender' = []
       ∨ ∃ msg now rnd reply,
           Recv (scenario_discover scenario_M) 0 0 = Recv msg now rnd
           ∧ sender' = [] ++ [reply] ∧ reply_to msg reply).
Proof.
  eexists _, _. split; [vm_compute; reflexivity|].
  eapply (Pool_Run_step_replies (Recv (scenario_discover scenario_M) 0 0) scenario_pool _ []).
  vm_compute. reflexivity.
Defined.

(** X24: a REQUEST for an address the sender does not hold (the index is
    free or leased to another client) changes no lease.  When it names
    this server it is answered with one NAK that carries a reason and a
    zero [yiaddr]; when it names no server it is dropped. *)
Theorem handleRequest_refuses (now : Time) (msg : DirectedDHCPMessage) (pool : Pool)
    (sender : list DirectedDHCPMessage) (selectedServer requestedIP : IP) (idx : Z) :
  DHCPMessage_ServerIdentifier (Message msg) = Ret selectedServer →
  selectedServer = [] ∨ IP_Equal (Pool_serverIP (Interface msg)) selectedServer = true →
  requested_address (Message msg) requestedIP →
  Pool_indexFromAddress pool requestedIP = (idx, None) →
  (∀ lease, Leases pool !! idx = Some lease →
            ClientIdentifier_equals (Lease_ID lease) (newClientIdentifier (Message msg)) = false) →
  (selectedServer = [] ∧ Pool_handleRequest now msg pool sender = Ret (pool, sender))
  ∨ (selectedServer ≠ []
     ∧ ∃ nak reason,
         Pool_handleRequest now msg pool sender = Ret (pool, sender ++ [nak])
         ∧ Options (Message nak) !! DHCPMessageTypeOptionCode = Some (Uint8DHCPOption [DHCPNak])
         ∧ Options (Message nak) !! MessageOptionCode = Some (StringDHCPOption reason)
         ∧ reason ≠ []
         ∧ YourIP (Header (Message nak)) = IPv4zero).
Proof.
  intros Hsel Hmatch Hreq Hidx Hnot.
  rewrite (handleRequest_requested _ _ _ _ _ _ Hsel Hreq). simpl.
  assert (bool_decide (selectedServer ≠ [])
          && negb (IP_Equal (Pool_serverIP (Interface msg)) selectedServer) = false) as ->.
  { destruct Hmatch as [-> | ->]; [reflexivity | by rewrite andb_false_r]. }
  rewrite Hidx.
  destruct (decide (selectedServer = [])) as [->|Hne].
  - left. split; [done|].
    destruct (Leases pool !! idx) as [l|]; [|done]. by rewrite (Hnot l).
  - right. split; [done|]. rewrite (bool_decide_eq_true_2 _ Hne).
    destruct (Leases pool !! idx) as [l|].
    + rewrite (Hnot l) by done. simpl.
      eexists _, _. split; [reflexivity|]. by repeat split.
    + eexists _, _. split; [reflexivity|]. by repeat split.
Qed.

Lemma handleRequest_refuses_witness :
  (IPv4 192 168 99 1 = []
   ∧ Pool_handleRequest 1000 (scenario_request scenario_M2 (IPv4 192 168 99 4) (IPv4 192 168 99 1))
       pool_with_M [] = Ret (pool_with_M, []))
  ∨ (IPv4 192 168 99 1 ≠ []
     ∧ ∃ nak reason,
         Pool_handleRequest 1000
           (scenario_request scenario_M2 (IPv4 192 168 99 4) (IPv4 192 168 99 1)) pool_with_M []
         = Ret (pool_with_M, [] ++ [nak])
         ∧ Options (Message nak) !! DHCPMessageTypeOptionCode = Some (Uint8DHCPOption [DHCPNak])
         ∧ Options (Message nak) !! MessageOptionCode = Some (StringDHCPOption reason)
         ∧ reason ≠ []
         ∧ YourIP (Header (Message nak)) = IPv4zero).
Proof.
  apply (handleRequest_refuses 1000
           (scenario_request scenario_M2 (IPv4 192 168 99 4) (IPv4 192 168 99 1))
           pool_with_M [] (IPv4 192 168 99 1) (IPv4 192 168 99 4) 2).
  - reflexivity.
  - right. vm_compute. reflexivity.
  - apply requested_by_option; [reflexivity | discriminate].
  - vm_compute. reflexivity.
  - intros lease Hl. vm_compute in Hl. injection Hl as <-. vm_compute. reflexivity.
Defined.

(** X25: when a step of [Run] returns.  In a pool with [End < 2^32 - 1]
    (where the loop of [freeIndices] is left), a message that carries
    option 53 with at least one byte, and whose options 50 and 54, where
    present, hold at least one address, is handled to the end, without
    a panic, whatever leases the pool holds. *)
Theorem Pool_Run_step_no_panic (msg : DirectedDHCPMessage) (now : Time) (rnd : nat)
    (pool : Pool) (sender : list DirectedDHCPMessage) (t : Z) (rest : list Z) :
  End_ pool < 2 ^ 32 - 1 →
  Options (Message msg) !! DHCPMessageTypeOptionCode = Some (Uint8DHCPOption (t :: rest)) →
  (∀ code, code = RequestIPAddressOptionCode ∨ code = ServerIdentifierOptionCode →
           Options (Message msg) !! code = None
           ∨ ∃ ip ips, Options (Message msg) !! code = Some (IPDHCPOption (ip :: ips))) →
  ∃ pool' sender', Pool_Run_step (Recv msg now rnd) pool sender = Ret (pool', sender').
Proof.
  intros Hend H53 Hips.
  assert (∃ pool' sender', Pool_handleDiscover rnd msg pool sender = Ret (pool', sender')) as HD.
  { unfold Pool_handleDiscover. destruct (Pool_findClientLease _ _); simpl; [eauto|].
    rewrite (Pool_freeIndices_bounded pool Hend). simpl.
    case_bool_decide as Hfree; simpl; [eauto|].
    destruct (selectNumber_elem (Algorithm pool) (free_in_range pool) rnd) as (i & -> & _);
      [by destruct (free_in_range pool)|]. simpl. eauto. }
  assert (∃ pool' sender', Pool_handleRequest now msg pool sender = Ret (pool', sender')) as HR.
  { unfold Pool_handleRequest, DHCPMessage_ServerIdentifier, DHCPMessage_RequestedIP.
    destruct (Hips ServerIdentifierOptionCode) as [-> | (ip & ips & ->)]; [by right| |];
      (destruct (Hips RequestIPAddressOptionCode) as [-> | (ip' & ips' & ->)]; [by left| |]);
      simpl;
      repeat match goal with
             | |- ∃ _ _, (if ?b then _ else _) = _ => destruct b
             | |- ∃ _ _, match ?x with _ => _ end = _ => destruct x
             end; eauto. }
  simpl. unfold DHCPMessage_Type. rewrite H53. simpl.
  destruct (_ || _); simpl; (destruct (basicValidation _ _); [eauto|]);
    repeat case_bool_decide; eauto;
    destruct (Pool_handleRelease msg pool sender); eauto.
Qed.

Lemma Pool_Run_step_no_panic_witness :
  ∃ pool' sender',
    Pool_Run_step (Recv (scenario_discover scenario_M2) 1000 0) pool_with_M []
    = Ret (pool', sender').
Proof.
  apply (Pool_Run_step_no_panic (scenario_discover scenario_M2) 1000 0
           pool_with_M [] DHCPDiscover []).
  - vm_compute. reflexivity.
  - reflexivity.
  - intros code [-> | ->]; left; reflexivity.
Defined.

(** ** Addresses are leased once; the handshake *)

Lemma addressable_inverse (pool : Pool) (k : Z) :
  addressable pool → Start pool ≤ k ≤ End_ pool →
  Pool_indexFromAddress pool (Pool_addressFromIndex pool k) = (k, None).
Proof.
  intros (Hnet & Hs & He & Hdis) Hk.
  apply indexFromAddress_inverse; [done | unfold is_uint32; lia | by apply Hdis].
Qed.

(** X17: no address is leased twice.  In a pool whose key offsets fit in
    the host part of its network, two leases stored at different keys
    never hold the same address, whatever messages arrived. *)
Theorem Pool_Run_distinct_addresses (evs : list PoolEvent) (pool pool' : Pool)
    (sender sender' : list DirectedDHCPMessage) (k1 k2 : Z) (l1 l2 : Lease) :
  addressable pool → Leases pool = ∅ →
  Pool_Run evs pool sender = Ret (pool', sender') →
  Leases pool' !! k1 = Some l1 → Leases pool' !! k2 = Some l2 →
  k1 ≠ k2 → Address l1 ≠ Address l2.
Proof.
  intros Haddr Hempty Hrun H1 H2 Hne Heq.
  destruct (Pool_inv_Run_aux _ _ _ _ _ (Pool_inv_empty _ Hempty) Hrun)
    as [[Hkeys _] (Hnet & Hs & He & _)].
  assert (addressable pool') as Haddr'.
  { unfold addressable. by rewrite Hnet, Hs, He. }
  destruct (Hkeys _ _ H1) as (Hr1 & Ha1 & _). destruct (Hkeys _ _ H2) as (Hr2 & Ha2 & _).
  pose proof (addressable_inverse pool' k1 Haddr' Hr1) as E1.
  pose proof (addressable_inverse pool' k2 Haddr' Hr2) as E2.
  rewrite <- Ha1, Heq, Ha2, E2 in E1. congruence.
Qed.

Lemma scenario_pool_addressable : addressable scenario_pool.
Proof.
  split; [|split; [|split]].
  - apply (bool_decide_unpack _). vm_compute. reflexivity.
  - vm_compute. discriminate.
  - vm_compute. reflexivity.
  - intros k Hk. change (Start scenario_pool) with 2 in *. change (End_ scenario_pool) with 99 in *.
    assert (be_uint32 (Net_IP (Network scenario_pool)) = 12626019 * 2 ^ 8) as ->.
    { vm_compute. reflexivity. }
    unfold uint32. rewrite Z.mod_small by lia.
    apply Z.bits_inj'. intros n Hn. rewrite Z.land_spec, Z.bits_0.
    destruct (decide (n < 8)).
    + rewrite Z.mul_pow2_bits_low by lia. apply andb_false_r.
    + rewrite (Z.bits_above_log2 (k + 2) n); [reflexivity | lia |].
      apply Z.log2_lt_pow2; [lia|].
      assert (2 ^ 8 ≤ 2 ^ n) by (apply Z.pow_le_mono_r; lia). lia.
Qed.

Lemma Pool_Run_distinct_addresses_witness :
  ∃ pool' sender' l1 l2,
    Pool_Run [Recv (scenario_discover scenario_M) 0 0; Recv (scenario_discover scenario_M2) 0 0]
      scenario_pool [] = Ret (pool', sender')
    ∧ Leases pool' !! 2 = Some l1 ∧ Leases pool' !! 3 = Some l2
    ∧ Address l1 ≠ Address l2.
Proof.
  eexists _, _, _, _.
  split; [vm_compute; reflexivity|]. split; [vm_compute; reflexivity|].
  split; [vm_compute; reflexivity|].
  eapply (Pool_Run_distinct_addresses
            [Recv (scenario_discover scenario_M) 0 0; Recv (scenario_discover scenario_M2) 0 0]
            scenario_pool _ [] _ 2 3).
  - exact scenario_pool_addressable.
  - reflexivity.
  - vm_compute. reflexivity.
  - vm_compute. reflexivity.
  - vm_compute. reflexivity.
  - lia.
Defined.

Lemma selectNumber_Ret (algo : AddressSelectAlgorithm) (indices : list Z) (rnd : nat) (idx : Z) :
  selectNumber algo indices rnd = Ret idx → idx ∈ indices.
Proof.
  intros Hsel. destruct indices as [|i rest].
  - destruct algo; discriminate Hsel.
  - destruct (selectNumber_elem algo (i :: rest) rnd) as (j & Hj & Hin); [done|].
    rewrite Hsel in Hj. by injection Hj as ->.
Qed.

Lemma handleDiscover_select rnd msg pool sender idx :
  Pool_findClientLease pool (newClientIdentifier (Message msg)) = None →
  End_ pool < 2 ^ 32 - 1 →
  selectNumber (Algorithm pool) (free_in_range pool) rnd = Ret idx →
  let lease := mkLease (Pool_addressFromIndex pool idx) LeaseReserved
                 (newClientIdentifier (Message msg)) zeroTime in
  let pool' := Pool_with_Leases pool (<[idx := lease]> (Leases pool)) in
  Pool_handleDiscover rnd msg pool sender
  = Ret (pool', sender ++ [lease_reply pool' msg (Pool_serverIP (Interface msg)) DHCPOffer lease]).
Proof.
  intros Hnone Hend Hsel. pose proof (selectNumber_Ret _ _ _ _ Hsel) as Hin.
  unfold Pool_handleDiscover. rewrite Hnone.
  rewrite (Pool_freeIndices_bounded pool Hend). cbn [mbind go_bind].
  rewrite bool_decide_eq_false_2
    by (destruct (free_in_range pool); [by apply elem_of_nil in Hin | done]).
  rewrite Hsel. reflexivity.
Qed.

(** X26: the handshake.  In a pool with [End < 2^32 - 1], a DISCOVER of a
    client without a lease, for which [selectNumber] picks the free
    index [idx], is answered with an OFFER of the address of [idx],
    which is reserved; when the client then sends a REQUEST that names
    this server and that address, it is answered with an ACK for the
    address and the lease is in use until [now + Lifetime]. *)
Theorem discover_then_request (rnd : nat) (now : Time) (discover request : DirectedDHCPMessage)
    (pool : Pool) (sender : list DirectedDHCPMessage) (selectedServer : IP) (idx : Z) :
  addressable pool →
  End_ pool < 2 ^ 32 - 1 →
  Pool_findClientLease pool (newClientIdentifier (Message discover)) = None →
  selectNumber (Algorithm pool) (free_in_range pool) rnd = Ret idx →
  ClientHwAddr (Header (Message request)) = ClientHwAddr (Header (Message discover)) →
  DHCPMessage_ServerIdentifier (Message request) = Ret selectedServer →
  IP_Equal (Pool_serverIP (Interface request)) selectedServer = true →
  DHCPMessage_RequestedIP (Message request) = Ret (Pool_addressFromIndex pool idx) →
  ∃ pool1 offer pool2 ack,
    Pool_handleDiscover rnd discover pool sender = Ret (pool1, sender ++ [offer])
    ∧ Options (Message offer) !! DHCPMessageTypeOptionCode = Some (Uint8DHCPOption [DHCPOffer])
    ∧ YourIP (Header (Message offer)) = Pool_addressFromIndex pool idx
    ∧ Leases pool1 !! idx
      = Some (mkLease (Pool_addressFromIndex pool idx) LeaseReserved
                (newClientIdentifier (Message discover)) zeroTime)
    ∧ Pool_handleRequest now request pool1 (sender ++ [offer])
      = Ret (pool2, (sender ++ [offer]) ++ [ack])
    ∧ Options (Message ack) !! DHCPMessageTypeOptionCode = Some (Uint8DHCPOption [DHCPAck])
    ∧ YourIP (Header (Message ack)) = Pool_addressFromIndex pool idx
    ∧ Leases pool2 !! idx
      = Some (mkLease (Pool_addressFromIndex pool idx) LeaseInUse
                (newClientIdentifier (Message discover)) (now + Lifetime pool)).
Proof.
  intros Haddr Hend Hnone Hselnum Hmac Hsel Heq Hreq.
  pose proof (handleDiscover_select rnd discover pool sender idx Hnone Hend Hselnum) as Hrun.
  cbv zeta in Hrun.
  apply selectNumber_Ret, freeIndices_iff in Hselnum as [Hrange Hfreeidx].
  eexists _, _, _, _.
  split; [exact Hrun|].
  split; [reflexivity|]. split; [reflexivity|].
  split; [cbn [Leases Pool_with_Leases]; by rewrite lookup_insert_eq|].
  assert (requested_address (Message request) (Pool_addressFromIndex pool idx)) as Hra.
  { apply requested_by_option; [done|]. discriminate. }
  rewrite (handleRequest_requested _ _ _ _ _ _ Hsel Hra). cbv zeta.
  rewrite Heq, andb_false_r.
  change (Pool_indexFromAddress (Pool_with_Leases pool ?l) ?ip)
    with (Pool_indexFromAddress pool ip).
  rewrite (addressable_inverse pool idx Haddr Hrange).
  cbn [Leases Pool_with_Leases]. rewrite lookup_insert_eq.
  cbn [Lease_ID Address].
  assert (ClientIdentifier_equals (newClientIdentifier (Message discover))
            (newClientIdentifier (Message request)) = true) as ->.
  { unfold ClientIdentifier_equals, newClientIdentifier. cbn [ID Mac length].
    rewrite bool_decide_eq_false_2 by lia.
    unfold bytes_Equal. rewrite Hmac. by apply bool_decide_eq_true_2. }
  cbn [negb].
  split; [reflexivity|].
  split; [reflexivity|]. split; [reflexivity|].
  cbn [Leases Pool_with_Leases Lifetime]. by rewrite lookup_insert_eq.
Qed.

Lemma discover_then_request_witness :
  ∃ pool1 offer pool2 ack,
    Pool_handleDiscover 0 (scenario_discover scenario_M) scenario_pool [] = Ret (pool1, [] ++ [offer])
    ∧ Options (Message offer) !! DHCPMessageTypeOptionCode = Some (Uint8DHCPOption [DHCPOffer])
    ∧ YourIP (Header (Message offer)) = Pool_addressFromIndex scenario_pool 2
    ∧ Leases pool1 !! 2
      = Some (mkLease (Pool_addressFromIndex scenario_pool 2) LeaseReserved
                (newClientIdentifier (Message (scenario_discover scenario_M))) zeroTime)
    ∧ Pool_handleRequest 1000
        (scenario_request scenario_M (IPv4 192 168 99 4) (IPv4 192 168 99 1))
        pool1 ([] ++ [offer])
      = Ret (pool2, ([] ++ [offer]) ++ [ack])
    ∧ Options (Message ack) !! DHCPMessageTypeOptionCode = Some (Uint8DHCPOption [DHCPAck])
    ∧ YourIP (Header (Message ack)) = Pool_addressFromIndex scenario_pool 2
    ∧ Leases pool2 !! 2
      = Some (mkLease (Pool_addressFromIndex scenario_pool 2) LeaseInUse
                (newClientIdentifier (Message (scenario_discover scenario_M)))
                (1000 + Lifetime scenario_pool)).
Proof.
  apply (discover_then_request 0 1000 (scenario_discover scenario_M)
           (scenario_request scenario_M (IPv4 192 168 99 4) (IPv4 192 168 99 1))
           scenario_pool [] (IPv4 192 168 99 1) 2).
  - exact scenario_pool_addressable.
  - vm_compute. reflexivity.
  - vm_compute. reflexivity.
  - vm_compute. reflexivity.
  - reflexivity.
  - reflexivity.
  - vm_compute. reflexivity.
  - vm_compute. reflexivity.
Defined.

(** ** The sender loop *)

(** X27: the receiver forwards, in order, one message for every datagram
    read before the first read error, whether it decoded or not, and
    nothing for what follows the error. *)
Theorem UDPReceiver_loop_in_order (InterfaceByIndex : Z → option net_Interface)
    (reads : list ReadResult) (st st' : ReceiverState) :
  UDPReceiver_loop InterfaceByIndex reads st = Ret st' →
  ∃ msgs, channel st' = channel st ++ msgs
          ∧ Forall2 (forwarded InterfaceByIndex) (reads_before_error reads) msgs.
Proof.
  revert st. induction reads as [|read reads IH]; intros st; simpl.
  - intros [= <-]. exists []. split; [by rewrite app_nil_r | constructor].
  - destruct read as [buffer addr Ifindex|err]; simpl.
    + destruct (UnmarshallDHCPMessage buffer) as [[dhcp e]| |] eqn:Hu; simpl; [|done..].
      intros Hloop. destruct (IH _ Hloop) as (msgs & Hch & Hall). simpl in Hch.
      exists (mkDirected dhcp (InterfaceByIndex Ifindex) addr :: msgs).
      split; [by rewrite Hch, <- app_assoc|].
      constructor; [|done].
      by exists buffer, addr, Ifindex, dhcp, e.
    + intros [= <-]. exists []. split; [by rewrite app_nil_r|].
      constructor.
Qed.

Lemma UDPReceiver_loop_in_order_witness :
  ∃ st',
    UDPReceiver_loop (λ _, Some scenario_iface)
      [ReadOk sample_datagram None 3; ReadOk (zeros 576) None 3; ReadErr "closed";
       ReadOk sample_datagram None 3]
      (mkReceiver [] [] false) = Ret st'
    ∧ ∃ msgs,
        channel st' = channel (mkReceiver [] [] false) ++ msgs
        ∧ Forall2 (forwarded (λ _, Some scenario_iface))
            (reads_before_error
               [ReadOk sample_datagram None 3; ReadOk (zeros 576) None 3; ReadErr "closed";
                ReadOk sample_datagram None 3])
            msgs.
Proof.
  eexists. split; [vm_compute; reflexivity|].
  eapply (UDPReceiver_loop_in_order (λ _, Some scenario_iface)
            [ReadOk sample_datagram None 3; ReadOk (zeros 576) None 3; ReadErr "closed";
             ReadOk sample_datagram None 3]
            (mkReceiver [] [] false)).
  vm_compute. reflexivity.
Defined.

(** X28: when the options of a message do not encode, the sender prints
    nothing and skips nothing: as [MarshallDHCPMessage] reports no
    error, an empty datagram is written to the interface. *)
Theorem UDPSender_writes_empty_payload
    (order : list (DHCPOptionCode * DHCPOption)) (msg : DirectedDHCPMessage)
    (iface : net_Interface) (st : SenderState) (opt : list Z) (err : string) :
  Encode_loop order [] = Ret (opt, Some err) →
  Interface msg = Some iface →
  UDPSender_iteration order None msg st
  = Ret (mkSender (written st ++ [([], int32 (Index iface))]) (sender_printed st)).
Proof.
  intros Henc Hif. unfold UDPSender_iteration, MarshallDHCPMessage.
  rewrite Henc. cbn [mbind go_bind]. by rewrite Hif.
Qed.

Lemma UDPSender_writes_empty_payload_witness :
  UDPSender_iteration [(MessageOptionCode, big_option)] None
    (scenario_message scenario_M {[MessageOptionCode := big_option]}) (mkSender [] [])
  = Ret (mkSender ([] ++ [([], int32 (Index scenario_iface))]) []).
Proof.
  eapply (UDPSender_writes_empty_payload [(MessageOptionCode, big_option)]
            (scenario_message scenario_M {[MessageOptionCode := big_option]})
            scenario_iface (mkSender [] [])).
  - vm_compute. reflexivity.
  - reflexivity.
Defined.

(** X29: sender and receiver compose.  A well-formed message taken by the
    sender is written as one datagram; read into the zeroed 576-byte
    buffer of a receiver, it is forwarded as the same message up to
    NUL padding of the names, with no error printed. *)
Theorem sender_to_receiver
    (order : list (DHCPOptionCode * DHCPOption)) (msg : DirectedDHCPMessage)
    (iface : net_Interface) (sst : SenderState)
    (InterfaceByIndex : Z → option net_Interface) (addr : option UDPAddr) (Ifindex : Z)
    (rst : ReceiverState) :
  wf_message (Message msg) → order ≡ₚ map_to_list (Options (Message msg)) →
  Interface msg = Some iface →
  ∃ bytes m',
    UDPSender_iteration order None msg sst
    = Ret (mkSender (written sst ++ [(bytes, int32 (Index iface))]) (sender_printed sst))
    ∧ eq_up_to_padding (Message msg) m'
    ∧ ((length bytes ≤ 576)%nat →
       UDPReceiver_iteration InterfaceByIndex
         (ReadOk (bytes ++ zeros (576 - length bytes)) addr Ifindex) rst
       = Ret (mkReceiver (channel rst ++ [mkDirected m' (InterfaceByIndex Ifindex) addr])
                (printed rst) (closed rst), true)).
Proof.
  intros Hwf Hperm Hif.
  destruct (codec_roundtrip_junk _ _ Hwf Hperm) as (bytes & Hm & _ & Hu).
  exists bytes, (mkDHCPMessage (strip_names (Header (Message msg))) (Options (Message msg))).
  split; [|split].
  - unfold UDPSender_iteration. rewrite Hm. cbn [mbind go_bind]. by rewrite Hif.
  - destruct msg as [m ? ?]. simpl. by apply strip_names_padding.
  - intros _. unfold UDPReceiver_iteration. rewrite Hu. reflexivity.
Qed.

Lemma sender_to_receiver_witness :
  ∃ bytes m',
    UDPSender_iteration (map_to_list (Options sample_offer)) None
      (mkDirected sample_offer (Some scenario_iface) None) (mkSender [] [])
    = Ret (mkSender ([] ++ [(bytes, int32 (Index scenario_iface))]) [])
    ∧ eq_up_to_padding sample_offer m'
    ∧ ((length bytes ≤ 576)%nat →
       UDPReceiver_iteration (λ _, Some scenario_iface)
         (ReadOk (bytes ++ zeros (576 - length bytes)) None 3) (mkReceiver [] [] false)
       = Ret (mkReceiver ([] ++ [mkDirected m' (Some scenario_iface) None]) [] false, true)).
Proof.
  apply (sender_to_receiver (map_to_list (Options sample_offer))
           (mkDirected sample_offer (Some scenario_iface) None) scenario_iface (mkSender [] [])
           (λ _, Some scenario_iface) None 3 (mkReceiver [] [] false)).
  - exact sample_offer_wf.
  - reflexivity.
  - reflexivity.
Defined.

(** ** Layout of a marshalled message *)

Lemma ipToArray_length (ip : IP) : length (ipToArray ip) = 4%nat.
Proof. unfold ipToArray. destruct (To4 ip); [by rewrite copy_length | done]. Qed.

Lemma binary_Write_header_raw_length (h : BootpHeader) :
  length (binary_Write_header (BootpHeader_raw h)) = bootpHeaderSize.
Proof.
  unfold binary_Write_header, BootpHeader_raw.
  cbn [raw_Op raw_HwAddrType raw_HwAddrLength raw_Hops raw_TransactionID raw_Seconds raw_Flags
       raw_ClientIP raw_YourIP raw_ServerIP raw_RelayAgentIP raw_ClientHwAddr raw_ServerName
       raw_FileName].
  rewrite !length_app, !ipToArray_length, !copy_length. reflexivity.
Qed.

Lemma Encode_loop_ends (entries : list (DHCPOptionCode * DHCPOption)) (buffer opt : list Z) :
  Encode_loop entries buffer = Ret (opt, None) → ∃ body, opt = buffer ++ body ++ [EndOptionCode].
Proof.
  revert buffer. induction entries as [|[code o] entries IH]; intros buffer; simpl.
  - intros [= <-]. by exists [].
  - case_bool_decide; [apply IH|].
    destruct (Option_Encode o) as [data| |]; simpl; [|done..].
    case_bool_decide; [done|].
    intros Hrest. destruct (IH _ Hrest) as [body ->].
    exists ([code] ++ [uint8 (Z.of_nat (length data))] ++ data ++ body).
    by rewrite <- !app_assoc.
Qed.

(** X13: the layout of a marshalled message.  Whenever [Encode] succeeds,
    the output is 236 header bytes, the cookie 63 82 53 63, the encoded
    options, and END as the last byte. *)
Theorem Marshall_layout (order : list (DHCPOptionCode * DHCPOption)) (msg : DHCPMessage)
    (opt : list Z) :
  Encode_loop order [] = Ret (opt, None) →
  ∃ header body,
    MarshallDHCPMessage order msg = Ret (header ++ cookie_bytes ++ body ++ [EndOptionCode], None)
    ∧ length header = bootpHeaderSize
    ∧ opt = body ++ [EndOptionCode].
Proof.
  intros Henc. destruct (Encode_loop_ends _ _ _ Henc) as [body Hbody].
  rewrite app_nil_l in Hbody.
  exists (binary_Write_header (BootpHeader_raw (Header msg))), body.
  split; [|split; [apply binary_Write_header_raw_length | done]].
  unfold MarshallDHCPMessage. rewrite Henc. cbn [mbind go_bind]. rewrite Hbody.
  assert (put_uint32 dhcpMagicCookie = cookie_bytes) as -> by (vm_compute; reflexivity).
  by rewrite <- !app_assoc.
Qed.

Lemma Marshall_layout_witness :
  ∃ header body,
    MarshallDHCPMessage (map_to_list (Options sample_offer)) sample_offer
    = Ret (header ++ cookie_bytes ++ body ++ [EndOptionCode], None)
    ∧ length header = bootpHeaderSize
    ∧ drop (bootpHeaderSize + 4) sample_datagram = body ++ [EndOptionCode].
Proof.
  apply (Marshall_layout (map_to_list (Options sample_offer)) sample_offer
           (drop (bootpHeaderSize + 4) sample_datagram)).
  vm_compute. reflexivity.
Defined.

(** Entries stored under the PAD and END codes are never written. *)
Lemma Encode_loop_skips_PAD_END (entries : list (DHCPOptionCode * DHCPOption)) (buffer : list Z) :
  Encode_loop entries buffer
  = Encode_loop (filter (λ e, e.1 ≠ PadOptionCode ∧ e.1 ≠ EndOptionCode) entries) buffer.
Proof.
  revert buffer. induction entries as [|[code o] entries IH]; intros buffer; [done|].
  rewrite filter_cons. simpl. destruct (decide _) as [[Hp He]|Hn].
  - simpl. rewrite bool_decide_eq_false_2 by (intros [?|?]; done).
    destruct (Option_Encode o); simpl; [|done..]. case_bool_decide; [done | apply IH].
  - rewrite bool_decide_eq_true_2; [apply IH|].
    destruct (decide (code = EndOptionCode)); [by left|].
    destruct (decide (code = PadOptionCode)); [by right|]. destruct Hn. done.
Qed.

(** X14: [IPDHCPOption.Encode] panics exactly when one of its addresses has
    no IPv4 form; the panic is [IPv6?]. *)
Theorem Option_Encode_panics_iff (ips : list IP) :
  Option_Encode (IPDHCPOption ips) = Panic "IPv6?" ↔ ∃ ip, ip ∈ ips ∧ To4 ip = None.
Proof.
  simpl. generalize (@nil Z). induction ips as [|ip ips IH]; intros buffer; simpl.
  - split; [done|]. intros (ip & Hin & _). by apply elem_of_nil in Hin.
  - destruct (To4 ip) as [ip4|] eqn:H4.
    + rewrite IH. split.
      * intros (x & Hin & Hx). exists x. split; [by right | done].
      * intros (x & Hin & Hx). apply elem_of_cons in Hin as [-> | Hin]; [congruence|]. eauto.
    + split; [|done]. intros _. exists ip. split; [by left | done].
Qed.

(** ** C strings *)

(** [cstringToGo] returns the bytes before the first NUL, and all of
    them when there is none. *)
Lemma cstringToGo_first_NUL (s rest : list Z) :
  Forall (λ b, b ≠ 0) s →
  cstringToGo s = s ∧ cstringToGo (s ++ 0 :: rest) = s.
Proof.
  intros Hs. rewrite !cstringToGo_cprefix.
  induction Hs as [|b s Hb _ [IH1 IH2]]; simpl; [done|].
  rewrite bool_decide_eq_false_2 by done. by rewrite IH1, IH2.
Qed.

(** ** From the receiver to the pool *)

(** Whenever [UnmarshallDHCPMessage] reports an error, the message it
    returns has no options. *)
Lemma Unmarshall_error_no_options (msg : list Z) (m : DHCPMessage) (err : string) :
  UnmarshallDHCPMessage msg = Ret (m, Some err) → Options m = ∅.
Proof.
  unfold UnmarshallDHCPMessage. intros H.
  destruct (binary_Read_header msg) as [raw|]; [|by injection H as <- _].
  cbv zeta in H. case_bool_decide; [by injection H as <- _|].
  case_bool_decide; [by injection H as <- _|].
  destruct (DecodeDHCPOptions _) as [[options [e|]]| |]; cbn [mbind go_bind] in H;
    [by injection H as <- _ | | discriminate..].
  destruct (rawBootpHeader_transform raw) as [bootp [e|]]; [by injection H as <- _|].
  discriminate.
Qed.

(** X30: a datagram that [UnmarshallDHCPMessage] refuses is still put on
    the channel, with no options; the pool that takes it from its inbox
    calls [Type] before [basicValidation] and panics. *)
Theorem undecodable_datagram_crashes_pool
    (InterfaceByIndex : Z → option net_Interface) (buffer : list Z) (addr : option UDPAddr)
    (Ifindex : Z) (st : ReceiverState) (m : DHCPMessage) (err : string) :
  UnmarshallDHCPMessage buffer = Ret (m, Some err) →
  ∃ d,
    UDPReceiver_iteration InterfaceByIndex (ReadOk buffer addr Ifindex) st
    = Ret (mkReceiver (channel st ++ [d])
             (printed st ++ ["Unable to parse DHCP message: " +:+ err]) (closed st), true)
    ∧ ∀ now rnd pool sender,
        Pool_Run_step (Recv d now rnd) pool sender = Panic "nil pointer dereference".
Proof.
  intros H. exists (mkDirected m (InterfaceByIndex Ifindex) addr). split.
  - unfold UDPReceiver_iteration. rewrite H. reflexivity.
  - intros now rnd pool sender. unfold Pool_Run_step, DHCPMessage_Type.
    cbn [Message]. rewrite (Unmarshall_error_no_options _ _ _ H). reflexivity.
Qed.

Lemma undecodable_datagram_crashes_pool_witness :
  ∃ d,
    UDPReceiver_iteration (λ _, Some scenario_iface) (ReadOk (zeros 576) None 3)
      (mkReceiver [] [] false)
    = Ret (mkReceiver ([] ++ [d])
             ([] ++ ["Unable to parse DHCP message: " +:+ "Invalid DHCP cookie value"]) false, true)
    ∧ ∀ now rnd pool sender,
        Pool_Run_step (Recv d now rnd) pool sender = Panic "nil pointer dereference".
Proof.
  apply (undecodable_datagram_crashes_pool (λ _, Some scenario_iface) (zeros 576) None 3
           (mkReceiver [] [] false) zeroDHCPMessage "Invalid DHCP cookie value").
  vm_compute. reflexivity.
Defined.

Lemma decodeOption_error (code : DHCPOptionCode) (data : list Z) opt (err : string) :
  decodeOption code data = (opt, Some err) → err = "Unable to parse option".
Proof.
  unfold decodeOption. destruct (option_kind code); [|done].
  destruct (Option_Decode _ _); [done|]. by intros [= _ <-].
Qed.

(** The loop running off the end of [data] without meeting END, then
    one more byte that is an option code: the length octet is read past
    the end. *)
Lemma DecodeDHCPOptions_loop_dangling fuel (data : list Z) (code : DHCPOptionCode) i output o :
  code ≠ PadOptionCode → code ≠ EndOptionCode →
  (i ≤ length data)%nat →
  DecodeDHCPOptions_loop fuel data i output
  = Some (Ret (o, Some "Options not terminated properly")) →
  DecodeDHCPOptions_loop (S fuel) (data ++ [code]) i output
  = Some (Panic "index out of range").
Proof.
  intros Hpad Hend. revert i output.
  induction fuel as [|fuel IH]; intros i output Hi Hrun.
  - simpl in Hrun. case_bool_decide as Hlt; [done|].
    assert (i = length data) as -> by lia.
    cbn [DecodeDHCPOptions_loop].
    rewrite bool_decide_eq_true_2 by (rewrite length_app; simpl; lia).
    rewrite list_lookup_middle by done.
    rewrite (bool_decide_eq_false_2 _ Hpad), (bool_decide_eq_false_2 _ Hend).
    rewrite lookup_ge_None_2 by (rewrite length_app; simpl; lia). done.
  - cbn [DecodeDHCPOptions_loop] in Hrun.
    case_bool_decide as Hlt.
    2:{ assert (i = length data) as -> by lia.
        cbn [DecodeDHCPOptions_loop].
        rewrite bool_decide_eq_true_2 by (rewrite length_app; simpl; lia).
        rewrite list_lookup_middle by done.
        rewrite (bool_decide_eq_false_2 _ Hpad), (bool_decide_eq_false_2 _ Hend).
        rewrite lookup_ge_None_2 by (rewrite length_app; simpl; lia). done. }
    change (DecodeDHCPOptions_loop (S (S fuel)) (data ++ [code]) i output)
      with (if bool_decide (i < length (data ++ [code]))%nat then
              match (data ++ [code]) !! i with
              | None => Some (Panic "index out of range")
              | Some c =>
                  if bool_decide (c = PadOptionCode) then
                    DecodeDHCPOptions_loop (S fuel) (data ++ [code]) (S i) output
                  else if bool_decide (c = EndOptionCode) then Some (Ret (output, None))
                  else
                    match (data ++ [code]) !! S i with
                    | None => Some (Panic "index out of range")
                    | Some len =>
                        if bool_decide (len < 0 ∨ Z.of_nat (length (data ++ [code]))
                                                  - Z.of_nat (S i) - 1 < len)
                        then Some (Ret (∅, Some "Invalid DHCP option length"))
                        else
                          match decodeOption c (take (Z.to_nat len) (drop (S (S i)) (data ++ [code]))) with
                          | (_, Some err) => Some (Ret (∅, Some err))
                          | (Some option, None) =>
                              DecodeDHCPOptions_loop (S fuel) (data ++ [code])
                                (S (S i + Z.to_nat len)) (<[c := option]> output)
                          | (None, None) =>
                              DecodeDHCPOptions_loop (S fuel) (data ++ [code])
                                (S (S i + Z.to_nat len)) output
                          end
                    end
              end
            else Some (Ret (∅, Some "Options not terminated properly"))).
    rewrite bool_decide_eq_true_2 by (rewrite length_app; lia).
    rewrite lookup_app_l by done.
    destruct (data !! i) as [c|]; [|done].
    case_bool_decide; [apply IH; [lia | done]|].
    case_bool_decide; [done|].
    destruct (data !! S i) as [len|] eqn:Hlen; [|done].
    rewrite lookup_app_l by (by eapply lookup_lt_Some).
    rewrite Hlen.
    case_bool_decide as Hbad; [done|].
    rewrite bool_decide_eq_false_2 by (rewrite length_app; simpl; lia).
    rewrite drop_app_le, take_app_le by (rewrite ?length_drop; lia).
    destruct (decodeOption c _) as [[opt|] [err|]] eqn:Hdec;
      try (apply decodeOption_error in Hdec as ->; done);
      apply IH; try done; lia.
Qed.

Lemma DecodeDHCPOptions_dangling_after (data : list Z) (code : DHCPOptionCode) :
  code ≠ PadOptionCode → code ≠ EndOptionCode →
  DecodeDHCPOptions data = Ret (∅, Some "Options not terminated properly") →
  DecodeDHCPOptions (data ++ [code]) = Panic "index out of range".
Proof.
  intros Hpad Hend Hdec.
  destruct (DecodeDHCPOptions_total data) as (r & Hr & Heq). rewrite Hdec in Heq. subst r.
  apply (DecodeDHCPOptions_run _ _ (S (length data))).
  eapply DecodeDHCPOptions_loop_dangling; [done | done | lia | exact Hr].
Qed.

(** X5: [DecodeDHCPOptions] reads the length octet at [data[i]] after
    [i++] without checking [i] against [len(data)].  When the 576-byte
    buffer of the receiver is filled to its last byte with a header,
    the magic cookie, options that run to the end without END, and a
    last byte that is an option code, [UnmarshallDHCPMessage], and with
    it the receiver goroutine, panics, whatever the header holds. *)
Theorem UDPReceiver_dangling_code_panics
    (InterfaceByIndex : Z → option net_Interface) (header options : list Z)
    (code : DHCPOptionCode) (addr : option UDPAddr) (Ifindex : Z) (st : ReceiverState) :
  length header = bootpHeaderSize →
  length (header ++ cookie_bytes ++ options ++ [code]) = 576%nat →
  DecodeDHCPOptions options = Ret (∅, Some "Options not terminated properly") →
  code ≠ PadOptionCode → code ≠ EndOptionCode →
  UDPReceiver_iteration InterfaceByIndex
    (ReadOk (header ++ cookie_bytes ++ options ++ [code]) addr Ifindex) st
  = Panic "index out of range".
Proof.
  intros Hlen _ Hdec Hpad Hend. unfold UDPReceiver_iteration.
  destruct (binary_Read_header_Some (header ++ cookie_bytes ++ options ++ [code])) as [raw Hraw].
  { rewrite length_app. lia. }
  rewrite (Unmarshall_with_cookie _ raw Hraw).
  - replace (drop (bootpHeaderSize + 4) (header ++ cookie_bytes ++ options ++ [code]))
      with (options ++ [code]).
    + rewrite DecodeDHCPOptions_dangling_after by done. reflexivity.
    + rewrite <- Hlen, <- drop_drop, drop_app_length. reflexivity.
  - rewrite !length_app. unfold cookie_bytes. simpl length. lia.
  - rewrite <- Hlen, drop_app_length. reflexivity.
Qed.

Lemma UDPReceiver_dangling_code_panics_witness :
  UDPReceiver_iteration (λ _, Some scenario_iface)
    (ReadOk (zeros 236 ++ cookie_bytes ++ ([53; 1; 1] ++ zeros 332) ++ [53]) None 3)
    (mkReceiver [] [] false)
  = Panic "index out of range".
Proof.
  apply (UDPReceiver_dangling_code_panics (λ _, Some scenario_iface) (zeros 236)
           ([53; 1; 1] ++ zeros 332) 53 None 3 (mkReceiver [] [] false)).
  - vm_compute. reflexivity.
  - vm_compute. reflexivity.
  - vm_compute. reflexivity.
  - unfold PadOptionCode. lia.
  - unfold EndOptionCode. lia.
Defined.
